(** * zip-relay: a shallow embedding of the batch processing engine

    The development follows the TypeScript sources of the relay:
    - [content/parser.ts]      the content classifier,
    - [archive/extractor.ts]   streaming extraction with its limits,
    - [types/branded.ts]       [S3Key], [S3Prefix], [joinS3Path],
    - [upload/batcher.ts]      [createBatches],
    - [upload/uploader.ts]     [tryUploadBatch],
    - [routing/file_router.ts] [tryRouteFile],
    - [index.ts]               [tryListZipFiles], [tryProcessZipFile] and
                               [processZips],
    - [result/index.ts]        [collectResults], [partitionResults],
    - [errors/base.ts]         [AppError] and its chain of causes.

    JavaScript strings are modelled as [string] (sequences of 8-bit
    characters), buffers as [list byte], counters as [nat], byte sizes as
    [N] and millisecond readings as [Z].  Telemetry (spans, metrics) has no
    influence on any returned value and is left out. *)

From Stdlib Require Import ZArith NArith Ascii String DecimalString.
From Stdlib.Strings Require Import Byte.
From stdpp Require Import base numbers list strings gmap.

Local Open Scope string_scope.
Local Open Scope list_scope.

(** ** JavaScript string primitives *)

Module Js.

Definition chars (s : string) : list ascii := list_ascii_of_string s.
Definition str (l : list ascii) : string := string_of_list_ascii l.

(** [s.length] *)
Definition len (s : string) : nat := String.length s.

(** a string is truthy when it is not empty *)
Definition truthy (s : string) : bool := negb (String.eqb s "").

(** [s.startsWith(p)] *)
Definition startsWith (s p : string) : bool := String.prefix p s.

(** [s.endsWith(p)] *)
Definition endsWith (s p : string) : bool :=
  (len p <=? len s)%nat &&
  String.eqb (String.substring (len s - len p) (len p) s) p.

(** [s.includes(c)] for a needle of one character *)
Definition includes (s : string) (c : ascii) : bool :=
  existsb (Ascii.eqb c) (chars s).

(** [s.lastIndexOf(c)] for a needle of one character: the greatest index
    holding [c], or [-1]. *)
Fixpoint lastIndexFrom (c : ascii) (l : list ascii) (i : nat) (found : Z) : Z :=
  match l with
  | [] => found
  | x :: l' =>
      lastIndexFrom c l' (S i) (if Ascii.eqb x c then Z.of_nat i else found)
  end.

Definition lastIndexOf (s : string) (c : ascii) : Z :=
  lastIndexFrom c (chars s) 0 (-1).

(** The clamping of a [slice] bound: negative bounds count from the end. *)
Definition clamp (n : nat) (i : Z) : nat :=
  if (i <? 0)%Z then Z.to_nat (Z.max (Z.of_nat n + i) 0)
  else Nat.min (Z.to_nat i) n.

(** [s.slice(from, to)] *)
Definition slice (s : string) (from to : Z) : string :=
  let n := len s in
  let a := clamp n from in
  let b := clamp n to in
  str (take (b - a) (drop a (chars s))).

(** [s.slice(from)] *)
Definition sliceFrom (s : string) (from : Z) : string :=
  slice s from (Z.of_nat (len s)).

(** [s.replace(/^\/+|\/+$/g, '')]: strip the slashes at both ends. *)
Fixpoint dropSlashes (l : list ascii) : list ascii :=
  match l with
  | x :: l' => if Ascii.eqb x "/" then dropSlashes l' else l
  | [] => []
  end.

Definition trimSlashes (s : string) : string :=
  str (rev (dropSlashes (rev (dropSlashes (chars s))))).

(** [parts.join('/')] *)
Fixpoint join (parts : list string) : string :=
  match parts with
  | [] => ""
  | [p] => p
  | p :: rest => p +:+ "/" +:+ join rest
  end.

(** decimal rendering of a counter inside a template literal *)
Definition ofNat (n : nat) : string := NilEmpty.string_of_uint (Nat.to_uint n).

Definition isHexDigit (c : ascii) : bool :=
  let n := nat_of_ascii c in
  ((48 <=? n)%nat && (n <=? 57)%nat) || ((97 <=? n)%nat && (n <=? 102)%nat).

End Js.

(** ** Branded strings ([types/branded.ts]) *)

Definition FilePath := string.
Definition S3Bucket := string.
Definition S3Key := string.
Definition S3Prefix := string.
Definition Buffer := list Byte.byte.

(** A plain JavaScript [Error] carrying its message. *)
Record JsError := MkError { message : string }.

Definition S3_KEY_MAX_LENGTH : nat := 1024.

(** The [S3Key] constructor: it throws on an empty or over-long value. *)
Definition mkS3Key (value : string) : JsError + S3Key :=
  if negb (Js.truthy value) then inl (MkError "S3 key cannot be empty")
  else if (S3_KEY_MAX_LENGTH <? Js.len value)%nat then
    inl (MkError ("S3 key too long: max " +:+ Js.ofNat S3_KEY_MAX_LENGTH +:+
                  " characters (got " +:+ Js.ofNat (Js.len value) +:+ ")"))
  else inr value.

Definition joinS3Path (parts : list string) : string :=
  Js.join
    (filter (λ p, Is_true (Js.truthy p))
       (map Js.trimSlashes (filter (λ p, Is_true (Js.truthy p)) parts))).

Definition mkS3Prefix (value : string) : S3Prefix :=
  let normalised := Js.trimSlashes value in
  if Js.truthy normalised then normalised +:+ "/" else "".

(** ** Errors ([errors/base.ts]) *)

Inductive ZipError :=
| ZipCorrupt (zipPath : FilePath) (cause : option JsError)
| ZipTooLarge (zipPath : FilePath) (limit : N)
| ZipTooManyEntries (zipPath : FilePath) (limit : N)
| ZipEntryTooLarge (zipPath : FilePath) (entryName : string) (limit : N)
| ZipExtraction (zipPath : FilePath) (cause : option JsError).

Record S3Error := MkS3Error {
  s3err_bucket : S3Bucket;
  s3err_key : S3Key;
  s3err_cause : JsError
}.

Record FileSystemError := MkFsError { fserr_path : FilePath; fserr_operation : string }.

Inductive AppError :=
| AppZip (e : ZipError)
| AppFs (e : FileSystemError).

(** What a [throw] can carry in the modelled code. *)
Inductive Exn :=
| ExnZip (e : ZipError)
| ExnJs (e : JsError).

(** ** The content classifier ([content/parser.ts]) *)

Module Parser.
Section Parser.

(** The regular-expression engine is the host's: [regex_exec p s] is
    [new RegExp(p).exec(s)], the match array (whole match first, then
    the capture groups, an unset group being [None]) or [None] for
    [null]. *)
Variable regex_exec : string → string → option (list (option string)).

Definition regex_test (p s : string) : bool :=
  match regex_exec p s with Some _ => true | None => false end.

Record ContentParser := {
  extractFilename : string → string → string;
  shouldFilter : string → bool
}.

(** [pattern ? new RegExp(pattern) : undefined] *)
Definition compile (pattern : option string) : option string :=
  match pattern with
  | Some p => if Js.truthy p then Some p else None
  | None => None
  end.

(** [match?.[1]], kept only when truthy *)
Definition firstGroup (m : option (list (option string))) : option string :=
  match m with
  | Some groups =>
      match groups !! 1%nat with
      | Some (Some g) => if Js.truthy g then Some g else None
      | _ => None
      end
  | None => None
  end.

Definition createContentParser
    (filenamePattern filterPattern : option string) : ContentParser :=
  let filenameRegex := compile filenamePattern in
  let filterRegex := compile filterPattern in
  {| extractFilename := λ content fallbackName,
       match filenameRegex with
       | None => fallbackName
       | Some re =>
           match firstGroup (regex_exec re content) with
           | Some g => g +:+ ".xml"
           | None => fallbackName
           end
       end;
     shouldFilter := λ content,
       match filterRegex with
       | None => false
       | Some re => regex_test re content
       end |}.

End Parser.
End Parser.

(** ** Streaming extraction ([archive/extractor.ts]) *)

Module Extractor.

Definition DEFAULT_MAX_ENTRIES : N := 10000.
Definition DEFAULT_MAX_ENTRY_SIZE : N := 10 * 1024 * 1024.
Definition DEFAULT_MAX_TOTAL_SIZE : N := 200 * 1024 * 1024.

Record ExtractOptions := {
  maxEntries : option N;
  maxEntrySize : option N;
  maxTotalSize : option N
}.

Definition noOptions : ExtractOptions :=
  {| maxEntries := None; maxEntrySize := None; maxTotalSize := None |}.

Record ExtractedFile := { name : string; content : Buffer }.

Definition size (b : Buffer) : N := N.of_nat (length b).

(** One [yauzl.Entry] together with the data stored for it:
    [uncompressedSize] is the size the central directory declares,
    [streamData] the bytes the entry decompresses to ([None] when its
    stream cannot be opened or inflated). *)
Record Entry := {
  fileName : string;
  uncompressedSize : N;
  streamData : option Buffer
}.

(** What [openReadStream] followed by [buffer(stream)] delivers.  The
    archive is opened with [yauzl.open(zipPath, { lazyEntries: true })],
    which leaves yauzl's validation of entry sizes on: the stream fails
    unless it carries exactly the declared number of bytes.  [None] is a
    stream that could not be opened or that failed while it was read. *)
Definition readStream (e : Entry) : option Buffer :=
  match streamData e with
  | Some data =>
      if (size data =? uncompressedSize e)%N then Some data else None
  | None => None
  end.

(** How the entry listing finishes: the ['end'] or the ['error'] event. *)
Inductive Ending := EndOfArchive | ListingError (err : JsError).

Record ZipFile := { entries : list Entry; ending : Ending }.

(** The value with which an asynchronous generator finishes. *)
Inductive Completion := Done | Threw (e : ZipError).

(** The body of the [while (true)] loop: the items yielded so far come
    first, then the way the generator finishes. *)
Fixpoint readEntries (zipPath : FilePath) (maxEntries maxEntrySize : N)
    (es : list Entry) (ending : Ending) (entryCount : N)
    : list ExtractedFile * Completion :=
  match es with
  | [] =>
      match ending with
      | EndOfArchive => ([], Done)
      | ListingError err => ([], Threw (ZipExtraction zipPath (Some err)))
      end
  | entry :: rest =>
      if Js.endsWith (fileName entry) "/" then
        readEntries zipPath maxEntries maxEntrySize rest ending entryCount
      else
        let entryCount := (entryCount + 1)%N in
        if (maxEntries <? entryCount)%N then
          ([], Threw (ZipTooManyEntries zipPath maxEntries))
        else if (maxEntrySize <? uncompressedSize entry)%N then
          ([], Threw (ZipEntryTooLarge zipPath (fileName entry) maxEntrySize))
        else
          match readStream entry with
          | None => ([], Threw (ZipExtraction zipPath None))
          | Some content =>
              if (maxEntrySize <? size content)%N then
                ([], Threw (ZipEntryTooLarge zipPath (fileName entry) maxEntrySize))
              else
                let '(files, completion) :=
                  readEntries zipPath maxEntries maxEntrySize rest ending entryCount in
                ({| name := fileName entry; content := content |} :: files,
                 completion)
          end
  end.

(** [extractZipStreaming]: [opened] is the outcome of [yauzl.open]. *)
Definition extractZipStreaming (opened : option ZipFile) (zipPath : FilePath)
    (options : ExtractOptions) : list ExtractedFile * Completion :=
  let maxEntries := default DEFAULT_MAX_ENTRIES (maxEntries options) in
  let maxEntrySize := default DEFAULT_MAX_ENTRY_SIZE (maxEntrySize options) in
  match opened with
  | None => ([], Threw (ZipCorrupt zipPath None))
  | Some zipFile =>
      readEntries zipPath maxEntries maxEntrySize
        (entries zipFile) (ending zipFile) 0
  end.

(** The loop of [extractZip] over the streamed items. *)
Fixpoint collect (zipPath : FilePath) (maxTotalSize : N)
    (yielded : list ExtractedFile) (completion : Completion)
    (totalSize : N) (files : list ExtractedFile)
    : ZipError + list ExtractedFile :=
  match yielded with
  | [] =>
      match completion with
      | Done => inr files
      | Threw e => inl e
      end
  | file :: rest =>
      let totalSize := (totalSize + size (content file))%N in
      if (maxTotalSize <? totalSize)%N then inl (ZipTooLarge zipPath maxTotalSize)
      else collect zipPath maxTotalSize rest completion totalSize (files ++ [file])
  end.

Definition extractZip (opened : option ZipFile) (zipPath : FilePath)
    (options : ExtractOptions) : ZipError + list ExtractedFile :=
  let maxTotalSize := default DEFAULT_MAX_TOTAL_SIZE (maxTotalSize options) in
  let '(yielded, completion) := extractZipStreaming opened zipPath options in
  collect zipPath maxTotalSize yielded completion 0 [].

End Extractor.

(** ** Results ([result/index.ts]) *)

Inductive Result (T E : Type) :=
| Ok (value : T)
| Err (error : E).
Arguments Ok {T E} value.
Arguments Err {T E} error.

Definition isOk {T E} (r : Result T E) : bool :=
  match r with Ok _ => true | Err _ => false end.

(** [partitionResults]: one pass, values and errors each in their order. *)
Fixpoint partitionResults {T E} (results : list (Result T E)) : list T * list E :=
  match results with
  | [] => ([], [])
  | Ok value :: rest =>
      let '(successes, failures) := partitionResults rest in
      (value :: successes, failures)
  | Err error :: rest =>
      let '(successes, failures) := partitionResults rest in
      (successes, error :: failures)
  end.

(** ** Batches ([upload/batcher.ts]) *)

Record FileToUpload := { key : S3Key; content : Buffer }.

Record Batch := { prefix : S3Prefix; files : list FileToUpload }.

(** [xs.slice(from, to)] on arrays, for bounds that are not negative *)
Definition sliceList {A} (xs : list A) (from to : nat) : list A :=
  take (to - from) (drop from xs).

(** ** The host and the effects of the program

    Everything the program obtains from outside is a field of [Host]; the
    counters of [World] say how many values have been consumed.  [uuid n]
    is the n-th value returned by [uuid()], [s3_send n] the outcome of the
    n-th [PutObject] ([inr etag] when the store accepts it),
    [remainingTime n] the n-th reading of
    [context.getRemainingTimeInMillis()], [yauzl_open] the archive found at
    a path and [regex_exec] the regular-expression engine. *)

Record Host := {
  uuid : nat → string;
  s3_send : nat → S3Bucket → S3Key → Buffer → JsError + option string;
  remainingTime : nat → Z;
  yauzl_open : FilePath → option Extractor.ZipFile;
  regex_exec : string → string → option (list (option string))
}.

Inductive Route := Deleted | MovedTo (dir : FilePath).

Record World := {
  uuidsDrawn : nat;
  sendsIssued : nat;
  clockReads : nat;
  (** the objects the store holds, latest first *)
  objects : list (S3Key * Buffer);
  (** the batches handed to the uploader, oldest first *)
  batches : list Batch;
  (** the routing requests issued, oldest first *)
  routed : list (FilePath * Route)
}.

Definition initialWorld : World :=
  {| uuidsDrawn := 0; sendsIssued := 0; clockReads := 0;
     objects := []; batches := []; routed := [] |}.

(** *** A state and exception monad

    [Diverges] is the outcome of a loop that never ends. *)

Inductive Res (A : Type) :=
| Val (a : A)
| Exc (e : Exn)
| Diverges.
Arguments Val {A} a.
Arguments Exc {A} e.
Arguments Diverges {A}.

Definition M (S A : Type) : Type := S → Res A * S.

Definition ret {S A} (a : A) : M S A := λ s, (Val a, s).

Definition bind {S A B} (m : M S A) (k : A → M S B) : M S B :=
  λ s, match m s with
       | (Val a, s') => k a s'
       | (Exc e, s') => (Exc e, s')
       | (Diverges, s') => (Diverges, s')
       end.

Definition throw {S A} (e : Exn) : M S A := λ s, (Exc e, s).

Definition diverge {S A} : M S A := λ s, (Diverges, s).

(** [try { body } catch (error) { handler }] *)
Definition tryCatch {S A} (body : M S A) (handler : Exn → M S A) : M S A :=
  λ s, match body s with
       | (Exc e, s') => handler e s'
       | other => other
       end.

Definition get {S} : M S S := λ s, (Val s, s).
Definition modify {S} (f : S → S) : M S unit := λ s, (Val tt, f s).

Declare Scope relay_scope.
Delimit Scope relay_scope with relay.
Notation "x <- m ;; k" := (bind m (λ x, k))
  (at level 100, m at next level, right associativity) : relay_scope.
Notation "m ;;; k" := (bind m (λ _, k))
  (at level 100, right associativity) : relay_scope.
Local Open Scope relay_scope.

(** A constructor that throws, used inside a computation. *)
Definition orThrow {S A} (r : JsError + A) : M S A :=
  match r with
  | inl e => throw (ExnJs e)
  | inr a => ret a
  end.

(** [xs.map(f)] for a callback that may throw *)
Fixpoint mapM {S A B} (f : A → M S B) (xs : list A) : M S (list B) :=
  match xs with
  | [] => ret []
  | x :: rest => y <- f x ;; ys <- mapM f rest ;; ret (y :: ys)
  end.

Section Effects.

Variable host : Host.

(** [uuid()] *)
Definition drawUuid : M World string := λ w,
  (Val (uuid host (uuidsDrawn w)),
   {| uuidsDrawn := S (uuidsDrawn w); sendsIssued := sendsIssued w;
      clockReads := clockReads w; objects := objects w;
      batches := batches w; routed := routed w |}).

(** [context.getRemainingTimeInMillis()] *)
Definition getRemainingTimeInMillis : M World Z := λ w,
  (Val (remainingTime host (clockReads w)),
   {| uuidsDrawn := uuidsDrawn w; sendsIssued := sendsIssued w;
      clockReads := S (clockReads w); objects := objects w;
      batches := batches w; routed := routed w |}).

Definition noteBatch (batch : Batch) : M World unit := λ w,
  (Val tt,
   {| uuidsDrawn := uuidsDrawn w; sendsIssued := sendsIssued w;
      clockReads := clockReads w; objects := objects w;
      batches := batches w ++ [batch]; routed := routed w |}).

Definition noteRoute (path : FilePath) (route : Route) : M World unit := λ w,
  (Val tt,
   {| uuidsDrawn := uuidsDrawn w; sendsIssued := sendsIssued w;
      clockReads := clockReads w; objects := objects w;
      batches := batches w; routed := routed w ++ [(path, route)] |}).

(** ** [createBatches] ([upload/batcher.ts]) *)

Fixpoint createBatchesFrom (fuel : nat) (files : list FileToUpload)
    (prefixBase : S3Prefix) (batchSize : nat) (i : nat) (acc : list Batch)
    : M World (list Batch) :=
  match fuel with
  | O => diverge
  | S fuel' =>
      if (i <? length files)%nat then
        let batchFiles := sliceList files i (i + batchSize) in
        u <- drawUuid ;;
        let prefix := mkS3Prefix (joinS3Path [prefixBase; u]) in
        createBatchesFrom fuel' files prefixBase batchSize (i + batchSize)
          (acc ++ [{| prefix := prefix; files := batchFiles |}])
      else ret acc
  end.

(** The loop [for (i = 0; i < files.length; i += batchSize)] ends within
    [files.length] rounds or never. *)
Definition createBatches (files : list FileToUpload) (prefixBase : S3Prefix)
    (batchSize : nat) : M World (list Batch) :=
  createBatchesFrom (S (length files)) files prefixBase batchSize 0 [].

(** ** The uploader ([upload/uploader.ts]) *)

Definition UPLOAD_CONCURRENCY : nat := 10.

Record UploadSuccess := { up_key : S3Key; etag : option string }.

Inductive BatchUploadResult :=
| FullSuccess (prefix : S3Prefix) (successful : list UploadSuccess)
| PartialSuccess (prefix : S3Prefix) (successful : list UploadSuccess)
    (failed : list S3Error).

Definition successful (r : BatchUploadResult) : list UploadSuccess :=
  match r with
  | FullSuccess _ s => s
  | PartialSuccess _ s _ => s
  end.

Definition failed (r : BatchUploadResult) : list S3Error :=
  match r with
  | FullSuccess _ _ => []
  | PartialSuccess _ _ f => f
  end.

Definition isFullSuccess (r : BatchUploadResult) : bool :=
  match r with FullSuccess _ _ => true | PartialSuccess _ _ _ => false end.

(** [tryUploadFile]: the rejection of the request is turned into a
    value, never thrown. *)
Definition tryUploadFile (bucket : S3Bucket) (key : S3Key) (content : Buffer)
    : M World (Result UploadSuccess S3Error) := λ w,
  match s3_send host (sendsIssued w) bucket key content with
  | inr tag =>
      (Val (Ok {| up_key := key; etag := tag |}),
       {| uuidsDrawn := uuidsDrawn w; sendsIssued := S (sendsIssued w);
          clockReads := clockReads w; objects := (key, content) :: objects w;
          batches := batches w; routed := routed w |})
  | inl cause =>
      (Val (Err (MkS3Error bucket key cause)),
       {| uuidsDrawn := uuidsDrawn w; sendsIssued := S (sendsIssued w);
          clockReads := clockReads w; objects := objects w;
          batches := batches w; routed := routed w |})
  end.

(** [Promise.all(chunk.map(file => tryUploadFile(...).toPromise()))]:
    the requests of one chunk are issued in the order of the chunk. *)
Definition uploadChunk (bucket : S3Bucket) (chunk : list FileToUpload)
    : M World (list (Result UploadSuccess S3Error)) :=
  mapM (λ file, tryUploadFile bucket (key file) (content file)) chunk.

Fixpoint uploadChunksFrom (fuel : nat) (bucket : S3Bucket)
    (files : list FileToUpload) (concurrency : nat) (i : nat)
    (results : list (Result UploadSuccess S3Error))
    : M World (list (Result UploadSuccess S3Error)) :=
  match fuel with
  | O => diverge
  | S fuel' =>
      if (i <? length files)%nat then
        let chunk := sliceList files i (i + concurrency) in
        chunkResults <- uploadChunk bucket chunk ;;
        uploadChunksFrom fuel' bucket files concurrency (i + concurrency)
          (results ++ chunkResults)
      else ret results
  end.

Definition uploadFilesInChunks (bucket : S3Bucket) (files : list FileToUpload)
    (concurrency : nat) : M World (list (Result UploadSuccess S3Error)) :=
  uploadChunksFrom (S (length files)) bucket files concurrency 0 [].

Definition tryUploadBatch (bucket : S3Bucket) (batch : Batch)
    : M World BatchUploadResult :=
  noteBatch batch ;;;
  filesToUpload <-
    mapM (λ file,
            k <- orThrow (mkS3Key (joinS3Path [prefix batch; key file])) ;;
            ret {| key := k; content := content file |})
         (files batch) ;;
  results <- uploadFilesInChunks bucket filesToUpload UPLOAD_CONCURRENCY ;;
  let '(successes, failures) := partitionResults results in
  if (0 <? length failures)%nat then
    ret (PartialSuccess (prefix batch) successes failures)
  else
    ret (FullSuccess (prefix batch) successes).

(** ** Routing ([routing/file_router.ts])

    The requested move or deletion is recorded; whether the file system
    carries it out only decides a span event of the caller. *)
Definition tryRouteFile (sourcePath : FilePath) (success : bool)
    (archiveDir failedDir : FilePath) (deleteOnSuccess : bool) : M World unit :=
  if success then
    if deleteOnSuccess then noteRoute sourcePath Deleted
    else noteRoute sourcePath (MovedTo archiveDir)
  else noteRoute sourcePath (MovedTo failedDir).

End Effects.

(** ** Configuration ([config.ts]) *)

Record Config := {
  sourceDir : FilePath;
  archiveDir : FilePath;
  failedDir : FilePath;
  destinationBucket : S3Bucket;
  s3PrefixBase : S3Prefix;
  batchSize : nat;
  maxFilesPerInvocation : nat;
  timeoutBufferMs : Z;
  filenamePattern : option string;
  filterPattern : option string;
  deleteOnSuccess : bool
}.

(** ** The archive processor and the orchestrator ([index.ts]) *)

Record ZipSuccess := {
  ok_zipPath : FilePath;
  ok_filesExtracted : nat;
  ok_filesUploaded : nat;
  ok_filesFiltered : nat
}.

Record ZipFailure := {
  ko_zipPath : FilePath;
  ko_error : AppError;
  ko_filesExtracted : nat;
  ko_filesUploaded : nat;
  ko_filesFiltered : nat
}.

Record BatchResult := {
  zipsProcessed : nat;
  zipsFailed : nat;
  totalFilesUploaded : nat;
  totalFilesFailed : nat;
  totalFilesFiltered : nat;
  successes : list ZipSuccess;
  failures : list ZipFailure;
  stoppedEarly : bool
}.

Record ZipListResult := { zl_files : list string; oldestAgeMs : Z }.

(** The variables that [tryProcessZipFile] declares and its closure
    [flushBatch] shares. *)
Record Locals := {
  filesExtracted : nat;
  filteredCount : nat;
  filesUploaded : nat;
  filesFailed : nat;
  usedFilenames : gset string;
  currentBatch : list FileToUpload;
  currentBatchPrefix : S3Prefix
}.

Definition initialLocals (prefix : S3Prefix) : Locals :=
  {| filesExtracted := 0; filteredCount := 0; filesUploaded := 0;
     filesFailed := 0; usedFilenames := ∅; currentBatch := [];
     currentBatchPrefix := prefix |}.

(** *** [path.join] of [node:path], on POSIX

    The segments between the slashes of a path. *)
Fixpoint pathSegments (cs current : list ascii) : list string :=
  match cs with
  | [] => [Js.str current]
  | c :: rest =>
      if Ascii.eqb c "/" then Js.str current :: pathSegments rest []
      else pathSegments rest (current ++ [c])
  end.

(** [normalizeString]: empty segments and ["."] are dropped, [".."]
    removes the segment before it; above the start of a relative path it
    is kept, above the root it is dropped.  [kept] holds the segments of
    the result, the latest first. *)
Fixpoint normalizeSegments (allowAboveRoot : bool) (segments kept : list string)
    : list string :=
  match segments with
  | [] => kept
  | segment :: rest =>
      if String.eqb segment "" || String.eqb segment "." then
        normalizeSegments allowAboveRoot rest kept
      else if String.eqb segment ".." then
        match kept with
        | top :: below =>
            if String.eqb top ".." then
              normalizeSegments allowAboveRoot rest
                (if allowAboveRoot then ".." :: kept else kept)
            else normalizeSegments allowAboveRoot rest below
        | [] =>
            normalizeSegments allowAboveRoot rest
              (if allowAboveRoot then [".."] else [])
        end
      else normalizeSegments allowAboveRoot rest (segment :: kept)
  end.

(** [path.normalize(path)] *)
Definition pathNormalize (path : string) : string :=
  if negb (Js.truthy path) then "."
  else
    let isAbsolute := Js.startsWith path "/" in
    let trailingSeparator := Js.endsWith path "/" in
    let normalized :=
      Js.join (rev (normalizeSegments (negb isAbsolute)
                      (pathSegments (Js.chars path) []) [])) in
    if negb (Js.truthy normalized) then
      if isAbsolute then "/" else if trailingSeparator then "./" else "."
    else
      let normalized :=
        if trailingSeparator then normalized +:+ "/" else normalized in
      if isAbsolute then "/" +:+ normalized else normalized.

(** [path.join(dir, file)]: the arguments that are not empty, joined by a
    slash and normalised. *)
Definition pathJoin (dir file : string) : FilePath :=
  let joined :=
    if Js.truthy dir then
      if Js.truthy file then dir +:+ "/" +:+ file else dir
    else file in
  if negb (Js.truthy joined) then "." else pathNormalize joined.

(** The extension and the stem that the renaming of a duplicate uses. *)
Definition extOf (filename : string) : string :=
  if Js.includes filename "." then
    Js.sliceFrom filename (Js.lastIndexOf filename ".")
  else "".

Definition baseOf (filename : string) : string :=
  if Js.includes filename "." then
    Js.slice filename 0 (Js.lastIndexOf filename ".")
  else filename.

(** [`${base}-${uuid().slice(0, 8)}${ext}`] *)
Definition disambiguate (filename u : string) : string :=
  baseOf filename +:+ "-" +:+ Js.slice u 0 8 +:+ extOf filename.

Section Processor.

Variable host : Host.

Definition Attempt : Type := Locals * World.

(** A computation on the world, run inside an attempt. *)
Definition inWorld {A} (m : M World A) : M Attempt A := λ s,
  let '(r, w) := m (snd s) in (r, (fst s, w)).

Definition locals : M Attempt Locals := λ s, (Val (fst s), s).

Definition update (f : Locals → Locals) : M Attempt unit :=
  λ s, (Val tt, (f (fst s), snd s)).

Definition countExtracted (l : Locals) : Locals :=
  {| filesExtracted := S (filesExtracted l); filteredCount := filteredCount l;
     filesUploaded := filesUploaded l; filesFailed := filesFailed l;
     usedFilenames := usedFilenames l; currentBatch := currentBatch l;
     currentBatchPrefix := currentBatchPrefix l |}.

Definition countFiltered (l : Locals) : Locals :=
  {| filesExtracted := filesExtracted l; filteredCount := S (filteredCount l);
     filesUploaded := filesUploaded l; filesFailed := filesFailed l;
     usedFilenames := usedFilenames l; currentBatch := currentBatch l;
     currentBatchPrefix := currentBatchPrefix l |}.

Definition countUploads (r : BatchUploadResult) (l : Locals) : Locals :=
  {| filesExtracted := filesExtracted l; filteredCount := filteredCount l;
     filesUploaded := filesUploaded l + length (successful r);
     filesFailed :=
       (if isFullSuccess r then filesFailed l
        else filesFailed l + length (failed r));
     usedFilenames := usedFilenames l; currentBatch := currentBatch l;
     currentBatchPrefix := currentBatchPrefix l |}.

Definition resetBatch (prefix : S3Prefix) (l : Locals) : Locals :=
  {| filesExtracted := filesExtracted l; filteredCount := filteredCount l;
     filesUploaded := filesUploaded l; filesFailed := filesFailed l;
     usedFilenames := usedFilenames l; currentBatch := [];
     currentBatchPrefix := prefix |}.

Definition addFilename (filename : string) (l : Locals) : Locals :=
  {| filesExtracted := filesExtracted l; filteredCount := filteredCount l;
     filesUploaded := filesUploaded l; filesFailed := filesFailed l;
     usedFilenames := usedFilenames l ∪ {[ filename ]};
     currentBatch := currentBatch l;
     currentBatchPrefix := currentBatchPrefix l |}.

Definition pushFile (file : FileToUpload) (l : Locals) : Locals :=
  {| filesExtracted := filesExtracted l; filteredCount := filteredCount l;
     filesUploaded := filesUploaded l; filesFailed := filesFailed l;
     usedFilenames := usedFilenames l;
     currentBatch := currentBatch l ++ [file];
     currentBatchPrefix := currentBatchPrefix l |}.

Definition freshPrefix (cfg : Config) : M World S3Prefix :=
  u <- drawUuid host ;;
  ret (mkS3Prefix (joinS3Path [s3PrefixBase cfg; u])).

Definition flushBatch (cfg : Config) : M Attempt unit :=
  l <- locals ;;
  if (length (currentBatch l) =? 0)%nat then ret tt
  else
    let batch := {| prefix := currentBatchPrefix l; files := currentBatch l |} in
    result <- inWorld (tryUploadBatch host (destinationBucket cfg) batch) ;;
    update (countUploads result) ;;;
    prefix <- inWorld (freshPrefix cfg) ;;
    update (resetBatch prefix).

(** Lines 189-198: the name of a kept item, renamed when already used. *)
Definition resolveFilename (parser : Parser.ContentParser)
    (content : string) (file : Extractor.ExtractedFile) : M Attempt string :=
  let filename := Parser.extractFilename parser content (Extractor.name file) in
  l <- locals ;;
  filename <-
    (if bool_decide (filename ∈ usedFilenames l) then
       u <- inWorld (drawUuid host) ;;
       ret (disambiguate filename u)
     else ret filename) ;;
  update (addFilename filename) ;;;
  ret filename.

(** The body of the [for await] loop. *)
Definition processFile (cfg : Config) (parser : Parser.ContentParser)
    (file : Extractor.ExtractedFile) : M Attempt unit :=
  update countExtracted ;;;
  let content := string_of_list_byte (Extractor.content file) in
  if Parser.shouldFilter parser content then update countFiltered
  else
    filename <- resolveFilename parser content file ;;
    k <- orThrow (mkS3Key filename) ;;
    update (pushFile {| key := k; content := Extractor.content file |}) ;;;
    l <- locals ;;
    if (batchSize cfg <=? length (currentBatch l))%nat then flushBatch cfg
    else ret tt.

(** [for await (const file of generator) body]: the items are consumed
    one by one; when the body throws, the generator is closed; when the
    generator throws, the error surfaces after its last item. *)
Fixpoint forAwait {S} (yielded : list Extractor.ExtractedFile)
    (completion : Extractor.Completion)
    (body : Extractor.ExtractedFile → M S unit) : M S unit :=
  match yielded with
  | [] =>
      match completion with
      | Extractor.Done => ret tt
      | Extractor.Threw e => throw (ExnZip e)
      end
  | file :: rest => body file ;;; forAwait rest completion body
  end.

Definition forAwaitOf {S} (g : list Extractor.ExtractedFile * Extractor.Completion)
    (body : Extractor.ExtractedFile → M S unit) : M S unit :=
  forAwait (fst g) (snd g) body.

Definition failureOf (zipPath : FilePath) (error : ZipError) (l : Locals)
    : ZipFailure :=
  {| ko_zipPath := zipPath; ko_error := AppZip error;
     ko_filesExtracted := filesExtracted l;
     ko_filesUploaded := filesUploaded l;
     ko_filesFiltered := filteredCount l |}.

Definition successOf (zipPath : FilePath) (l : Locals) : ZipSuccess :=
  {| ok_zipPath := zipPath;
     ok_filesExtracted := filesExtracted l;
     ok_filesUploaded := filesUploaded l;
     ok_filesFiltered := filteredCount l |}.

Definition uploadFailureMessage (filesFailed : nat) : JsError :=
  MkError (Js.ofNat filesFailed +:+ " file(s) failed to upload").

(** The [try] block of [tryProcessZipFile]. *)
Definition processAttempt (zipPath : FilePath) (cfg : Config)
    (parser : Parser.ContentParser) : M Attempt (Result ZipSuccess ZipFailure) :=
  forAwaitOf
    (Extractor.extractZipStreaming (yauzl_open host zipPath) zipPath
       Extractor.noOptions)
    (processFile cfg parser) ;;;
  flushBatch cfg ;;;
  l <- locals ;;
  let allSucceeded := (filesFailed l =? 0)%nat && (0 <? filesUploaded l)%nat in
  inWorld (tryRouteFile zipPath allSucceeded (archiveDir cfg) (failedDir cfg)
             (deleteOnSuccess cfg)) ;;;
  if (0 <? filesFailed l)%nat then
    ret (Err (failureOf zipPath
                (ZipExtraction zipPath (Some (uploadFailureMessage (filesFailed l))))
                l))
  else ret (Ok (successOf zipPath l)).

(** The [catch] block of [tryProcessZipFile]. *)
Definition recoverAttempt (zipPath : FilePath) (cfg : Config) (error : Exn)
    : M Attempt (Result ZipSuccess ZipFailure) :=
  let zipError :=
    match error with
    | ExnZip e => e
    | ExnJs e => ZipExtraction zipPath (Some e)
    end in
  inWorld (tryRouteFile zipPath false (archiveDir cfg) (failedDir cfg)
             (deleteOnSuccess cfg)) ;;;
  l <- locals ;;
  ret (Err (failureOf zipPath zipError l)).

(** The locals live as long as one call. *)
Definition withLocals {A} (l0 : Locals) (m : M Attempt A) : M World A := λ w,
  let '(r, s) := m (l0, w) in (r, snd s).

Definition tryProcessZipFile (zipPath : FilePath) (cfg : Config)
    (parser : Parser.ContentParser) : M World (Result ZipSuccess ZipFailure) :=
  prefix <- freshPrefix cfg ;;
  withLocals (initialLocals prefix)
    (tryCatch (processAttempt zipPath cfg parser) (recoverAttempt zipPath cfg)).

(** The loop of [processZips] over the archives. *)
Fixpoint processEach (cfg : Config) (parser : Parser.ContentParser)
    (zipFiles : list string) (successes : list ZipSuccess)
    (failures : list ZipFailure)
    : M World (list ZipSuccess * list ZipFailure * bool) :=
  match zipFiles with
  | [] => ret (successes, failures, false)
  | zipFile :: rest =>
      remaining <- getRemainingTimeInMillis host ;;
      if (remaining <? timeoutBufferMs cfg)%Z then ret (successes, failures, true)
      else
        let zipPath := pathJoin (sourceDir cfg) zipFile in
        result <- tryProcessZipFile zipPath cfg parser ;;
        match result with
        | Ok value => processEach cfg parser rest (successes ++ [value]) failures
        | Err error => processEach cfg parser rest successes (failures ++ [error])
        end
  end.

Definition sumOf {A} (f : A → nat) (xs : list A) : nat :=
  foldl (λ sum x, sum + f x) 0 xs.

(** [processZips]: [listResult] is what [tryListZipFiles] returned. *)
Definition processZips (cfg : Config)
    (listResult : Result ZipListResult FileSystemError) : M World BatchResult :=
  let parser :=
    Parser.createContentParser (regex_exec host)
      (filenamePattern cfg) (filterPattern cfg) in
  match listResult with
  | Err error =>
      ret {| zipsProcessed := 0; zipsFailed := 1; totalFilesUploaded := 0;
             totalFilesFailed := 0; totalFilesFiltered := 0;
             successes := [];
             failures :=
               [{| ko_zipPath := sourceDir cfg; ko_error := AppFs error;
                   ko_filesExtracted := 0; ko_filesUploaded := 0;
                   ko_filesFiltered := 0 |}];
             stoppedEarly := false |}
  | Ok listing =>
      let allZipFiles := zl_files listing in
      let zipFiles := sliceList allZipFiles 0 (maxFilesPerInvocation cfg) in
      if (length zipFiles =? 0)%nat then
        ret {| zipsProcessed := 0; zipsFailed := 0; totalFilesUploaded := 0;
               totalFilesFailed := 0; totalFilesFiltered := 0;
               successes := []; failures := []; stoppedEarly := false |}
      else
        outcome <- processEach cfg parser zipFiles [] [] ;;
        let '(successes, failures, stoppedEarly) := outcome in
        let totalFilesUploaded :=
          sumOf ok_filesUploaded successes + sumOf ko_filesUploaded failures in
        let totalFilesFiltered :=
          sumOf ok_filesFiltered successes + sumOf ko_filesFiltered failures in
        ret {| zipsProcessed := length successes;
               zipsFailed := length failures;
               totalFilesUploaded := totalFilesUploaded;
               totalFilesFailed := 0;
               totalFilesFiltered := totalFilesFiltered;
               successes := successes;
               failures := failures;
               stoppedEarly := stoppedEarly |}
  end.

End Processor.

(** ** Sample hosts and archives

    Concrete inputs on which the definitions above are run. *)

Definition toUpload (k : S3Key) (c : Buffer) : FileToUpload :=
  {| key := k; content := c |}.

Module Samples.
Import Extractor.

Definition hexDigit (d : nat) : ascii :=
  ascii_of_nat (if (d <? 10)%nat then 48 + d else 87 + d).

(** eight hexadecimal digits of [n], most significant first *)
Definition hex8 (n : nat) : string :=
  Js.str (map (λ i, hexDigit (N.to_nat ((N.of_nat n / 16 ^ i) mod 16)%N))
            [7; 6; 5; 4; 3; 2; 1; 0]%N).

(** a version-4 identifier whose first group counts the draws *)
Definition uuidOf (n : nat) : string := hex8 n +:+ "-0000-4000-8000-000000000000".

Definition accept : nat → S3Bucket → S3Key → Buffer → JsError + option string :=
  λ _ _ _ _, inr (Some "etag").

Definition rejectFirst : nat → S3Bucket → S3Key → Buffer → JsError + option string :=
  λ n _ _ _, if (n =? 0)%nat then inl (MkError "Access Denied") else inr (Some "etag").

(** the matches of [<id>(.*?)</id>] and of the literal [<skip>] on the
    sample contents *)
Definition sampleRegex (p s : string) : option (list (option string)) :=
  if String.eqb p "<id>(.*?)</id>" then
    if String.eqb s "<id>a</id>" then Some [Some "<id>a</id>"; Some "a"]
    else if String.eqb s "<id></id>" then Some [Some "<id></id>"; Some ""]
    else None
  else if String.eqb p "<skip>" then
    if String.eqb s "<skip>" then Some [Some "<skip>"] else None
  else None.

Definition bytes (s : string) : Buffer := list_byte_of_string s.

Definition fileEntry (n : string) (body : string) : Entry :=
  {| fileName := n; uncompressedSize := size (bytes body);
     streamData := Some (bytes body) |}.

Definition archiveOf (es : list Entry) : ZipFile :=
  {| entries := es; ending := EndOfArchive |}.

(** the files found under [/input] *)
Definition disk (path : FilePath) : option ZipFile :=
  if String.eqb path "/input/empty.zip" then Some (archiveOf [])
  else if String.eqb path "/input/two.zip" then
    Some (archiveOf [fileEntry "txn-1.xml" "<txn>1</txn>";
                     fileEntry "txn-2.xml" "<txn>2</txn>"])
  else if String.eqb path "/input/same.zip" then
    Some (archiveOf [fileEntry "a.xml" "<id>a</id>";
                     fileEntry "b.xml" "<id>a</id>";
                     fileEntry "notes" "<id></id>";
                     fileEntry "notes" "<id></id>"])
  else if String.eqb path "/input/skipped.zip" then
    Some (archiveOf [fileEntry "s.xml" "<skip>"])
  else if String.eqb path "/input/five.zip" then
    Some (archiveOf [fileEntry "1.xml" "1"; fileEntry "dir/" "";
                     fileEntry "2.xml" "2"; fileEntry "3.xml" "3";
                     fileEntry "4.xml" "4"; fileEntry "5.xml" "5"])
  else None.

Definition sampleHost : Host :=
  {| uuid := uuidOf; s3_send := accept; remainingTime := λ _, 300000%Z;
     yauzl_open := disk; regex_exec := sampleRegex |}.

Definition flakyHost : Host :=
  {| uuid := uuidOf; s3_send := rejectFirst; remainingTime := λ _, 300000%Z;
     yauzl_open := disk; regex_exec := sampleRegex |}.

(** the clock of a host that runs out of time at its third reading *)
Definition hurriedHost : Host :=
  {| uuid := uuidOf; s3_send := accept;
     remainingTime := λ n, if (n <? 2)%nat then 60000%Z else 20000%Z;
     yauzl_open := disk; regex_exec := sampleRegex |}.

Definition sampleConfig : Config :=
  {| sourceDir := "/input"; archiveDir := "/archived"; failedDir := "/failed";
     destinationBucket := "test-bucket"; s3PrefixBase := "";
     batchSize := 100; maxFilesPerInvocation := 1000;
     timeoutBufferMs := 30000; filenamePattern := None;
     filterPattern := None; deleteOnSuccess := false |}.

Definition patternConfig : Config :=
  {| sourceDir := "/input"; archiveDir := "/archived"; failedDir := "/failed";
     destinationBucket := "test-bucket"; s3PrefixBase := "uploads";
     batchSize := 2; maxFilesPerInvocation := 1000;
     timeoutBufferMs := 30000; filenamePattern := Some "<id>(.*?)</id>";
     filterPattern := Some "<skip>"; deleteOnSuccess := false |}.

Definition parserOf (h : Host) (cfg : Config) : Parser.ContentParser :=
  Parser.createContentParser (regex_exec h) (filenamePattern cfg) (filterPattern cfg).

(** an entry of exactly the greatest size a single entry may have *)
Definition fullEntry : Buffer :=
  replicate (N.to_nat DEFAULT_MAX_ENTRY_SIZE) x00.





Definition fiveFiles : list FileToUpload :=
  map (λ n, toUpload (n +:+ ".xml") (bytes n)) ["1"; "2"; "3"; "4"; "5"].

Definition fourArchives : ZipListResult :=
  {| zl_files := ["two.zip"; "empty.zip"; "five.zip"; "same.zip"];
     oldestAgeMs := 0 |}.

(** twenty-one entries that all hold the buffer [b] *)
Definition bombEntries (b : Buffer) : list Entry :=
  map (λ i, {| fileName := "part-" +:+ Js.ofNat i +:+ ".xml";
               uncompressedSize := size b; streamData := Some b |})
      (seq 0 21).

Definition bombDisk (b : Buffer) (path : FilePath) : option ZipFile :=
  if String.eqb path "/input/bomb.zip" then Some (archiveOf (bombEntries b))
  else None.

Definition bombHost (b : Buffer) : Host :=
  {| uuid := uuidOf; s3_send := accept; remainingTime := λ _, 300000%Z;
     yauzl_open := bombDisk b; regex_exec := sampleRegex |}.

End Samples.

(** * Properties *)

(** ** The content classifier *)

Module ParserFacts.
Import Parser.

(** A pattern counts as configured when the option holds a string that is
    not empty: [createContentParser] tests the pattern for truthiness. *)
Definition configured (pattern : option string) : Prop :=
  ∃ p, pattern = Some p ∧ p ≠ "".

Lemma truthy_true s : Js.truthy s = true ↔ s ≠ "".
Proof.
  unfold Js.truthy. rewrite negb_true_iff.
  destruct (String.eqb_spec s ""); split; congruence.
Qed.

Lemma truthy_false s : Js.truthy s = false ↔ s = "".
Proof.
  unfold Js.truthy. rewrite negb_false_iff.
  destruct (String.eqb_spec s ""); split; congruence.
Qed.

Lemma compile_configured pattern p :
  pattern = Some p → p ≠ "" → compile pattern = Some p.
Proof.
  intros -> Hp. simpl. apply truthy_true in Hp. by rewrite Hp.
Qed.

Lemma compile_not_configured pattern :
  ¬ configured pattern → compile pattern = None.
Proof.
  intros Hn. destruct pattern as [p|]; simpl; [|done].
  destruct (Js.truthy p) eqn:Hp; [|done].
  exfalso. apply Hn. exists p. split; [done|]. by apply truthy_true.
Qed.

(** The first capture group of the naming pattern on a content, when the
    pattern matches and the group is set and not empty. *)
Definition captured (regex_exec : string → string → option (list (option string)))
    (p content g : string) : Prop :=
  ∃ groups, regex_exec p content = Some groups ∧
            groups !! 1%nat = Some (Some g) ∧ g ≠ "".

Lemma firstGroup_captured regex_exec p content g :
  captured regex_exec p content g →
  firstGroup (regex_exec p content) = Some g.
Proof.
  intros (groups & -> & Hg & Hne). simpl. rewrite Hg.
  apply truthy_true in Hne. by rewrite Hne.
Qed.

Lemma firstGroup_none regex_exec p content :
  (∀ g, ¬ captured regex_exec p content g) →
  firstGroup (regex_exec p content) = None.
Proof.
  intros Hn. unfold firstGroup.
  destruct (regex_exec p content) as [groups|] eqn:Hm; [|done].
  destruct (groups !! 1%nat) as [[g|]|] eqn:Hg; try done.
  destruct (Js.truthy g) eqn:Ht; [|done].
  exfalso. apply (Hn g). exists groups. repeat split; try done.
  by apply truthy_true.
Qed.

(** C9. The classifier depends on the patterns and the content only.
    Without a configured filter pattern [shouldFilter] answers [false] on
    every content.  With a configured naming pattern that matches the
    content with a first capture group that is set and not empty, the
    name is that group followed by [".xml"].  In every other case (no
    naming pattern configured, no match, or no such group) the name is
    the original entry name, unchanged. *)
Theorem classifier_contract
    (regex_exec : string → string → option (list (option string)))
    (filenamePattern filterPattern : option string) :
  let parser := createContentParser regex_exec filenamePattern filterPattern in
  (¬ configured filterPattern → ∀ content, shouldFilter parser content = false) ∧
  (∀ p content g fallbackName,
      filenamePattern = Some p → p ≠ "" →
      captured regex_exec p content g →
      extractFilename parser content fallbackName = g +:+ ".xml") ∧
  (∀ content fallbackName,
      (¬ configured filenamePattern ∨
       ∃ p, filenamePattern = Some p ∧ ∀ g, ¬ captured regex_exec p content g) →
      extractFilename parser content fallbackName = fallbackName).
Proof.
  intros parser. subst parser. unfold createContentParser. simpl.
  split; [|split].
  - intros Hn content. by rewrite (compile_not_configured _ Hn).
  - intros p content g fallbackName Hp Hne Hc.
    rewrite (compile_configured _ _ Hp Hne).
    by rewrite (firstGroup_captured _ _ _ _ Hc).
  - intros content fallbackName [Hn | (p & -> & Hn)].
    + by rewrite (compile_not_configured _ Hn).
    + simpl. destruct (Js.truthy p); [|done].
      by rewrite (firstGroup_none _ _ _ Hn).
Qed.

End ParserFacts.

(** ** Streaming extraction *)

Module ExtractorFacts.
Import Extractor.

Definition isDirectory (e : Entry) : bool := Js.endsWith (fileName e) "/".


Definition limitEntries (options : ExtractOptions) : N :=
  default DEFAULT_MAX_ENTRIES (maxEntries options).

Definition limitEntrySize (options : ExtractOptions) : N :=
  default DEFAULT_MAX_ENTRY_SIZE (maxEntrySize options).

Definition totalSize (files : list ExtractedFile) : N :=
  foldr (λ f acc, (size (content f) + acc)%N) 0%N files.

(** A stream that is read to its end has delivered the data of its
    entry, and as many bytes as the header declares. *)
Lemma readStream_declared e c :
  readStream e = Some c → streamData e = Some c ∧ size c = uncompressedSize e.
Proof.
  unfold readStream. destruct (streamData e) as [data|]; [|done].
  destruct (N.eqb_spec (size data) (uncompressedSize e)); [|done].
  by intros [= <-].
Qed.

Lemma readStream_honest n c :
  readStream {| fileName := n; uncompressedSize := size c; streamData := Some c |} =
  Some c.
Proof. unfold readStream. cbn [streamData uncompressedSize]. by rewrite N.eqb_refl. Qed.


Section Reading.

Variables (zipPath : FilePath) (maxE maxS : N).








(** Entries that respect both limits, header and content alike, are all
    yielded, whatever their sizes add up to. *)
Lemma readEntries_all es n :
  Forall (λ e, isDirectory e = false ∧ (uncompressedSize e ≤ maxS)%N ∧
               ∃ c, readStream e = Some c ∧ (size c ≤ maxS)%N) es →
  (n + N.of_nat (length es) ≤ maxE)%N →
  readEntries zipPath maxE maxS es EndOfArchive n =
    (omap (λ e, (λ c, {| name := fileName e; content := c |}) <$> readStream e) es,
     Done).
Proof.
  revert n. induction es as [|e es IH]; intros n Hall Hn; [done|].
  inversion Hall as [|? ? (Hd & Hdecl & c & Hc & Hsize) Hrest]; subst.
  unfold isDirectory in Hd. simpl in *. rewrite Hd.
  destruct (N.ltb_spec maxE (n + 1)); [lia|].
  destruct (N.ltb_spec maxS (uncompressedSize e)); [lia|].
  rewrite Hc. destruct (N.ltb_spec maxS (size c)); [lia|].
  rewrite IH; [done|done|lia].
Qed.

End Reading.



End ExtractorFacts.

(** ** The uploader *)

Module UploaderFacts.

(** What happens outside the store's requests is left alone. *)
Definition sendsOnly (w w' : World) : Prop :=
  uuidsDrawn w' = uuidsDrawn w ∧ clockReads w' = clockReads w ∧
  batches w' = batches w ∧ routed w' = routed w.

Lemma sendsOnly_refl w : sendsOnly w w.
Proof. by repeat split. Qed.

Lemma sendsOnly_trans w1 w2 w3 : sendsOnly w1 w2 → sendsOnly w2 w3 → sendsOnly w1 w3.
Proof. unfold sendsOnly. intros (?&?&?&?) (?&?&?&?). repeat split; congruence. Qed.

(** The destination of a file of a batch. *)
Definition destinationOf (batch : Batch) (file : FileToUpload) : string :=
  joinS3Path [prefix batch; key file].

Definition validDestination (batch : Batch) (file : FileToUpload) : Prop :=
  mkS3Key (destinationOf batch file) = inr (destinationOf batch file).


Lemma mkS3Key_value value k : mkS3Key value = inr k → k = value.
Proof.
  unfold mkS3Key. destruct (negb (Js.truthy value)); [done|].
  destruct (S3_KEY_MAX_LENGTH <? Js.len value)%nat; [done|]. congruence.
Qed.

Lemma partitionResults_length {T E} (results : list (Result T E)) :
  length (fst (partitionResults results)) + length (snd (partitionResults results)) =
  length results.
Proof.
  induction results as [|[v|e] rest IH]; simpl; [done| |];
    destruct (partitionResults rest); simpl in *; lia.
Qed.


Section Uploads.

Variable host : Host.

(** The outcome of the request for [file] when it is the n-th one. *)
Definition outcomeOf (n : nat) (bucket : S3Bucket) (file : FileToUpload)
    : Result UploadSuccess S3Error :=
  match s3_send host n bucket (key file) (content file) with
  | inr tag => Ok {| up_key := key file; etag := tag |}
  | inl cause => Err (MkS3Error bucket (key file) cause)
  end.

Fixpoint outcomes (n : nat) (bucket : S3Bucket) (fs : list FileToUpload)
    : list (Result UploadSuccess S3Error) :=
  match fs with
  | [] => []
  | f :: rest => outcomeOf n bucket f :: outcomes (S n) bucket rest
  end.

Lemma outcomes_length n bucket fs : length (outcomes n bucket fs) = length fs.
Proof. revert n. induction fs; intros; simpl; [done|]. by rewrite IHfs. Qed.

Lemma outcomes_app n bucket fs gs :
  outcomes n bucket (fs ++ gs) =
  outcomes n bucket fs ++ outcomes (n + length fs) bucket gs.
Proof.
  revert n. induction fs as [|f fs IH]; intros n; simpl.
  - by rewrite Nat.add_0_r.
  - rewrite IH. do 3 f_equal. lia.
Qed.


Lemma tryUploadFile_run bucket k c w :
  ∃ w', tryUploadFile host bucket k c w =
          (Val (outcomeOf (sendsIssued w) bucket {| key := k; content := c |}), w') ∧
        sendsIssued w' = S (sendsIssued w) ∧ sendsOnly w w'.
Proof.
  unfold tryUploadFile, outcomeOf. simpl.
  destruct (s3_send host (sendsIssued w) bucket k c);
    eexists; (split; [reflexivity|]); by repeat split.
Qed.

Lemma uploadChunk_run bucket chunk w :
  ∃ w', uploadChunk host bucket chunk w =
          (Val (outcomes (sendsIssued w) bucket chunk), w') ∧
        sendsIssued w' = sendsIssued w + length chunk ∧ sendsOnly w w'.
Proof.
  revert w. induction chunk as [|f chunk IH]; intros w.
  { exists w. repeat split. simpl. lia. }
  destruct (tryUploadFile_run bucket (key f) (content f) w) as (w1 & H1 & Hn1 & Hf1).
  destruct (IH w1) as (w2 & H2 & Hn2 & Hf2).
  exists w2. split; [|split].
  - unfold uploadChunk in *. simpl. unfold bind at 1. rewrite H1.
    unfold bind at 1. rewrite H2. unfold ret. rewrite Hn1.
    by destruct f.
  - simpl. lia.
  - by eapply sendsOnly_trans.
Qed.

(** The loop over the chunks issues the requests of all remaining files,
    in their order, once its step is positive. *)
Lemma uploadChunksFrom_run bucket fs concurrency fuel i results w :
  0 < concurrency → length fs - i < fuel →
  ∃ w', uploadChunksFrom host fuel bucket fs concurrency i results w =
          (Val (results ++ outcomes (sendsIssued w) bucket (drop i fs)), w') ∧
        sendsIssued w' = sendsIssued w + length (drop i fs) ∧ sendsOnly w w'.
Proof.
  intros Hc. revert i results w.
  induction fuel as [|fuel IH]; intros i results w Hfuel; simpl; [lia|].
  destruct (Nat.ltb_spec i (length fs)) as [Hlt|Hge].
  - unfold sliceList. replace (i + concurrency - i) with concurrency by lia.
    destruct (uploadChunk_run bucket (take concurrency (drop i fs)) w)
      as (w1 & H1 & Hn1 & Hf1).
    destruct (IH (i + concurrency) (results ++ outcomes (sendsIssued w) bucket
                                      (take concurrency (drop i fs))) w1)
      as (w2 & H2 & Hn2 & Hf2); [lia|].
    exists w2. split; [|split].
    + unfold bind. rewrite H1, H2. f_equal. f_equal.
      rewrite <- app_assoc. f_equal.
      rewrite <- (take_drop concurrency (drop i fs)) at 2.
      rewrite outcomes_app, Hn1, drop_drop. done.
    + rewrite Hn2, Hn1.
      rewrite <- (take_drop concurrency (drop i fs)) at 2.
      rewrite length_app, drop_drop. lia.
    + by eapply sendsOnly_trans.
  - exists w. rewrite drop_ge by lia. simpl. rewrite app_nil_r.
    repeat split. lia.
Qed.

Lemma uploadFilesInChunks_run bucket fs w :
  ∃ w', uploadFilesInChunks host bucket fs UPLOAD_CONCURRENCY w =
          (Val (outcomes (sendsIssued w) bucket fs), w') ∧
        sendsIssued w' = sendsIssued w + length fs ∧ sendsOnly w w'.
Proof.
  unfold uploadFilesInChunks.
  destruct (uploadChunksFrom_run bucket fs UPLOAD_CONCURRENCY (S (length fs)) 0 [] w)
    as (w' & H & Hn & Hf); [unfold UPLOAD_CONCURRENCY; lia|lia|].
  exists w'. by rewrite drop_0 in *.
Qed.

(** The files of a batch under their destination keys. *)
Definition addressed (batch : Batch) : list FileToUpload :=
  map (λ f, {| key := destinationOf batch f; content := content f |}) (files batch).

Lemma address_run batch (fs : list FileToUpload) (w : World) :
  Forall (validDestination batch) fs →
  mapM (λ file,
          k <- orThrow (mkS3Key (joinS3Path [prefix batch; key file])) ;;
          ret {| key := k; content := content file |}) fs w =
  (Val (map (λ f, {| key := destinationOf batch f; content := content f |}) fs), w).
Proof.
  induction 1 as [|f fs Hf _ IH]; [done|].
  simpl. unfold bind at 1. unfold bind at 1.
  unfold validDestination, destinationOf in Hf. rewrite Hf. simpl.
  unfold bind at 1. rewrite IH. done.
Qed.

(** An address that is refused makes the whole call throw, before any
    request is issued. *)
Lemma address_throws batch (fs : list FileToUpload) (w : World) :
  ¬ Forall (validDestination batch) fs →
  ∃ e, mapM (λ file,
          k <- orThrow (mkS3Key (joinS3Path [prefix batch; key file])) ;;
          ret {| key := k; content := content file |}) fs w = (Exc e, w).
Proof.
  induction fs as [|f fs IH]; intros Hn.
  { exfalso. apply Hn. constructor. }
  simpl. unfold bind at 1. unfold bind at 1.
  destruct (mkS3Key (joinS3Path [prefix batch; key f])) as [err|k] eqn:Hk; simpl.
  { by eexists. }
  unfold bind at 1.
  destruct IH as [e He].
  { intros Hall. apply Hn. constructor; [|done].
    unfold validDestination, destinationOf. rewrite Hk.
    by rewrite (mkS3Key_value _ _ Hk). }
  rewrite He. by eexists.
Qed.

Definition noted (batch : Batch) (w : World) : World :=
  snd (noteBatch batch w).

Lemma tryUploadBatch_run bucket batch w :
  Forall (validDestination batch) (files batch) →
  ∃ w', tryUploadBatch host bucket batch w =
          (Val (let results := outcomes (sendsIssued w) bucket (addressed batch) in
                if (0 <? length (snd (partitionResults results)))%nat then
                  PartialSuccess (prefix batch) (fst (partitionResults results))
                    (snd (partitionResults results))
                else FullSuccess (prefix batch) (fst (partitionResults results))),
           w') ∧
        sendsIssued w' = sendsIssued w + length (files batch) ∧
        sendsOnly (noted batch w) w'.
Proof.
  intros Hvalid. unfold tryUploadBatch.
  unfold bind at 1. simpl. unfold bind at 1.
  rewrite (address_run batch (files batch) _ Hvalid).
  unfold bind at 1.
  destruct (uploadFilesInChunks_run bucket (addressed batch) (noted batch w))
    as (w' & H & Hn & Hf).
  unfold addressed, noted in *. simpl in *. rewrite H.
  exists w'. split; [|split; [|done]].
  - destruct (partitionResults _) as [successes failures]. simpl.
    by destruct (0 <? length failures)%nat.
  - rewrite Hn, length_map. done.
Qed.

Lemma tryUploadBatch_counts bucket batch w :
  Forall (validDestination batch) (files batch) →
  ∃ r w', tryUploadBatch host bucket batch w = (Val r, w') ∧
          length (successful r) + length (failed r) = length (files batch) ∧
          sendsOnly (noted batch w) w'.
Proof.
  intros Hvalid.
  destruct (tryUploadBatch_run bucket batch w Hvalid) as (w' & H & _ & Hf).
  eexists _, w'. split; [exact H|]. split; [|done]. cbv zeta.
  pose proof (partitionResults_length
                (outcomes (sendsIssued w) bucket (addressed batch))) as Hlen.
  rewrite outcomes_length in Hlen. unfold addressed in Hlen at 3.
  rewrite length_map in Hlen.
  destruct (partitionResults _) as [oks errs].
  destruct errs; simpl in *; lia.
Qed.

End Uploads.


End UploaderFacts.

(** ** Batch assembly *)

Module BatcherFacts.

(** [groups] cuts [l] into groups of [B]: in order, every group but the
    last of exactly [B] elements, the last one of at least one and at most
    [B]. *)
Definition chunked {A} (B : nat) (l : list A) (groups : list (list A)) : Prop :=
  concat groups = l ∧
  (∀ j g, groups !! j = Some g → S j < length groups → length g = B) ∧
  (∀ g, last groups = Some g → 0 < length g ≤ B).

(** [⌈n / B⌉] *)
Definition ceilDiv (n B : nat) : nat := (n + B - 1) / B.

Lemma ceilDiv_small n B : 0 < n ≤ B → ceilDiv n B = 1.
Proof.
  intros Hn. unfold ceilDiv. symmetry.
  apply (Nat.div_unique _ _ 1 (n - 1)); lia.
Qed.

Lemma ceilDiv_step n B : 0 < B → ceilDiv (B + n) B = S (ceilDiv n B).
Proof.
  intros HB. unfold ceilDiv.
  replace (B + n + B - 1) with ((n + B - 1) + 1 * B) by lia.
  rewrite Nat.div_add by lia. lia.
Qed.

Lemma chunked_nil_inv {A} B (l : list A) : chunked B l [] → l = [].
Proof. by intros [<- _]. Qed.

Lemma chunked_tail {A} B (l : list A) g h groups :
  chunked B l (g :: h :: groups) →
  length g = B ∧ chunked B (drop B l) (h :: groups).
Proof.
  intros (Hc & Hfull & Hlast).
  assert (Hg : length g = B) by (apply (Hfull 0 g); simpl; [done|lia]).
  split; [done|]. split; [|split].
  - rewrite <- Hc. simpl. rewrite drop_app_length'; done.
  - intros j c Hj Hlt. apply (Hfull (S j) c); simpl in *; [done|lia].
  - intros c Hc'. apply Hlast. by rewrite last_cons_cons.
Qed.

(** The number of groups and the size of the last one follow from the
    shape. *)
Lemma chunked_count {A} B (l : list A) groups :
  0 < B → chunked B l groups →
  length groups = ceilDiv (length l) B ∧
  (∀ g, last groups = Some g →
        length g = if (length l mod B =? 0)%nat then B else length l mod B).
Proof.
  intros HB. revert l.
  induction groups as [|g groups IH]; intros l Hch.
  { apply chunked_nil_inv in Hch as ->. split; [|done].
    unfold ceilDiv. simpl. symmetry. apply Nat.div_small. lia. }
  destruct groups as [|h groups].
  - destruct Hch as (Hc & _ & Hlast). simpl in Hc. rewrite app_nil_r in Hc. subst g.
    specialize (Hlast l eq_refl). split.
    + simpl. by rewrite ceilDiv_small.
    + intros g [= <-].
      destruct (decide (length l = B)) as [->|Hne].
      * by rewrite Nat.Div0.mod_same.
      * rewrite Nat.mod_small by lia.
        destruct (Nat.eqb_spec (length l) 0); [lia|done].
  - destruct (chunked_tail _ _ _ _ _ Hch) as [Hg Htl].
    destruct (IH _ Htl) as [Hn Hl].
    assert (Hlen : length l = B + length (drop B l)).
    { destruct Hch as (Hc & _ & _). rewrite <- Hc. simpl.
      rewrite length_app, drop_app_length' by done. lia. }
    split.
    + change (length (g :: h :: groups)) with (S (length (h :: groups))).
      rewrite Hn, Hlen. by rewrite ceilDiv_step.
    + intros c Hc. rewrite last_cons_cons in Hc. rewrite (Hl c Hc), Hlen.
      replace (B + length (drop B l)) with (length (drop B l) + 1 * B) by lia.
      by rewrite Nat.Div0.mod_add.
Qed.

Section Batches.

Variable host : Host.

(** The loop of [createBatches], for a positive [batchSize]. *)
Lemma createBatchesFrom_run fs prefixBase B fuel i acc w :
  0 < B → length fs - i < fuel →
  ∃ bs w',
    createBatchesFrom host fuel fs prefixBase B i acc w = (Val (acc ++ bs), w') ∧
    chunked B (drop i fs) (map files bs) ∧
    (bs = [] ↔ (length fs ≤ i)%nat).
Proof.
  intros HB. revert i acc w.
  induction fuel as [|fuel IH]; intros i acc w Hfuel; simpl; [lia|].
  destruct (Nat.ltb_spec i (length fs)) as [Hlt|Hge].
  - unfold bind, drawUuid. simpl.
    match goal with |- context [acc ++ [?b0]] =>
      set (b := b0);
      assert (Hb : files b = take B (drop i fs))
        by (subst b; simpl; unfold sliceList; f_equal; lia);
      clearbody b
    end.
    match goal with |- context [createBatchesFrom _ _ _ _ _ _ _ ?w1] =>
      destruct (IH (i + B) (acc ++ [b]) w1) as (bs & w' & Hrun & Hch & Hnil); [lia|]
    end.
    exists (b :: bs), w'. split; [|split].
    + rewrite Hrun. by rewrite <- app_assoc.
    +       destruct Hch as (Hc & Hfull & Hlast). split; [|split].
      * simpl. rewrite Hc, Hb, <- drop_drop. apply take_drop.
      * intros [|j] g Hj Hn; simpl in *.
        -- injection Hj as <-. rewrite Hb, length_take, length_drop.
           assert (bs ≠ []) by (destruct bs; simpl in *; [lia|done]).
           assert (¬ (length fs ≤ i + B)%nat) by tauto. lia.
        -- apply (Hfull j g Hj). lia.
      * intros g Hg. destruct bs as [|b' bs].
        -- simpl in Hg. injection Hg as <-.
           rewrite Hb, length_take, length_drop. lia.
        -- apply Hlast. simpl map in Hg. by rewrite last_cons_cons in Hg.
    + split; [done|lia].
  - exists [], w. rewrite app_nil_r, drop_ge by lia. split; [done|].
    split; [|done]. split; [done|]. split; [by intros j g Hj|done].
Qed.

End Batches.

(** [bs] holds [N] files in batches of capacity [B]: [⌈N/B⌉] batches,
    every one but the last of exactly [B] files, the last one of [N mod B]
    files, or of [B] when [B] divides [N]. *)
Definition assembled (B N : nat) (bs : list Batch) : Prop :=
  length bs = ceilDiv N B ∧
  (∀ j b, bs !! j = Some b → S j < length bs → length (files b) = B) ∧
  (∀ b, last bs = Some b →
        length (files b) = if (N mod B =? 0)%nat then B else N mod B).

Lemma chunked_assembled B (l : list FileToUpload) (bs : list Batch) :
  0 < B → chunked B l (map files bs) → assembled B (length l) bs.
Proof.
  intros HB Hch.
  destruct (chunked_count B l (map files bs) HB Hch) as [Hn Hl].
  destruct Hch as (Hc & Hfull & _). rewrite length_map in *.
  split; [done|]. split.
  - intros j b Hj Hlt. apply (Hfull j (files b)); [|done].
    by rewrite list_lookup_fmap, Hj.
  - intros b Hb. apply Hl. by rewrite fmap_last, Hb.
Qed.

Lemma createBatches_shape (host : Host) (fs : list FileToUpload)
    (prefixBase : S3Prefix) (B : nat) (w : World) :
  0 < B →
  ∃ bs w',
    createBatches host fs prefixBase B w = (Val bs, w') ∧
    assembled B (length fs) bs ∧
    concat (map files bs) = fs.
Proof.
  intros HB. unfold createBatches.
  destruct (createBatchesFrom_run host fs prefixBase B (S (length fs)) 0 [] w HB)
    as (bs & w' & Hrun & Hch & _); [lia|].
  rewrite drop_0 in Hch. exists bs, w'. split; [done|].
  split; [by apply chunked_assembled|]. by destruct Hch.
Qed.

End BatcherFacts.

(** ** Strings *)

Module JsFacts.

Lemma str_chars s : Js.str (Js.chars s) = s.
Proof. apply string_of_list_ascii_of_string. Qed.

Lemma chars_str l : Js.chars (Js.str l) = l.
Proof. apply list_ascii_of_string_of_list_ascii. Qed.

Lemma len_chars s : Js.len s = length (Js.chars s).
Proof.
  unfold Js.len, Js.chars. induction s as [|c s IH]; simpl; [done|]. by f_equal.
Qed.

Lemma str_app l1 l2 : Js.str (l1 ++ l2) = Js.str l1 +:+ Js.str l2.
Proof. induction l1 as [|c l1 IH]; simpl; [done|]. by rewrite IH. Qed.

Lemma clamp_nat n i : (i ≤ n)%nat → Js.clamp n (Z.of_nat i) = i.
Proof.
  intros Hi. unfold Js.clamp.
  destruct (Z.ltb_spec (Z.of_nat i) 0); [lia|]. rewrite Nat2Z.id. lia.
Qed.

(** [lastIndexFrom] finds the last position holding [c], if there is one. *)
Lemma lastIndexFrom_spec c l i found :
  (existsb (Ascii.eqb c) l = false ∧ Js.lastIndexFrom c l i found = found) ∨
  (∃ j, l !! j = Some c ∧ existsb (Ascii.eqb c) (drop (S j) l) = false ∧
        Js.lastIndexFrom c l i found = Z.of_nat (i + j)).
Proof.
  revert i found. induction l as [|x l IH]; intros i found; simpl; [by left|].
  destruct (IH (S i) (if Ascii.eqb x c then Z.of_nat i else found))
    as [[Hno Hr] | (j & Hj & Hno & Hr)].
  - rewrite Hr, Hno. destruct (Ascii.eqb_spec x c) as [->|Hne].
    + right. exists 0. rewrite drop_0, Nat.add_0_r. by rewrite Hno.
    + left. destruct (Ascii.eqb_spec c x); [congruence|done].
  - right. exists (S j). simpl. rewrite Hr. repeat split; [done..|].
    f_equal. lia.
Qed.

Lemma slice_prefix s j :
  (j ≤ Js.len s)%nat → Js.slice s 0 (Z.of_nat j) = Js.str (take j (Js.chars s)).
Proof.
  intros Hj. unfold Js.slice. rewrite clamp_nat by done.
  change 0%Z with (Z.of_nat 0). rewrite clamp_nat by lia.
  by rewrite drop_0, Nat.sub_0_r.
Qed.

Lemma sliceFrom_suffix s j :
  (j ≤ Js.len s)%nat → Js.sliceFrom s (Z.of_nat j) = Js.str (drop j (Js.chars s)).
Proof.
  intros Hj. unfold Js.sliceFrom, Js.slice. rewrite !clamp_nat by lia.
  rewrite take_ge; [done|]. rewrite length_drop, <- len_chars. lia.
Qed.

End JsFacts.

(** ** The archive processor *)

Module ProcessorFacts.
Import UploaderFacts BatcherFacts.

Definition filesOf (bs : list Batch) : list FileToUpload := concat (map files bs).

Lemma filesOf_snoc bs b : filesOf (bs ++ [b]) = filesOf bs ++ files b.
Proof. unfold filesOf. by rewrite map_app, concat_app; simpl; rewrite app_nil_r. Qed.

Section Attempts.

Variables (host : Host) (cfg : Config) (parser : Parser.ContentParser).

(** The call of the uploader either returns, having issued its requests,
    or throws when a destination key is refused; the batch is on record in
    both cases and the clock is not read. *)
Lemma tryUploadBatch_outcome bucket batch w :
  (∃ r w', tryUploadBatch host bucket batch w = (Val r, w') ∧
           length (successful r) + length (failed r) = length (files batch) ∧
           sendsOnly (noted batch w) w') ∨
  (∃ e, tryUploadBatch host bucket batch w = (Exc e, noted batch w)).
Proof.
  assert (Hcases : Forall (validDestination batch) (files batch) ∨
                   ¬ Forall (validDestination batch) (files batch)).
  { induction (files batch) as [|f fs IH]; [left; constructor|].
    destruct IH as [IH|IH].
    - destruct (mkS3Key (destinationOf batch f)) as [e|k] eqn:Hk.
      + right. intros Hall. inversion Hall as [|? ? Hf _]; subst.
        unfold validDestination in Hf. congruence.
      + left. constructor; [|done]. unfold validDestination.
        by rewrite Hk, (mkS3Key_value _ _ Hk).
    - right. intros Hall. by inversion Hall. }
  destruct Hcases as [Hvalid|Hinvalid].
  - left. by apply tryUploadBatch_counts.
  - right. unfold tryUploadBatch. unfold bind at 1. simpl. unfold bind at 1.
    destruct (address_throws batch (files batch) (noted batch w) Hinvalid) as [e He].
    unfold noted in He. simpl in He. rewrite He. by exists e.
Qed.

Definition pending (l : Locals) : Batch :=
  {| prefix := currentBatchPrefix l; files := currentBatch l |}.

Lemma flushBatch_empty l w :
  currentBatch l = [] → flushBatch host cfg (l, w) = (Val tt, (l, w)).
Proof. intros Hl. unfold flushBatch, bind, locals. simpl. by rewrite Hl. Qed.

(** A flush of a pending batch hands it to the uploader, then either
    counts the outcomes and starts an empty batch, or lets the uploader's
    exception through with the locals as they were. *)
Lemma flushBatch_outcome l w :
  currentBatch l ≠ [] →
  (∃ r p w1,
      flushBatch host cfg (l, w) = (Val tt, (resetBatch p (countUploads r l), w1)) ∧
      batches w1 = batches w ++ [pending l] ∧ clockReads w1 = clockReads w ∧
      length (successful r) + length (failed r) = length (currentBatch l)) ∨
  (∃ e w1,
      flushBatch host cfg (l, w) = (Exc e, (l, w1)) ∧
      batches w1 = batches w ++ [pending l] ∧ clockReads w1 = clockReads w).
Proof.
  intros Hl.
  remember (flushBatch host cfg (l, w)) as res eqn:Hres.
  unfold flushBatch, bind, locals, inWorld, update, freshPrefix, drawUuid, ret in Hres.
  simpl in Hres. fold (pending l) in Hres.
  destruct (currentBatch l) as [|f fs] eqn:Hcur; [done|]. simpl in Hres.
  destruct (tryUploadBatch_outcome (destinationBucket cfg) (pending l) w)
    as [(r & w' & Hrun & Hlen & Hf) | (e & Hrun)]; rewrite Hrun in Hres; subst res.
  - left. destruct Hf as (_ & Hclock & Hb & _).
    eexists r, _, _. split; [reflexivity|].
    simpl in *. rewrite Hcur in Hlen. split; [done|]. split; [done|]. exact Hlen.
  - right. exists e, (noted (pending l) w). by split.
Qed.

(** The items that the filter lets through. *)
Definition isKept (file : Extractor.ExtractedFile) : bool :=
  negb (Parser.shouldFilter parser (string_of_list_byte (Extractor.content file))).

Definition keptOf (seen : list Extractor.ExtractedFile)
    : list Extractor.ExtractedFile :=
  List.filter isKept seen.

(** What holds between two items of an attempt that started in [w0] and
    has consumed [seen]: the batches handed over since then, where
    [strict] stands for the assumption that renamed files got unused
    names. *)
Definition Core (strict : Prop) (w0 : World)
    (seen : list Extractor.ExtractedFile) (s : Attempt) : Prop :=
  ∃ flushed,
    batches (snd s) = batches w0 ++ flushed ∧
    clockReads (snd s) = clockReads w0 ∧
    (0 < batchSize cfg → Forall (λ b, length (files b) = batchSize cfg) flushed) ∧
    map content (filesOf flushed ++ currentBatch (fst s)) =
      map Extractor.content (keptOf seen) ∧
    (strict →
     NoDup (map key (filesOf flushed ++ currentBatch (fst s))) ∧
     ∀ f, f ∈ filesOf flushed ++ currentBatch (fst s) →
          key f ∈ usedFilenames (fst s)).

Definition Inv (strict : Prop) (w0 : World)
    (seen : list Extractor.ExtractedFile) (s : Attempt) : Prop :=
  Core strict w0 seen s ∧
  (0 < batchSize cfg → length (currentBatch (fst s)) < batchSize cfg).

(** What holds of the world when an attempt is left by an exception. *)
Definition Post (strict : Prop) (w0 w : World) : Prop :=
  ∃ flushed,
    batches w = batches w0 ++ flushed ∧
    clockReads w = clockReads w0 ∧
    (strict → NoDup (map key (filesOf flushed))).

Lemma keptOf_snoc seen file :
  keptOf (seen ++ [file]) = keptOf seen ++ (if isKept file then [file] else []).
Proof. unfold keptOf. by rewrite List.filter_app. Qed.

Lemma Core_filtered strict w0 seen file l w :
  isKept file = false → Core strict w0 seen (l, w) →
  Core strict w0 (seen ++ [file]) (countFiltered (countExtracted l), w).
Proof.
  intros Hk (flushed & Hb & Hc & Hfull & Hcontent & Hnames).
  exists flushed. simpl in *. rewrite keptOf_snoc, Hk, app_nil_r. done.
Qed.

Lemma Core_push strict w0 seen file k l w w1 :
  isKept file = true → Core strict w0 seen (l, w) →
  (strict → k ∉ usedFilenames l) →
  batches w1 = batches w → clockReads w1 = clockReads w →
  Core strict w0 (seen ++ [file])
    (pushFile {| key := k; content := Extractor.content file |}
       (addFilename k (countExtracted l)), w1).
Proof.
  intros Hk (flushed & Hb & Hc & Hfull & Hcontent & Hnames) Hfresh Hb1 Hc1.
  exists flushed. simpl in *. rewrite Hb1, Hc1.
  split; [done|]. split; [done|]. split; [done|]. split.
  - rewrite keptOf_snoc, Hk, app_assoc, (map_app _ (_ ++ _)), Hcontent.
    by rewrite map_app.
  - intros Hs. destruct (Hnames Hs) as [Hnd Hused]. specialize (Hfresh Hs).
    rewrite app_assoc. split.
    + rewrite map_app. simpl. apply NoDup_app. split; [done|]. split.
      * intros x Hx [->|[]]%list_elem_of_In.
        apply list_elem_of_fmap in Hx as (f & -> & Hf). by apply Hfresh, Hused.
      * apply NoDup_singleton.
    + intros f [Hf | ->%list_elem_of_singleton]%elem_of_app.
      * apply elem_of_union_l. by apply Hused.
      * apply elem_of_union_r. by apply elem_of_singleton.
Qed.

Lemma Core_flush strict w0 seen l w w1 p r :
  Core strict w0 seen (l, w) →
  batches w1 = batches w ++ [pending l] → clockReads w1 = clockReads w →
  (0 < batchSize cfg → length (currentBatch l) = batchSize cfg) →
  Core strict w0 seen (resetBatch p (countUploads r l), w1).
Proof.
  intros (flushed & Hb & Hc & Hfull & Hcontent & Hnames) Hb1 Hc1 Hlen.
  exists (flushed ++ [pending l]). simpl in *.
  rewrite Hb1, Hb, Hc1, filesOf_snoc, app_nil_r, <- app_assoc. simpl.
  split; [done|]. split; [done|]. split; [|done].
  intros HB. apply Forall_app. split; [by apply Hfull|].
  constructor; [|done]. simpl. by apply Hlen.
Qed.

Lemma Core_post strict w0 seen l w : Core strict w0 seen (l, w) → Post strict w0 w.
Proof.
  intros (flushed & Hb & Hc & _ & _ & Hnames). exists flushed. simpl in *.
  split; [done|]. split; [done|]. intros Hs. destruct (Hnames Hs) as [Hnd _].
  rewrite map_app in Hnd. by apply NoDup_app in Hnd as [? _].
Qed.

Lemma Core_post_flush strict w0 seen l w w1 :
  Core strict w0 seen (l, w) →
  batches w1 = batches w ++ [pending l] → clockReads w1 = clockReads w →
  Post strict w0 w1.
Proof.
  intros (flushed & Hb & Hc & _ & _ & Hnames) Hb1 Hc1.
  exists (flushed ++ [pending l]). simpl in *.
  rewrite Hb1, Hb, Hc1, filesOf_snoc, <- app_assoc. simpl.
  split; [done|]. split; [done|]. intros Hs. by destruct (Hnames Hs).
Qed.

(** The name that [file] would get when renamed in state [s] is not in
    use there; nothing is asked when the file is filtered or its name is
    new. *)
Definition stepFresh (file : Extractor.ExtractedFile) (s : Attempt) : bool :=
  let content := string_of_list_byte (Extractor.content file) in
  if Parser.shouldFilter parser content then true
  else
    let filename := Parser.extractFilename parser content (Extractor.name file) in
    if bool_decide (filename ∈ usedFilenames (fst s)) then
      bool_decide (disambiguate filename (uuid host (uuidsDrawn (snd s)))
                     ∉ usedFilenames (fst s))
    else true.

(** Every renaming along the run over [yielded] from [s] produced a name
    that was not in use. *)
Fixpoint renamedFresh (yielded : list Extractor.ExtractedFile) (s : Attempt) : bool :=
  match yielded with
  | [] => true
  | file :: rest =>
      stepFresh file s &&
      match processFile host cfg parser file s with
      | (Val _, s') => renamedFresh rest s'
      | _ => true
      end
  end.

Lemma processFile_step strict w0 seen file s :
  Inv strict w0 seen s → (strict → stepFresh file s = true) →
  match processFile host cfg parser file s with
  | (Val _, s') => Inv strict w0 (seen ++ [file]) s'
  | (Exc _, s') => Post strict w0 (snd s')
  | (Diverges, _) => False
  end.
Proof.
  destruct s as [l w]. intros [Hcore Hlen] Hfresh.
  unfold stepFresh in Hfresh. simpl in Hfresh.
  unfold processFile. unfold bind at 1. unfold update at 1. simpl.
  destruct (Parser.shouldFilter parser (string_of_list_byte (Extractor.content file)))
    eqn:Hfilter.
  { unfold update. split; [|done].
    apply Core_filtered; [|done]. unfold isKept. by rewrite Hfilter. }
  assert (Hkept : isKept file = true) by (unfold isKept; by rewrite Hfilter).
  set (filename := Parser.extractFilename parser _ _) in *.
  unfold bind at 1. unfold resolveFilename. fold filename.
  unfold bind at 1. unfold locals at 1. simpl.
  unfold bind at 1.
  assert (Hres : ∃ k w1,
    (if bool_decide (filename ∈ usedFilenames l)
     then u <- inWorld (drawUuid host);; ret (disambiguate filename u)
     else ret filename) (countExtracted l, w) = (Val k, (countExtracted l, w1)) ∧
    (strict → k ∉ usedFilenames l) ∧
    batches w1 = batches w ∧ clockReads w1 = clockReads w).
  { case_bool_decide as Hin.
    - eexists _, _. split; [reflexivity|]. split; [|done].
      intros Hs. specialize (Hfresh Hs). by apply bool_decide_eq_true in Hfresh.
    - by exists filename, w. }
  destruct Hres as (k & w1 & -> & Hk & Hb1 & Hc1).
  unfold bind at 1. unfold update at 1. simpl.
  unfold bind at 1. unfold ret at 1.
  unfold bind at 1. unfold orThrow.
  destruct (mkS3Key k) as [err|k'] eqn:Hkey.
  { unfold throw. simpl.
    destruct Hcore as (flushed & Hb & Hc & _ & _ & Hnames). exists flushed.
    simpl in *. rewrite Hb1, Hc1. split; [done|]. split; [done|].
    intros Hs. destruct (Hnames Hs) as [Hnd _].
    rewrite map_app in Hnd. by apply NoDup_app in Hnd as [? _]. }
  apply mkS3Key_value in Hkey as ->.
  unfold ret at 1. unfold bind at 1. unfold update at 1. simpl.
  pose proof (Core_push strict w0 seen file k l w w1 Hkept Hcore Hk Hb1 Hc1) as Hpushed.
  set (l2 := pushFile _ _) in *.
  assert (Hl2 : length (currentBatch l2) = S (length (currentBatch l))).
  { subst l2. simpl. rewrite length_app. simpl. lia. }
  change (currentBatch l ++ [_]) with (currentBatch l2).
  destruct (Nat.leb_spec (batchSize cfg) (length (currentBatch l2))) as [Hfull|Hroom].
  - destruct (flushBatch_outcome l2 w1) as
      [(r & p & w2 & -> & Hb2 & Hc2 & _) | (e & w2 & -> & Hb2 & Hc2)].
    { intros Hnil. rewrite Hnil in Hl2. done. }
    + split.
      * apply (Core_flush _ _ _ _ w1); try done. intros HB. specialize (Hlen HB).
        simpl in Hlen. lia.
      * simpl. done.
    + simpl. by apply (Core_post_flush strict w0 (seen ++ [file]) l2 w1).
  - unfold ret. split; [done|]. intros _. exact Hroom.
Qed.

Lemma forAwait_run strict w0 completion yielded seen s :
  Inv strict w0 seen s → (strict → renamedFresh yielded s = true) →
  match forAwait yielded completion (processFile host cfg parser) s with
  | (Val _, s') => Inv strict w0 (seen ++ yielded) s' ∧ completion = Extractor.Done
  | (Exc _, s') => Post strict w0 (snd s')
  | (Diverges, _) => False
  end.
Proof.
  revert seen s. induction yielded as [|file rest IH]; intros seen s Hinv Hfresh.
  { simpl. rewrite app_nil_r. destruct completion; simpl; [done|].
    destruct s as [l w]. destruct Hinv as [Hcore _]. by eapply Core_post. }
  simpl. unfold bind.
  pose proof (processFile_step strict w0 seen file s Hinv) as Hstep.
  simpl in Hfresh.
  destruct (processFile host cfg parser file s) as [[[]|e|] s1].
  - replace (seen ++ file :: rest) with ((seen ++ [file]) ++ rest)
      by (by rewrite <- app_assoc).
    apply IH.
    + apply Hstep. intros Hs. specialize (Hfresh Hs).
      by apply andb_true_iff in Hfresh as [? _].
    + intros Hs. specialize (Hfresh Hs). by apply andb_true_iff in Hfresh as [_ ?].
  - apply Hstep. intros Hs. specialize (Hfresh Hs).
    by apply andb_true_iff in Hfresh as [? _].
  - apply Hstep. intros Hs. specialize (Hfresh Hs).
    by apply andb_true_iff in Hfresh as [? _].
Qed.

(** What holds of the world when the [try] block has run to its end. *)
Definition Finished (strict : Prop) (w0 : World)
    (yielded : list Extractor.ExtractedFile) (w : World) : Prop :=
  ∃ flushed,
    batches w = batches w0 ++ flushed ∧
    clockReads w = clockReads w0 ∧
    (0 < batchSize cfg → chunked (batchSize cfg) (filesOf flushed) (map files flushed)) ∧
    map content (filesOf flushed) = map Extractor.content (keptOf yielded) ∧
    (strict → NoDup (map key (filesOf flushed))).

Lemma Finished_post strict w0 yielded w : Finished strict w0 yielded w → Post strict w0 w.
Proof. intros (flushed & ? & ? & _ & _ & ?). by exists flushed. Qed.

Lemma chunked_batches B (bs : list Batch) :
  (∀ j b, bs !! j = Some b → S j < length bs → length (files b) = B) →
  (∀ b, last bs = Some b → 0 < length (files b) ≤ B) →
  chunked B (filesOf bs) (map files bs).
Proof.
  intros Hfull Hlast. split; [done|]. split.
  - intros j g Hj Hlt. rewrite length_map in Hlt. rewrite list_lookup_fmap in Hj.
    destruct (bs !! j) as [b|] eqn:Hb; [|done]. injection Hj as <-. by eapply Hfull.
  - intros g Hg. rewrite fmap_last in Hg.
    destruct (last bs) as [b|] eqn:Hb; [|done]. injection Hg as <-. by apply Hlast.
Qed.

(** The flush after the last item. *)
Lemma final_flush strict w0 yielded s :
  Inv strict w0 yielded s →
  match flushBatch host cfg s with
  | (Val _, s') => Finished strict w0 yielded (snd s')
  | (Exc _, s') => Post strict w0 (snd s')
  | (Diverges, _) => False
  end.
Proof.
  destruct s as [l w]. intros [Hcore Hlen].
  destruct (currentBatch l) as [|f fs] eqn:Hcur.
  - rewrite flushBatch_empty by done.
    destruct Hcore as (flushed & Hb & Hc & Hfull & Hcontent & Hnames).
    exists flushed. simpl in *. rewrite Hcur, app_nil_r in *.
    split; [done|]. split; [done|]. split; [|split; [done|]].
    + intros HB. specialize (Hfull HB). apply chunked_batches.
      * intros j b Hj _. eapply Forall_lookup_1 in Hfull; [|done]. done.
      * intros b Hlast. apply last_Some in Hlast as [bs' ->].
        apply Forall_app in Hfull as [_ Hfull]. inversion Hfull; subst. lia.
    + intros Hs. by destruct (Hnames Hs).
  - destruct (flushBatch_outcome l w) as
      [(r & p & w1 & -> & Hb1 & Hc1 & _) | (e & w1 & -> & Hb1 & Hc1)].
    { by rewrite Hcur. }
    + destruct Hcore as (flushed & Hb & Hc & Hfull & Hcontent & Hnames).
      exists (flushed ++ [pending l]). simpl in *.
      rewrite Hb1, Hb, Hc1, <- app_assoc.
      split; [done|]. split; [done|]. split; [|rewrite filesOf_snoc; split; [done|]].
      * intros HB. specialize (Hfull HB). specialize (Hlen HB).
        apply chunked_batches.
        -- intros j b Hj Hlt. rewrite length_app in Hlt. simpl in Hlt.
           rewrite lookup_app_l in Hj by lia.
           eapply Forall_lookup_1 in Hfull; [|done]. done.
        -- intros b Hb'. rewrite last_snoc in Hb'. injection Hb' as <-.
           simpl. rewrite Hcur in *. simpl in *. lia.
      * intros Hs. by destruct (Hnames Hs).
    + simpl. by eapply Core_post_flush.
Qed.

(** The items that the generator yields for the archive at a path. *)
Definition yieldedFrom (zipPath : FilePath) : list Extractor.ExtractedFile :=
  fst (Extractor.extractZipStreaming (yauzl_open host zipPath) zipPath
         Extractor.noOptions).

(** The state in which the [try] block of an attempt starts. *)
Definition attemptStart (w : World) : Attempt :=
  (initialLocals (mkS3Prefix (joinS3Path [s3PrefixBase cfg; uuid host (uuidsDrawn w)])),
   snd (drawUuid host w)).

Lemma Inv_start strict w : Inv strict w [] (attemptStart w).
Proof.
  split; [|done]. exists []. simpl. rewrite app_nil_r.
  split; [done|]. split; [done|]. split; [by constructor|]. split; [done|].
  intros _. split; [constructor|]. intros f Hf. by apply elem_of_nil in Hf.
Qed.

Lemma processAttempt_run strict zipPath w0 s :
  Inv strict w0 [] s →
  (strict → renamedFresh (yieldedFrom zipPath) s = true) →
  match processAttempt host zipPath cfg parser s with
  | (Val _, s') => Finished strict w0 (yieldedFrom zipPath) (snd s')
  | (Exc _, s') => Post strict w0 (snd s')
  | (Diverges, _) => False
  end.
Proof.
  intros Hinv Hfresh. unfold processAttempt, forAwaitOf. unfold bind at 1.
  pose proof (forAwait_run strict w0
                (snd (Extractor.extractZipStreaming (yauzl_open host zipPath) zipPath
                        Extractor.noOptions))
                (yieldedFrom zipPath) [] s Hinv Hfresh) as Hloop.
  unfold yieldedFrom in Hloop at 1.
  destruct (forAwait _ _ _ s) as [[[]|e|] s1]; [|done..].
  destruct Hloop as [Hinv1 _]. simpl in Hinv1.
  unfold bind at 1.
  pose proof (final_flush strict w0 _ s1 Hinv1) as Hflush.
  destruct (flushBatch host cfg s1) as [[[]|e|] [l2 w2]]; [|done..].
  unfold bind at 1. unfold locals at 1. simpl.
  unfold bind at 1. unfold inWorld, tryRouteFile, noteRoute. simpl.
  destruct Hflush as (flushed & Hfl). simpl in Hfl.
  destruct ((filesFailed l2 =? 0)%nat && (0 <? filesUploaded l2)%nat);
    [destruct (deleteOnSuccess cfg)|]; simpl;
    (destruct (0 <? filesFailed l2)%nat; simpl; by exists flushed).
Qed.

(** An attempt always returns: an exception of the [try] block is turned
    into a failure.  It does not read the clock, and the batches it hands
    to the uploader are added after those on record. *)
Lemma tryProcessZipFile_run strict zipPath w :
  (strict → renamedFresh (yieldedFrom zipPath) (attemptStart w) = true) →
  ∃ r w',
    tryProcessZipFile host zipPath cfg parser w = (Val r, w') ∧
    Post strict w w' ∧
    (isOk r = true → Finished strict w (yieldedFrom zipPath) w').
Proof.
  intros Hfresh.
  pose proof (processAttempt_run strict zipPath w (attemptStart w)
                (Inv_start strict w) Hfresh) as Hrun.
  unfold tryProcessZipFile. unfold bind at 1. unfold freshPrefix at 1.
  unfold bind at 1. unfold ret at 1.
  change (drawUuid host w) with
    (Val (uuid host (uuidsDrawn w)), snd (drawUuid host w)).
  cbv beta iota. unfold withLocals, tryCatch.
  fold (attemptStart w).
  destruct (processAttempt host zipPath cfg parser (attemptStart w))
    as [[r|e|] [l1 w1]]; [| |done].
  - exists r, w1. split; [done|]. split; [by eapply Finished_post|done].
  - unfold recoverAttempt, bind, inWorld, tryRouteFile, noteRoute, locals, ret. simpl.
    eexists _, _. split; [reflexivity|]. simpl. split; [|done].
    destruct Hrun as (flushed & ? & ? & ?). by exists flushed.
Qed.

End Attempts.

(** *** The renaming of duplicates *)

Lemma includes_chars filename c :
  Js.includes filename c = existsb (Ascii.eqb c) (Js.chars filename).
Proof. done. Qed.

(** The position of the last separator of a name that has one. *)
Lemma last_separator filename :
  Js.includes filename "." = true →
  ∃ j, Js.chars filename !! j = Some "."%char ∧
       existsb (Ascii.eqb ".") (drop (S j) (Js.chars filename)) = false ∧
       Js.lastIndexOf filename "." = Z.of_nat j.
Proof.
  intros Hin. unfold Js.lastIndexOf.
  destruct (JsFacts.lastIndexFrom_spec "." (Js.chars filename) 0 (-1))
    as [[Hno _] | (j & Hj & Hno & Hr)].
  - rewrite includes_chars in Hin. congruence.
  - exists j. by rewrite Hr.
Qed.

Lemma baseOf_extOf filename : baseOf filename +:+ extOf filename = filename.
Proof.
  unfold baseOf, extOf. destruct (Js.includes filename ".") eqn:Hin.
  - destruct (last_separator filename Hin) as (j & Hj & _ & ->).
    apply lookup_lt_Some in Hj. rewrite <- JsFacts.len_chars in Hj.
    rewrite JsFacts.slice_prefix, JsFacts.sliceFrom_suffix by lia.
    by rewrite <- JsFacts.str_app, take_drop, JsFacts.str_chars.
  - clear. induction filename as [|c s IH]; [done|].
    change (String c (s +:+ "") = String c s). by f_equal.
Qed.

Lemma extOf_separator filename :
  Js.includes filename "." = true →
  ∃ rest, extOf filename = String "." rest ∧ Js.includes rest "." = false.
Proof.
  intros Hin. unfold extOf. rewrite Hin.
  destruct (last_separator filename Hin) as (j & Hj & Hno & ->).
  pose proof (lookup_lt_Some _ _ _ Hj) as Hlt. rewrite <- JsFacts.len_chars in Hlt.
  rewrite JsFacts.sliceFrom_suffix by lia.
  rewrite (drop_S _ _ _ Hj). simpl.
  exists (Js.str (drop (S j) (Js.chars filename))). split; [done|].
  by rewrite includes_chars, JsFacts.chars_str.
Qed.

(** The identifiers that [uuid()] returns start with eight hexadecimal
    digits. *)
Definition hexPrefixed (u : string) : Prop :=
  (8 ≤ Js.len u)%nat ∧
  Forall (λ c, Js.isHexDigit c = true) (take 8 (Js.chars u)).

Lemma disambiguator_hex u :
  hexPrefixed u →
  Js.len (Js.slice u 0 8) = 8 ∧
  Forall (λ c, Js.isHexDigit c = true) (Js.chars (Js.slice u 0 8)).
Proof.
  intros [Hlen Hhex]. change 8%Z with (Z.of_nat 8).
  rewrite JsFacts.slice_prefix by done.
  rewrite JsFacts.len_chars, JsFacts.chars_str. split; [|done].
  rewrite length_take, <- JsFacts.len_chars. lia.
Qed.

Lemma resolveFilename_new host parser content file l w :
  Parser.extractFilename parser content (Extractor.name file) ∉ usedFilenames l →
  resolveFilename host parser content file (l, w) =
  (Val (Parser.extractFilename parser content (Extractor.name file)),
   (addFilename (Parser.extractFilename parser content (Extractor.name file)) l, w)).
Proof.
  intros Hnew. unfold resolveFilename, bind, locals, update, ret. simpl.
  by rewrite bool_decide_eq_false_2.
Qed.

Lemma resolveFilename_used host parser content file l w :
  Parser.extractFilename parser content (Extractor.name file) ∈ usedFilenames l →
  fst (resolveFilename host parser content file (l, w)) =
  Val (disambiguate (Parser.extractFilename parser content (Extractor.name file))
         (uuid host (uuidsDrawn w))).
Proof.
  intros Hused. unfold resolveFilename, bind, locals, update, ret. simpl.
  by rewrite bool_decide_eq_true_2.
Qed.

(** C8. For [N] kept items and a capacity [B > 0], batch assembly
    produces [⌈N/B⌉] batches; every batch but the last holds exactly [B]
    items; the last one holds [N mod B] items, or [B] when [B] divides
    [N]; and the items keep their order across the batches.  This holds of
    [createBatches], and of the batches that an attempt which ends in
    success has handed to the uploader, [N] being the number of yielded
    items that were not filtered. *)
Theorem batch_assembly (host : Host) (cfg : Config) (parser : Parser.ContentParser) :
  (∀ fs prefixBase B w,
     0 < B →
     ∃ bs w',
       createBatches host fs prefixBase B w = (Val bs, w') ∧
       assembled B (length fs) bs ∧
       filesOf bs = fs) ∧
  (∀ zipPath w v w',
     0 < batchSize cfg →
     tryProcessZipFile host zipPath cfg parser w = (Val (Ok v), w') →
     ∃ flushed,
       batches w' = batches w ++ flushed ∧
       assembled (batchSize cfg)
         (length (keptOf parser (yieldedFrom host zipPath))) flushed ∧
       map content (filesOf flushed) =
         map Extractor.content (keptOf parser (yieldedFrom host zipPath))).
Proof.
  split.
  - intros fs prefixBase B w HB. by apply createBatches_shape.
  - intros zipPath w v w' HB Hrun.
    destruct (tryProcessZipFile_run host cfg parser False zipPath w)
      as (r & w1 & Hrun1 & _ & Hfin); [done|].
    rewrite Hrun in Hrun1. injection Hrun1 as <- <-.
    destruct (Hfin eq_refl) as (flushed & Hb & _ & Hch & Hcontent & _).
    exists flushed. split; [done|]. split; [|done].
    assert (Hlen : length (keptOf parser (yieldedFrom host zipPath)) =
                   length (filesOf flushed)).
    { by rewrite <- (length_map Extractor.content), <- Hcontent, length_map. }
    rewrite Hlen. apply chunked_assembled; [done|]. by apply Hch.
Qed.

(** *** The orchestrator *)

Section Orchestrator.

Variables (host : Host) (cfg : Config) (parser : Parser.ContentParser).

(** The world after one more reading of the clock. *)
Definition tick (w : World) : World := snd (getRemainingTimeInMillis host w).

(** [Attempted zipFiles w rs w']: starting in [w], the archives
    [zipFiles] were attempted one after the other, each after one reading
    of the clock, with the results [rs], leaving the world [w']. *)
Inductive Attempted : list string → World → list (Result ZipSuccess ZipFailure) →
                      World → Prop :=
| Attempted_nil w : Attempted [] w [] w
| Attempted_cons zipFile rest w r w1 rs w2 :
    tryProcessZipFile host (pathJoin (sourceDir cfg) zipFile) cfg parser (tick w)
      = (Val r, w1) →
    Attempted rest w1 rs w2 →
    Attempted (zipFile :: rest) w (r :: rs) w2.

Definition oks (rs : list (Result ZipSuccess ZipFailure)) : list ZipSuccess :=
  omap (λ r, match r with Ok v => Some v | Err _ => None end) rs.

Definition errs (rs : list (Result ZipSuccess ZipFailure)) : list ZipFailure :=
  omap (λ r, match r with Ok _ => None | Err e => Some e end) rs.

Lemma Attempted_length zipFiles w rs w' :
  Attempted zipFiles w rs w' → length rs = length zipFiles.
Proof. induction 1; simpl; [done|]. by f_equal. Qed.

(** An attempt returns and leaves the clock alone. *)
Lemma attempt_completes zipPath w :
  ∃ r w', tryProcessZipFile host zipPath cfg parser w = (Val r, w') ∧
          clockReads w' = clockReads w.
Proof.
  destruct (tryProcessZipFile_run host cfg parser False zipPath w)
    as (r & w' & Hrun & (flushed & _ & Hc & _) & _); [done|].
  by exists r, w'.
Qed.

(** The loop over the archives when the readings of the clock allow [k]
    archives, exactly. *)
Lemma processEach_run zipFiles k ss fs w :
  (k ≤ length zipFiles)%nat →
  (∀ j, j < k → (timeoutBufferMs cfg ≤ remainingTime host (clockReads w + j))%Z) →
  (k < length zipFiles →
   (remainingTime host (clockReads w + k) < timeoutBufferMs cfg)%Z) →
  ∃ rs wk,
    Attempted (take k zipFiles) w rs wk ∧
    clockReads wk = clockReads w + k ∧
    processEach host cfg parser zipFiles ss fs w =
      (Val (ss ++ oks rs, fs ++ errs rs, bool_decide (k < length zipFiles)),
       if bool_decide (k < length zipFiles) then tick wk else wk).
Proof.
  revert k ss fs w. induction zipFiles as [|zipFile rest IH];
    intros k ss fs w Hk Hpass Hstop.
  { simpl in Hk. assert (k = 0) as -> by lia. exists [], w. simpl.
    rewrite !app_nil_r. split; [constructor|]. split; [lia|done]. }
  destruct k as [|k].
  - exists [], w. simpl. rewrite !app_nil_r. split; [constructor|]. split; [lia|].
    unfold bind. simpl. rewrite Nat.add_0_r in Hstop.
    destruct (Z.ltb_spec (remainingTime host (clockReads w)) (timeoutBufferMs cfg))
      as [_|Hge]; [|simpl in Hstop; lia].
    done.
  - simpl. unfold bind at 1. simpl.
    destruct (Z.ltb_spec (remainingTime host (clockReads w)) (timeoutBufferMs cfg))
      as [Hlt|_].
    { specialize (Hpass 0 ltac:(lia)). rewrite Nat.add_0_r in Hpass. lia. }
    unfold bind at 1. fold (tick w).
    destruct (attempt_completes (pathJoin (sourceDir cfg) zipFile) (tick w))
      as (r & w1 & Hrun & Hclock).
    pose proof Hrun as Hrun'. unfold tick in Hrun'. simpl in Hrun'.
    rewrite Hrun'. clear Hrun'.
    assert (Hc1 : clockReads w1 = S (clockReads w)) by (by rewrite Hclock).
    assert (Hpass1 : ∀ j, j < k →
               (timeoutBufferMs cfg ≤ remainingTime host (clockReads w1 + j))%Z).
    { intros j Hj. rewrite Hc1. replace (S (clockReads w) + j) with (clockReads w + S j)
        by lia. apply Hpass. lia. }
    assert (Hstop1 : k < length rest →
               (remainingTime host (clockReads w1 + k) < timeoutBufferMs cfg)%Z).
    { intros Hlt. rewrite Hc1. replace (S (clockReads w) + k) with (clockReads w + S k)
        by lia. apply Hstop. simpl. lia. }
    simpl in Hk.
    assert (Hdec : bool_decide (S k < S (length rest)) = bool_decide (k < length rest)).
    { apply bool_decide_ext. lia. }
    rewrite Hdec.
    destruct r as [v|e].
    + destruct (IH k (ss ++ [v]) fs w1 ltac:(lia) Hpass1 Hstop1)
        as (rs & wk & Hatt & Hck & ->).
      exists (Ok v :: rs), wk. split; [by econstructor|]. split; [lia|].
      simpl. by rewrite <- app_assoc.
    + destruct (IH k ss (fs ++ [e]) w1 ltac:(lia) Hpass1 Hstop1)
        as (rs & wk & Hatt & Hck & ->).
      exists (Err e :: rs), wk. split; [by econstructor|]. split; [lia|].
      simpl. by rewrite <- app_assoc.
Qed.

End Orchestrator.

Lemma oks_errs_length (rs : list (Result ZipSuccess ZipFailure)) :
  length (oks rs) + length (errs rs) = length rs.
Proof. induction rs as [|[v|e] rs IH]; simpl; lia. Qed.

(** C4. The clock is read once before each archive and never inside an
    attempt, and an attempt that has started returns its result.  When the
    reading before the archive at position [k] (counting from zero) is the
    first one below the buffer, the invocation returns with
    [stoppedEarly = true] and with the results of the [k] archives before
    it, successes and failures each in listing order; after the last of
    them nothing has happened but that reading of the clock, so that
    archive and the following ones were not started. *)
Theorem deadline_gate (host : Host) (cfg : Config) (listing : ZipListResult)
    (w : World) (k : nat) :
  let parser :=
    Parser.createContentParser (regex_exec host)
      (filenamePattern cfg) (filterPattern cfg) in
  let zipFiles := take (maxFilesPerInvocation cfg) (zl_files listing) in
  (∀ zipPath w0,
     ∃ r w1, tryProcessZipFile host zipPath cfg parser w0 = (Val r, w1) ∧
             clockReads w1 = clockReads w0) ∧
  (k < length zipFiles →
   (∀ j, j < k → (timeoutBufferMs cfg ≤ remainingTime host (clockReads w + j))%Z) →
   (remainingTime host (clockReads w + k) < timeoutBufferMs cfg)%Z →
   ∃ rs wk r,
     Attempted host cfg parser (take k zipFiles) w rs wk ∧
     length rs = k ∧
     clockReads wk = clockReads w + k ∧
     processZips host cfg (Ok listing) w = (Val r, tick host wk) ∧
     stoppedEarly r = true ∧
     successes r = oks rs ∧
     failures r = errs rs ∧
     zipsProcessed r + zipsFailed r = k).
Proof.
  intros parser zipFiles. split; [apply attempt_completes|].
  intros Hk Hpass Hstop.
  destruct (processEach_run host cfg parser zipFiles k [] [] w ltac:(lia) Hpass
              (λ _, Hstop)) as (rs & wk & Hatt & Hclock & Hrun).
  rewrite bool_decide_eq_true_2 in Hrun by done. simpl in Hrun.
  pose proof (Attempted_length _ _ _ _ _ _ _ Hatt) as Hlen.
  rewrite length_take in Hlen.
  eexists rs, wk, _. split; [done|]. split; [lia|]. split; [done|].
  unfold processZips. fold parser.
  assert (Hslice : sliceList (zl_files listing) 0 (maxFilesPerInvocation cfg) = zipFiles).
  { unfold sliceList. by rewrite drop_0, Nat.sub_0_r. }
  rewrite Hslice.
  destruct (Nat.eqb_spec (length zipFiles) 0) as [Hz|_]; [lia|].
  unfold bind. rewrite Hrun. unfold ret.
  split; [reflexivity|]. simpl. split; [done|]. split; [done|]. split; [done|].
  rewrite oks_errs_length. lia.
Qed.

(** *** The disposition of an attempt, on sample archives *)

Import Samples.

(** C1, as the program has it.  An archive without entries, and one whose
    only entry is filtered, upload nothing and fail nothing: each is moved
    to the directory of failed archives, and each is returned as a
    success. *)
Theorem nothing_uploaded_is_returned_as_success :
  let empty :=
    tryProcessZipFile sampleHost "/input/empty.zip" sampleConfig
      (parserOf sampleHost sampleConfig) initialWorld in
  let skipped :=
    tryProcessZipFile sampleHost "/input/skipped.zip" patternConfig
      (parserOf sampleHost patternConfig) initialWorld in
  fst empty =
    Val (Ok {| ok_zipPath := "/input/empty.zip"; ok_filesExtracted := 0;
               ok_filesUploaded := 0; ok_filesFiltered := 0 |}) ∧
  routed (snd empty) = [("/input/empty.zip", MovedTo "/failed")] ∧
  fst skipped =
    Val (Ok {| ok_zipPath := "/input/skipped.zip"; ok_filesExtracted := 1;
               ok_filesUploaded := 0; ok_filesFiltered := 1 |}) ∧
  routed (snd skipped) = [("/input/skipped.zip", MovedTo "/failed")].
Proof. vm_compute. done. Qed.

(** Whatever the archive, an attempt that counted a failed upload is
    returned as a failure, and one returned as a success counted none. *)
Lemma processAttempt_disposition host zipPath cfg parser s r s' :
  processAttempt host zipPath cfg parser s = (Val r, s') →
  isOk r = negb (0 <? filesFailed (fst s'))%nat.
Proof.
  unfold processAttempt. unfold bind at 1.
  destruct (forAwaitOf _ _ s) as [[[]|e|] s1]; [|done..].
  unfold bind at 1.
  destruct (flushBatch host cfg s1) as [[[]|e|] [l2 w2]]; [|done..].
  unfold bind, locals, inWorld, tryRouteFile, noteRoute, ret. simpl.
  destruct ((filesFailed l2 =? 0)%nat && (0 <? filesUploaded l2)%nat);
    [destruct (deleteOnSuccess cfg)|]; simpl;
    (destruct (0 <? filesFailed l2)%nat eqn:Hf; intros [= <- <-]; simpl;
     by rewrite Hf).
Qed.

(** C3, as the program has it.  One archive of two entries, the store
    refusing the first request: the archive is returned as a failure whose
    cause counts one failed upload, and the invocation reports
    [totalFilesFailed = 0]. *)
Theorem failed_uploads_are_not_totalled :
  fst (processZips flakyHost sampleConfig
         (Ok {| zl_files := ["two.zip"]; oldestAgeMs := 0 |}) initialWorld) =
  Val {| zipsProcessed := 0; zipsFailed := 1;
         totalFilesUploaded := 1; totalFilesFailed := 0; totalFilesFiltered := 0;
         successes := [];
         failures :=
           [{| ko_zipPath := "/input/two.zip";
               ko_error :=
                 AppZip (ZipExtraction "/input/two.zip"
                           (Some (MkError "1 file(s) failed to upload")));
               ko_filesExtracted := 2; ko_filesUploaded := 1;
               ko_filesFiltered := 0 |}];
         stoppedEarly := false |}.
Proof. vm_compute. done. Qed.

(** The count of failed uploads in the result of an invocation is the
    constant zero. *)
Lemma totalFilesFailed_zero host cfg listResult w :
  match fst (processZips host cfg listResult w) with
  | Val r => totalFilesFailed r = 0
  | _ => True
  end.
Proof.
  unfold processZips. destruct listResult as [listing|error]; [|done].
  destruct (length _ =? 0)%nat; [done|].
  unfold bind. destruct (processEach _ _ _ _ _ _ w) as [[[[ss fs] stop]|e|] w']; done.
Qed.

(** *** The total size of an archive *)

Import Extractor ExtractorFacts.

Definition bombFiles (b : Buffer) : list ExtractedFile :=
  map (λ i, {| name := "part-" +:+ Js.ofNat i +:+ ".xml"; content := b |}) (seq 0 21).

Lemma size_fullEntry : size fullEntry = DEFAULT_MAX_ENTRY_SIZE.
Proof. unfold size, fullEntry. by rewrite length_replicate, N2Nat.id. Qed.

(** All the entries are yielded when each one respects the entry limit. *)
Lemma bomb_yielded b :
  (size b ≤ DEFAULT_MAX_ENTRY_SIZE)%N →
  extractZipStreaming (yauzl_open (bombHost b) "/input/bomb.zip")
    "/input/bomb.zip" noOptions = (bombFiles b, Done).
Proof.
  intros Hb.
  change (yauzl_open (bombHost b) "/input/bomb.zip")
    with (Some (archiveOf (bombEntries b))).
  unfold extractZipStreaming. simpl default. cbv beta iota zeta.
  change (entries (archiveOf (bombEntries b))) with (bombEntries b).
  change (ending (archiveOf (bombEntries b))) with EndOfArchive.
  rewrite readEntries_all.
  - f_equal. unfold bombEntries, bombFiles.
    induction (seq 0 21) as [|i l IH]; [done|].
    cbn [map omap list_omap fileName]. rewrite readStream_honest.
    cbn [fmap option_fmap option_map]. by rewrite IH.
  - unfold bombEntries. cbn [map seq].
    repeat (constructor;
            [split; [by vm_compute
                    | split; [exact Hb | exists b; split; [apply readStream_honest|exact Hb]]] |]).
    constructor.
  - unfold bombEntries. rewrite length_map, length_seq. done.
Qed.

(** The attempt on such an archive, for any buffer within the entry
    limit. *)
Lemma bomb_attempt b :
  (size b ≤ DEFAULT_MAX_ENTRY_SIZE)%N →
  fst (tryProcessZipFile (bombHost b) "/input/bomb.zip" sampleConfig
         (parserOf (bombHost b) sampleConfig) initialWorld) =
  Val (Ok {| ok_zipPath := "/input/bomb.zip"; ok_filesExtracted := 21;
             ok_filesUploaded := 21; ok_filesFiltered := 0 |}).
Proof.
  intros Hb.
  cbv beta delta [tryProcessZipFile bind freshPrefix drawUuid ret withLocals
                  tryCatch processAttempt forAwaitOf].
  rewrite (bomb_yielded b Hb). by vm_compute.
Qed.

Lemma totalSize_bombFiles b : totalSize (bombFiles b) = (21 * size b)%N.
Proof. unfold bombFiles. cbn [map seq totalSize foldr content]. lia. Qed.

(** C2, as the program has it.  An archive of twenty-one entries of ten
    mebibytes each respects the entry limits; the attempt yields and
    uploads all of them and ends in success, although their sizes add up
    to more than the limit of two hundred mebibytes on the total size. *)
Theorem total_size_is_not_limited :
  fst (tryProcessZipFile (bombHost fullEntry) "/input/bomb.zip" sampleConfig
         (parserOf (bombHost fullEntry) sampleConfig) initialWorld) =
    Val (Ok {| ok_zipPath := "/input/bomb.zip"; ok_filesExtracted := 21;
               ok_filesUploaded := 21; ok_filesFiltered := 0 |}) ∧
  extractZipStreaming (yauzl_open (bombHost fullEntry) "/input/bomb.zip")
    "/input/bomb.zip" noOptions = (bombFiles fullEntry, Done) ∧
  (DEFAULT_MAX_TOTAL_SIZE < totalSize (bombFiles fullEntry))%N.
Proof.
  assert (Hb : (size fullEntry ≤ DEFAULT_MAX_ENTRY_SIZE)%N)
    by (rewrite size_fullEntry; lia).
  split; [by apply bomb_attempt|]. split; [by apply bomb_yielded|].
  rewrite totalSize_bombFiles, size_fullEntry. by vm_compute.
Qed.

End ProcessorFacts.

(** * The properties on the sample inputs *)

Module Examples.
Import Samples Extractor.
Import ParserFacts ExtractorFacts UploaderFacts BatcherFacts ProcessorFacts.

Lemma classifier_contract_witness :
  Parser.shouldFilter
    (Parser.createContentParser sampleRegex (Some "<id>(.*?)</id>") None)
    "<skip>" = false ∧
  Parser.extractFilename
    (Parser.createContentParser sampleRegex (Some "<id>(.*?)</id>") None)
    "<id>a</id>" "fallback.xml" = "a.xml" ∧
  Parser.extractFilename
    (Parser.createContentParser sampleRegex (Some "<id>(.*?)</id>") None)
    "<id></id>" "fallback.xml" = "fallback.xml".
Proof.
  destruct (classifier_contract sampleRegex (Some "<id>(.*?)</id>") None)
    as (Hfilter & Hderived & Hfallback).
  split; [|split].
  - apply Hfilter. intros (p & Hp & _). discriminate.
  - apply (Hderived "<id>(.*?)</id>" "<id>a</id>" "a" "fallback.xml"); [done|done|].
    exists [Some "<id>a</id>"; Some "a"]. by repeat split.
  - apply Hfallback. right. exists "<id>(.*?)</id>". split; [done|].
    intros g (groups & Hg & Hl & Hne). vm_compute in Hg.
    injection Hg as <-. simpl in Hl. injection Hl as <-. done.
Defined.





Lemma batch_assembly_witness :
  (∃ bs w',
     createBatches sampleHost fiveFiles "uploads/" 2 initialWorld = (Val bs, w') ∧
     assembled 2 (length fiveFiles) bs ∧ filesOf bs = fiveFiles) ∧
  (∃ flushed,
     batches (snd (tryProcessZipFile sampleHost "/input/five.zip" patternConfig
                     (parserOf sampleHost patternConfig) initialWorld)) =
       batches initialWorld ++ flushed ∧
     assembled 2
       (length (keptOf (parserOf sampleHost patternConfig)
                  (yieldedFrom sampleHost "/input/five.zip"))) flushed).
Proof.
  destruct (batch_assembly sampleHost patternConfig (parserOf sampleHost patternConfig))
    as [Hcreate Hstream].
  split.
  - apply Hcreate. lia.
  - destruct (Hstream "/input/five.zip" initialWorld
                {| ok_zipPath := "/input/five.zip"; ok_filesExtracted := 5;
                   ok_filesUploaded := 5; ok_filesFiltered := 0 |}
                (snd (tryProcessZipFile sampleHost "/input/five.zip" patternConfig
                        (parserOf sampleHost patternConfig) initialWorld)))
      as (flushed & Hb & Hshape & _).
    + vm_compute. lia.
    + vm_compute. reflexivity.
    + exists flushed. split; [exact Hb|exact Hshape].
Defined.

Lemma deadline_gate_witness :
  ∃ rs wk r,
    Attempted hurriedHost sampleConfig (parserOf hurriedHost sampleConfig)
      ["two.zip"; "empty.zip"] initialWorld rs wk ∧
    length rs = 2 ∧
    processZips hurriedHost sampleConfig (Ok fourArchives) initialWorld =
      (Val r, tick hurriedHost wk) ∧
    stoppedEarly r = true ∧
    zipsProcessed r + zipsFailed r = 2.
Proof.
  destruct (deadline_gate hurriedHost sampleConfig fourArchives initialWorld 2)
    as [_ Hstop].
  destruct Hstop as (rs & wk & r & Hatt & Hlen & _ & Hrun & Hflag & _ & _ & Hn).
  - vm_compute. lia.
  - intros j Hj. destruct j as [|[|j]]; [by vm_compute..|lia].
  - by vm_compute.
  - exists rs, wk, r. split; [exact Hatt|]. split; [exact Hlen|].
    split; [exact Hrun|]. split; [exact Hflag|exact Hn].
Defined.

End Examples.

(** * Further properties of the extractor *)

Module ExtractorMore.
Import Extractor ExtractorFacts.

Definition limitTotalSize (options : ExtractOptions) : N :=
  default DEFAULT_MAX_TOTAL_SIZE (maxTotalSize options).

(** The item that a file entry stands for, when its stream can be read. *)
Definition fileOf (e : Entry) : option ExtractedFile :=
  (λ c, {| name := fileName e; content := c |}) <$> readStream e.

Definition fileEntries (es : list Entry) : list Entry :=
  List.filter (λ e, negb (isDirectory e)) es.

(** [file] is what reading the entry [e] yields: the name of the entry
    and the bytes of its stream. *)
Definition yieldedFor (file : ExtractedFile) (e : Entry) : Prop :=
  name file = fileName e ∧ readStream e = Some (content file).

(** An entry that passes both size checks and whose stream can be read. *)
Definition conforming (maxS : N) (e : Entry) : Prop :=
  (uncompressedSize e ≤ maxS)%N ∧
  ∃ c, readStream e = Some c ∧ (size c ≤ maxS)%N.

Lemma totalSize_app xs ys :
  totalSize (xs ++ ys) = (totalSize xs + totalSize ys)%N.
Proof. induction xs as [|x xs IH]; simpl; [done|]. unfold totalSize in *. simpl. lia. Qed.

Lemma collect_spec zipPath maxT yielded completion total files :
  (total ≤ maxT)%N →
  collect zipPath maxT yielded completion total files =
    if (maxT <? total + totalSize yielded)%N then inl (ZipTooLarge zipPath maxT)
    else match completion with
         | Done => inr (files ++ yielded)
         | Threw e => inl e
         end.
Proof.
  revert total files. induction yielded as [|f rest IH]; intros total files Htotal.
  - simpl. rewrite N.add_0_r. destruct (N.ltb_spec maxT total); [lia|].
    rewrite app_nil_r. done.
  - simpl. change (totalSize (f :: rest)) with (size (content f) + totalSize rest)%N.
    destruct (N.ltb_spec maxT (total + size (content f))) as [Hover|Hin].
    + destruct (N.ltb_spec maxT (total + (size (content f) + totalSize rest)));
        [done|lia].
    + rewrite IH by done. rewrite N.add_assoc, <- app_assoc. done.
Qed.

Lemma extractZip_spec opened zipPath options :
  extractZip opened zipPath options =
    let result := extractZipStreaming opened zipPath options in
    if (limitTotalSize options <? totalSize (fst result))%N
    then inl (ZipTooLarge zipPath (limitTotalSize options))
    else match snd result with
         | Done => inr (fst result)
         | Threw e => inl e
         end.
Proof.
  unfold extractZip, limitTotalSize.
  destruct (extractZipStreaming opened zipPath options) as [yielded completion].
  rewrite collect_spec by lia. done.
Qed.

(** X1. [extractZip] returns files exactly when the streaming extraction
    of the same archive completes and the sizes of its items add up to at
    most [maxTotalSize]; the files returned are then the items streamed,
    in their order. *)
Theorem extractZip_returns (opened : option ZipFile) (zipPath : FilePath)
    (options : ExtractOptions) (files : list ExtractedFile) :
  extractZip opened zipPath options = inr files ↔
  extractZipStreaming opened zipPath options = (files, Done) ∧
  (totalSize files ≤ limitTotalSize options)%N.
Proof.
  rewrite extractZip_spec. cbv zeta.
  destruct (extractZipStreaming opened zipPath options) as [yielded completion].
  simpl. destruct (N.ltb_spec (limitTotalSize options) (totalSize yielded)) as [Hover|Hin].
  - split; [done|]. intros [[= -> _] Hle]. lia.
  - destruct completion as [|e].
    + split; [by intros [= ->]|]. by intros [[= ->] _].
    + split; [done|]. by intros [[=] _].
Qed.

(** X2. [extractZip] fails with the total-size error as soon as the items
    streamed add up to more than [maxTotalSize], whatever the generator
    would have done afterwards; within the limit, an error of the
    generator is the error of [extractZip]. *)
Theorem extractZip_fails (opened : option ZipFile) (zipPath : FilePath)
    (options : ExtractOptions) :
  let result := extractZipStreaming opened zipPath options in
  ((limitTotalSize options < totalSize (fst result))%N →
   extractZip opened zipPath options =
     inl (ZipTooLarge zipPath (limitTotalSize options))) ∧
  (∀ e, (totalSize (fst result) ≤ limitTotalSize options)%N →
        snd result = Threw e →
        extractZip opened zipPath options = inl e).
Proof.
  cbv zeta. rewrite extractZip_spec. cbv zeta. split.
  - intros Hover. apply N.ltb_lt in Hover. by rewrite Hover.
  - intros e Hin He. apply N.ltb_ge in Hin. by rewrite Hin, He.
Qed.

Lemma fileEntries_cons e es :
  fileEntries (e :: es) =
  if Js.endsWith (fileName e) "/" then fileEntries es else e :: fileEntries es.
Proof.
  unfold fileEntries. simpl. unfold isDirectory.
  by destruct (Js.endsWith (fileName e) "/").
Qed.

Section Reading.

Variables (zipPath : FilePath) (maxE maxS : N).

Lemma readEntries_directories es ending n :
  readEntries zipPath maxE maxS (fileEntries es) ending n =
  readEntries zipPath maxE maxS es ending n.
Proof.
  revert n. induction es as [|e es IH]; intros n; [done|].
  rewrite fileEntries_cons. simpl.
  destruct (Js.endsWith (fileName e) "/") eqn:Hd; simpl.
  - apply IH.
  - rewrite Hd. by rewrite !IH.
Qed.

Lemma readEntries_initial es ending n :
  Forall2 yieldedFor
    (fst (readEntries zipPath maxE maxS es ending n))
    (take (length (fst (readEntries zipPath maxE maxS es ending n))) (fileEntries es)).
Proof.
  revert n. induction es as [|e es IH]; intros n.
  { simpl. destruct ending; constructor. }
  rewrite fileEntries_cons. simpl.
  destruct (Js.endsWith (fileName e) "/"); simpl; [apply IH|].
  destruct (maxE <? n + 1)%N; [constructor|].
  destruct (maxS <? uncompressedSize e)%N; [constructor|].
  destruct (readStream e) as [c|] eqn:Hc; simpl; [|constructor].
  destruct (maxS <? size c)%N; [constructor|].
  specialize (IH (n + 1)%N).
  destruct (readEntries zipPath maxE maxS es ending (n + 1)) as [files completion].
  simpl in *. by constructor.
Qed.

Lemma readEntries_done es ending n :
  snd (readEntries zipPath maxE maxS es ending n) = Done ↔
  ending = EndOfArchive ∧
  (fileEntries es = [] ∨ (n + N.of_nat (length (fileEntries es)) ≤ maxE)%N) ∧
  Forall (conforming maxS) (fileEntries es).
Proof.
  revert n. induction es as [|e es IH]; intros n.
  { simpl. destruct ending; split; try done.
    - intros _. split; [done|]. split; [by left|constructor].
    - by intros [? _]. }
  rewrite fileEntries_cons. simpl.
  destruct (Js.endsWith (fileName e) "/") eqn:Hd; [apply IH|].
  destruct (N.ltb_spec maxE (n + 1)) as [Hmany|Hfew].
  { split; [done|]. intros (_ & [?|Hle] & _); [done|simpl in Hle; exfalso; lia]. }
  destruct (N.ltb_spec maxS (uncompressedSize e)) as [Hbig|Hdecl].
  { split; [done|]. intros (_ & _ & Hall). inversion Hall as [|? ? [Hle _]]; subst. exfalso. lia. }
  destruct (readStream e) as [c|] eqn:Hc.
  2:{ split; [done|]. intros (_ & _ & Hall).
      inversion Hall as [|? ? (_ & c & Hc' & _)]; subst. congruence. }
  destruct (N.ltb_spec maxS (size c)) as [Hbig|Hsize].
  { split; [done|]. intros (_ & _ & Hall).
    inversion Hall as [|? ? (_ & c' & Hc' & Hle)]; subst.
    assert (c' = c) as -> by congruence. exfalso. lia. }
  specialize (IH (n + 1)%N).
  destruct (readEntries zipPath maxE maxS es ending (n + 1)) as [files completion].
  simpl in *. rewrite IH. split.
  - intros (He & Hcount & Hall). split; [done|]. split.
    + right. destruct Hcount as [->|Hle]; simpl; lia.
    + constructor; [|done]. split; [done|]. by exists c.
  - intros (He & Hcount & Hall). split; [done|]. split.
    + destruct Hcount as [?|Hle]; [done|].
      destruct (fileEntries es); [by left|right]. simpl in *. lia.
    + by inversion Hall.
Qed.

End Reading.

(** X3. Directory entries are transparent: an archive yields the same
    items and ends the same way as the archive without its directory
    entries, which therefore do not count towards [maxEntries]. *)
Theorem directories_are_skipped (zipPath : FilePath) (options : ExtractOptions)
    (es : list Entry) (ending : Ending) :
  extractZipStreaming (Some {| entries := es; ending := ending |}) zipPath options =
  extractZipStreaming (Some {| entries := fileEntries es; ending := ending |})
    zipPath options.
Proof. unfold extractZipStreaming. simpl. by rewrite readEntries_directories. Qed.

(** X4. The items yielded are the first file entries of the archive,
    one item for each of them and in archive order, each under the name
    of its entry and with the bytes its stream delivered: up to the point
    where extraction ends no file entry is skipped, reordered or
    renamed. *)
Theorem yields_follow_the_archive (zipPath : FilePath) (options : ExtractOptions)
    (zip : ZipFile) :
  let yielded := fst (extractZipStreaming (Some zip) zipPath options) in
  Forall2 yieldedFor yielded (take (length yielded) (fileEntries (entries zip))).
Proof. unfold extractZipStreaming. apply readEntries_initial. Qed.

(** X5. Streaming extraction completes without error exactly when the
    archive opens, its listing ends normally, it has at most [maxEntries]
    file entries, and every file entry is within [maxEntrySize] by header
    and by content and can be read; all file entries are then yielded. *)
Theorem extraction_completes (opened : option ZipFile) (zipPath : FilePath)
    (options : ExtractOptions) :
  snd (extractZipStreaming opened zipPath options) = Done ↔
  ∃ zip, opened = Some zip ∧
         ending zip = EndOfArchive ∧
         (N.of_nat (length (fileEntries (entries zip))) ≤ limitEntries options)%N ∧
         Forall (conforming (limitEntrySize options)) (fileEntries (entries zip)) ∧
         fst (extractZipStreaming opened zipPath options) =
           omap fileOf (fileEntries (entries zip)).
Proof.
  unfold extractZipStreaming, limitEntries, limitEntrySize.
  destruct opened as [zip|]; simpl.
  2:{ split; [done|]. by intros (zip & ? & _). }
  rewrite readEntries_done. split.
  - intros (He & Hcount & Hall). exists zip. split; [done|]. split; [done|].
    split; [destruct Hcount as [->|?]; simpl; lia|]. split; [done|].
    rewrite <- readEntries_directories, He.
    rewrite readEntries_all.
    + done.
    + apply Forall_forall. intros e He'.
      pose proof (proj1 (Forall_forall _ _) Hall e He') as [Hd Hc].
      split; [|done].
      apply list_elem_of_In, List.filter_In in He' as [_ Hnd].
      by apply negb_true_iff in Hnd.
    + destruct Hcount as [->|?]; simpl; lia.
  - intros (zip' & [= <-] & He & Hcount & Hall & _).
    split; [done|]. split; [right; lia|done].
Qed.

End ExtractorMore.

(** * Further properties of the branded strings *)

(** [isS3Key], for a value that is a string *)
Definition isS3Key (value : string) : bool :=
  (0 <? Js.len value)%nat && (Js.len value <=? S3_KEY_MAX_LENGTH)%nat.

Module BrandedFacts.
Import JsFacts.

(** A sequence of characters with no slash at either end. *)
Definition trimmedChars (l : list ascii) : Prop :=
  head l ≠ Some "/"%char ∧ last l ≠ Some "/"%char.

Definition trimmed (s : string) : Prop := trimmedChars (Js.chars s).

Lemma rev_reverse {A} (l : list A) : rev l = reverse l.
Proof. unfold reverse. apply rev_alt. Qed.

Lemma dropSlashes_head l : head (Js.dropSlashes l) ≠ Some "/"%char.
Proof.
  induction l as [|x l IH]; simpl; [done|].
  destruct (Ascii.eqb_spec x "/"); [done|]. simpl. congruence.
Qed.

Lemma dropSlashes_suffix l : ∃ k, l = replicate k "/"%char ++ Js.dropSlashes l.
Proof.
  induction l as [|x l [k IH]]; simpl; [by exists 0|].
  destruct (Ascii.eqb_spec x "/") as [->|_].
  - exists (S k). simpl. by f_equal.
  - by exists 0.
Qed.

Lemma dropSlashes_id l : head l ≠ Some "/"%char → Js.dropSlashes l = l.
Proof.
  destruct l as [|x l]; simpl; [done|].
  destruct (Ascii.eqb_spec x "/") as [->|_]; done.
Qed.

Lemma dropSlashes_last l :
  Js.dropSlashes l ≠ [] → last (Js.dropSlashes l) = last l.
Proof.
  intros Hne. destruct (dropSlashes_suffix l) as [k Hk].
  rewrite Hk at 2. rewrite last_app.
  destruct (last (Js.dropSlashes l)) eqn:Hl; [done|].
  by apply last_None in Hl.
Qed.

Definition trimChars (l : list ascii) : list ascii :=
  rev (Js.dropSlashes (rev (Js.dropSlashes l))).

Lemma trimChars_trimmed l : trimmedChars (trimChars l).
Proof.
  unfold trimChars, trimmedChars. rewrite !rev_reverse, head_reverse, last_reverse.
  split; [|apply dropSlashes_head].
  destruct (decide (Js.dropSlashes (reverse (Js.dropSlashes l)) = [])) as [->|Hne];
    [done|].
  rewrite dropSlashes_last by done. rewrite last_reverse. apply dropSlashes_head.
Qed.

Lemma trimChars_id l : trimmedChars l → trimChars l = l.
Proof.
  intros [Hh Hl]. unfold trimChars. rewrite (dropSlashes_id l) by done.
  rewrite dropSlashes_id; [apply rev_involutive|].
  by rewrite rev_reverse, head_reverse.
Qed.

Lemma trimChars_slash l : trimmedChars l → l ≠ [] → trimChars (l ++ ["/"%char]) = l.
Proof.
  intros [Hh Hl] Hne. unfold trimChars.
  rewrite (dropSlashes_id (l ++ _)).
  2:{ destruct l; [done|]. done. }
  rewrite rev_unit. simpl.
  rewrite dropSlashes_id; [apply rev_involutive|].
  by rewrite rev_reverse, head_reverse.
Qed.

Lemma trimSlashes_chars s : Js.trimSlashes s = Js.str (trimChars (Js.chars s)).
Proof. done. Qed.

Lemma trimSlashes_trimmed s : trimmed (Js.trimSlashes s).
Proof. unfold trimmed. rewrite trimSlashes_chars, chars_str. apply trimChars_trimmed. Qed.

Lemma trimSlashes_id s : trimmed s → Js.trimSlashes s = s.
Proof.
  intros Hs. rewrite trimSlashes_chars, trimChars_id by done. apply str_chars.
Qed.

Lemma chars_app s t : Js.chars (s +:+ t) = Js.chars s ++ Js.chars t.
Proof.
  rewrite <- (str_chars s) at 1. rewrite <- (str_chars t) at 1.
  by rewrite <- str_app, chars_str.
Qed.

Lemma append_assoc (s t u : string) : (s +:+ t) +:+ u = s +:+ t +:+ u.
Proof.
  rewrite <- (str_chars ((s +:+ t) +:+ u)), <- (str_chars (s +:+ t +:+ u)).
  by rewrite !chars_app, app_assoc.
Qed.

Lemma chars_nil s : Js.chars s = [] ↔ s = "".
Proof. destruct s; simpl; split; done. Qed.

Lemma trimSlashes_slash n :
  trimmed n → n ≠ "" → Js.trimSlashes (n +:+ "/") = n.
Proof.
  intros Hn Hne. rewrite trimSlashes_chars, chars_app. simpl.
  rewrite trimChars_slash; [apply str_chars|done|]. by rewrite chars_nil.
Qed.

Lemma prefix_shape value :
  mkS3Prefix value = "" ∨
  ∃ stem, mkS3Prefix value = stem +:+ "/" ∧ stem ≠ "" ∧ trimmed stem.
Proof.
  unfold mkS3Prefix. destruct (Js.truthy (Js.trimSlashes value)) eqn:Ht; [|by left].
  right. exists (Js.trimSlashes value). split; [reflexivity|].
  split; [by apply ParserFacts.truthy_true|apply trimSlashes_trimmed].
Qed.

(** X6. [S3Prefix] normalises: its result is empty, or a stem without a
    slash at either end followed by one slash; applying it twice changes
    nothing more. *)
Theorem prefix_normal_form (value : string) :
  mkS3Prefix (mkS3Prefix value) = mkS3Prefix value ∧
  (mkS3Prefix value = "" ∨
   ∃ stem, mkS3Prefix value = stem +:+ "/" ∧ stem ≠ "" ∧ trimmed stem).
Proof.
  split; [|apply prefix_shape].
  destruct (prefix_shape value) as [-> | (stem & -> & Hne & Hstem)]; [done|].
  unfold mkS3Prefix. rewrite trimSlashes_slash by done.
  apply ParserFacts.truthy_true in Hne. by rewrite Hne.
Qed.

Lemma truthy_cases s : (Js.truthy s = true ∧ s ≠ "") ∨ (Js.truthy s = false ∧ s = "").
Proof.
  destruct (Js.truthy s) eqn:Ht.
  - left. split; [done|]. by apply ParserFacts.truthy_true.
  - right. split; [done|]. by apply ParserFacts.truthy_false.
Qed.

Lemma filter_truthy_cons p ps :
  filter (λ p, Is_true (Js.truthy p)) (p :: ps) =
  if Js.truthy p then p :: filter (λ p, Is_true (Js.truthy p)) ps
  else filter (λ p, Is_true (Js.truthy p)) ps.
Proof.
  destruct (Js.truthy p) eqn:Ht.
  - rewrite filter_cons_True; [done|]. by rewrite Ht.
  - rewrite filter_cons_False; [done|]. rewrite Ht. simpl. tauto.
Qed.

Lemma trimSlashes_empty s : s = "" → Js.trimSlashes s = "".
Proof. by intros ->. Qed.

(** X7. The key under which a file is stored: for a prefix made by
    [S3Prefix] and a name that is not empty once its outer slashes are
    removed, [joinS3Path(prefix, name)] is the prefix followed by the name
    without its outer slashes. *)
Theorem destination_is_prefix_then_name (value name : string) :
  Js.trimSlashes name ≠ "" →
  joinS3Path [mkS3Prefix value; name] = mkS3Prefix value +:+ Js.trimSlashes name.
Proof.
  intros Hname.
  assert (Hn : Js.truthy name = true).
  { destruct (truthy_cases name) as [[? _]|[_ ->]]; [done|]. done. }
  assert (Ht : Js.truthy (Js.trimSlashes name) = true)
    by (by apply ParserFacts.truthy_true).
  destruct (prefix_shape value) as [Hp | (stem & Hp & Hne & Hstem)].
  - rewrite Hp. unfold joinS3Path. rewrite !filter_truthy_cons. simpl.
    rewrite Hn. simpl. rewrite !filter_truthy_cons, Ht. done.
  - rewrite Hp. unfold joinS3Path. rewrite !filter_truthy_cons.
    assert (Hs : Js.truthy (stem +:+ "/") = true).
    { apply ParserFacts.truthy_true. intros Heq.
      apply (f_equal Js.chars) in Heq. rewrite chars_app in Heq.
      by destruct (Js.chars stem). }
    rewrite Hs, Hn. simpl. rewrite trimSlashes_slash by done.
    rewrite !filter_truthy_cons, Ht.
    apply ParserFacts.truthy_true in Hne. rewrite Hne. simpl.
    by rewrite append_assoc.
Qed.

Lemma join_trimmed segments :
  Forall (λ s, trimmed s ∧ s ≠ "") segments →
  trimmed (Js.join segments) ∧ (segments ≠ [] → Js.join segments ≠ "").
Proof.
  induction 1 as [|p segments [Hp Hne] Hrest [IHt IHne]]; [by split|].
  destruct segments as [|q rest]; [by split|].
  change (Js.join (p :: q :: rest)) with (p +:+ "/" +:+ Js.join (q :: rest)).
  specialize (IHne ltac:(done)).
  assert (Hchars : Js.chars (p +:+ "/" +:+ Js.join (q :: rest)) =
                   Js.chars p ++ "/"%char :: Js.chars (Js.join (q :: rest)))
    by (by rewrite !chars_app).
  split.
  - unfold trimmed, trimmedChars. rewrite Hchars. split.
    + rewrite head_app. destruct Hp as [Hh _].
      destruct (head (Js.chars p)) eqn:Hhd; [done|].
      apply head_None, chars_nil in Hhd. done.
    + rewrite last_app, last_cons. destruct IHt as [_ Hl].
      destruct (last (Js.chars (Js.join (q :: rest)))) eqn:Hlast; [done|].
      apply last_None, chars_nil in Hlast. done.
  - intros _ Heq. apply (f_equal Js.chars) in Heq. rewrite Hchars in Heq.
    by destruct (Js.chars p).
Qed.

Definition segmentsOf (parts : list string) : list string :=
  filter (λ p, Is_true (Js.truthy p))
    (map Js.trimSlashes (filter (λ p, Is_true (Js.truthy p)) parts)).

Lemma segmentsOf_cons p parts :
  segmentsOf (p :: parts) =
  if Js.truthy (Js.trimSlashes p) then Js.trimSlashes p :: segmentsOf parts
  else segmentsOf parts.
Proof.
  unfold segmentsOf. rewrite filter_truthy_cons.
  destruct (truthy_cases p) as [[Ht _]|[Ht ->]]; rewrite Ht; simpl.
  - by rewrite filter_truthy_cons.
  - done.
Qed.

Lemma segmentsOf_trimmed parts :
  Forall (λ s, trimmed s ∧ s ≠ "") (segmentsOf parts).
Proof.
  induction parts as [|p parts IH]; [constructor|].
  rewrite segmentsOf_cons. destruct (truthy_cases (Js.trimSlashes p)) as [[Ht Hne]|[Ht _]];
    rewrite Ht; [|done].
  constructor; [|done]. split; [apply trimSlashes_trimmed|done].
Qed.

Lemma segmentsOf_nil parts :
  segmentsOf parts = [] ↔ Forall (λ p, Js.trimSlashes p = "") parts.
Proof.
  induction parts as [|p parts IH]; [by split; [constructor|]|].
  rewrite segmentsOf_cons. destruct (truthy_cases (Js.trimSlashes p)) as [[Ht Hne]|[Ht He]];
    rewrite Ht.
  - split; [done|]. by inversion 1.
  - rewrite IH. split; [by constructor|by inversion 1].
Qed.

(** X8. [joinS3Path] never returns a path that starts or ends with a
    slash, and it returns the empty path exactly when every part is empty
    or made of slashes only: such parts are left out, and no slash is
    doubled by the joining. *)
Theorem joined_path_is_trimmed (parts : list string) :
  trimmed (joinS3Path parts) ∧
  (joinS3Path parts = "" ↔ Forall (λ p, Js.trimSlashes p = "") parts).
Proof.
  change (joinS3Path parts) with (Js.join (segmentsOf parts)).
  destruct (join_trimmed (segmentsOf parts) (segmentsOf_trimmed parts)) as [Ht Hne].
  split; [done|]. rewrite <- segmentsOf_nil. split.
  - intros Hj. destruct (segmentsOf parts) as [|? ?] eqn:Hs; [done|].
    by destruct Hne.
  - by intros ->.
Qed.

(** X9. The constructor [S3Key] and the guard [isS3Key] agree: the
    constructor returns its argument exactly for the strings that the
    guard accepts, those of 1 to 1024 characters, and throws for all
    others. *)
Theorem key_constructor_agrees_with_guard (value : string) :
  (mkS3Key value = inr value ↔ isS3Key value = true) ∧
  (isS3Key value = true ↔ (1 ≤ Js.len value ≤ S3_KEY_MAX_LENGTH)%nat) ∧
  (isS3Key value = false → ∃ e, mkS3Key value = inl e).
Proof.
  unfold mkS3Key, isS3Key.
  destruct value as [|c s].
  { change (Js.truthy "") with false. change (Js.len "") with 0. simpl.
    split; [done|]. split; [split; [done|lia]|]. intros _. by eexists. }
  change (Js.truthy (String c s)) with true.
  change (Js.len (String c s)) with (S (Js.len s)). simpl negb. cbv iota.
  change (0 <? S (Js.len s))%nat with true. rewrite andb_true_l.
  destruct (Nat.ltb_spec S3_KEY_MAX_LENGTH (S (Js.len s))) as [Hlong|Hfit];
    destruct (Nat.leb_spec (S (Js.len s)) S3_KEY_MAX_LENGTH) as [Hle|Hgt]; try lia.
  - split; [done|]. split; [split; [done|lia]|]. intros _. by eexists.
  - split; [done|]. split; [split; [lia|done]|done].
Qed.

End BrandedFacts.

(** * [collectResults] ([result/index.ts]) *)

Fixpoint collectFrom {T E} (results : list (Result T E)) (values : list T)
    : Result (list T) E :=
  match results with
  | [] => Ok values
  | Ok value :: rest => collectFrom rest (values ++ [value])
  | Err error :: _ => Err error
  end.

Definition collectResults {T E} (results : list (Result T E)) : Result (list T) E :=
  collectFrom results [].

Module ResultFacts.

Lemma collectFrom_partition {T E} (results : list (Result T E)) (values : list T) :
  collectFrom results values =
  match snd (partitionResults results) with
  | [] => Ok (values ++ fst (partitionResults results))
  | error :: _ => Err error
  end.
Proof.
  revert values. induction results as [|[v|e] rest IH]; intros values; simpl.
  - by rewrite app_nil_r.
  - rewrite IH. destruct (partitionResults rest) as [oks errs]. simpl.
    destruct errs; [|done]. by rewrite <- app_assoc.
  - by destruct (partitionResults rest).
Qed.

(** X10. [collectResults] and [partitionResults] agree: the first returns
    the values exactly when the second finds no failure, and then they are
    the same values in the same order; otherwise the first returns the
    earliest failure, the one the second lists first. *)
Theorem collect_agrees_with_partition {T E} (results : list (Result T E)) :
  (∀ values, collectResults results = (Ok values : Result (list T) E) ↔
             partitionResults results = (values, [])) ∧
  (∀ error, collectResults results = (Err error : Result (list T) E) ↔
            head (snd (partitionResults results)) = Some error).
Proof.
  unfold collectResults. rewrite collectFrom_partition.
  destruct (partitionResults results) as [oks errs]. simpl.
  destruct errs as [|e errs]; simpl; split.
  - intros values. split; [by intros [= ->]|by intros [= ->]].
  - intros error. split; done.
  - intros values. split; [done|by intros [= _]].
  - intros error. split; [by intros [= ->]|by intros [= ->]].
Qed.

End ResultFacts.

(** * Errors with causes ([errors/base.ts])

    A thrown [Error] is a plain one or an [AppError]; an [AppError] has
    the name of its class, a code, a message, the contexts added to it and
    possibly a cause.  Stack traces and timestamps are left out. *)

Module ErrorModel.

Inductive ErrorValue :=
| PlainError (message : string)
| AppErrorValue (e : AppErr)
with AppErr :=
| MkAppErr (name code message : string) (context : list string)
    (cause : option ErrorValue).

Definition err_name (e : AppErr) : string :=
  match e with MkAppErr n _ _ _ _ => n end.
Definition err_code (e : AppErr) : string :=
  match e with MkAppErr _ c _ _ _ => c end.
Definition err_message (e : AppErr) : string :=
  match e with MkAppErr _ _ m _ _ => m end.
Definition err_context (e : AppErr) : list string :=
  match e with MkAppErr _ _ _ ctx _ => ctx end.
Definition err_cause (e : AppErr) : option ErrorValue :=
  match e with MkAppErr _ _ _ _ c => c end.

(** The constructor: a cause that is an [Error] is kept, any other
    defined value is wrapped into [new Error(String(cause))]; [inr text]
    stands for such a value and its rendering. *)
Definition newAppError (name code message : string)
    (cause : option (ErrorValue + string)) : AppErr :=
  MkAppErr name code message []
    (match cause with
     | Some (inl e) => Some e
     | Some (inr text) => Some (PlainError text)
     | None => None
     end).

(** [withContext]: a copy with one more context.  The copy is made by
    [Object.create] and [Object.assign], which copies the enumerable own
    properties: the name, the code, the contexts and the cause, but not
    the message that the constructor of [Error] has set, which is not
    enumerable; the copy reads the empty message of [Error.prototype]. *)
Definition withContext (ctx : string) (e : AppErr) : AppErr :=
  MkAppErr (err_name e) (err_code e) "" (err_context e ++ [ctx]) (err_cause e).

(** The getter [rootCause]. *)
Fixpoint rootCause (e : AppErr) : ErrorValue :=
  match e with
  | MkAppErr _ _ _ _ cause =>
      match cause with
      | Some (AppErrorValue c) => rootCause c
      | Some (PlainError m) => PlainError m
      | None => AppErrorValue e
      end
  end.

(** An error at which a chain of causes ends. *)
Definition terminal (v : ErrorValue) : Prop :=
  match v with
  | PlainError _ => True
  | AppErrorValue e => err_cause e = None
  end.

(** [v] is [e] or one of the causes behind it. *)
Fixpoint inChain (v : ErrorValue) (e : AppErr) : Prop :=
  v = AppErrorValue e ∨
  match e with
  | MkAppErr _ _ _ _ cause =>
      match cause with
      | Some (AppErrorValue c) => inChain v c
      | Some (PlainError m) => v = PlainError m
      | None => False
      end
  end.

Fixpoint AppErr_induction (P : AppErr → Prop)
    (Hnone : ∀ n c m ctx, P (MkAppErr n c m ctx None))
    (Hplain : ∀ n c m ctx msg, P (MkAppErr n c m ctx (Some (PlainError msg))))
    (Happ : ∀ n c m ctx e, P e → P (MkAppErr n c m ctx (Some (AppErrorValue e))))
    (e : AppErr) : P e :=
  match e with
  | MkAppErr n c m ctx cause =>
      match cause with
      | None => Hnone n c m ctx
      | Some (PlainError msg) => Hplain n c m ctx msg
      | Some (AppErrorValue e') =>
          Happ n c m ctx e' (AppErr_induction P Hnone Hplain Happ e')
      end
  end.

(** X11. The root cause of an [AppError] lies on its chain of causes and
    ends it: it is a plain error or an [AppError] without a cause.  It is
    the error itself exactly when the error has no cause. *)
Theorem root_cause_ends_the_chain (e : AppErr) :
  inChain (rootCause e) e ∧
  terminal (rootCause e) ∧
  (rootCause e = AppErrorValue e ↔ err_cause e = None).
Proof.
  induction e as [n c m ctx | n c m ctx msg | n c m ctx e (IHin & IHt & IHself)]
    using AppErr_induction.
  - simpl. split; [by left|]. done.
  - simpl. split; [by right|]. split; [done|]. split; done.
  - split; [by right|]. split; [done|]. split; [|done].
    intros Hself. exfalso. simpl in Hself.
    assert (Hsize : ∀ x y, rootCause x = AppErrorValue y → err_cause y = None).
    { intros x. induction x as [| |? ? ? ? x IH] using AppErr_induction;
        simpl; intros y Hy; [by injection Hy as <-|done|by apply IH]. }
    by apply Hsize in Hself.
Qed.

(** X12. Contexts accumulate in the order in which they are added, and
    adding them changes neither the name, the code nor the cause; the
    root cause of an error that has a cause is unchanged.  The message is
    not carried over: once a context has been added the message of the
    copy is empty. *)
Theorem contexts_accumulate (e : AppErr) (ctxs : list string) :
  let e' := foldl (λ acc ctx, withContext ctx acc) e ctxs in
  err_context e' = err_context e ++ ctxs ∧
  err_name e' = err_name e ∧ err_code e' = err_code e ∧
  err_cause e' = err_cause e ∧
  err_message e' = (if decide (ctxs = []) then err_message e else "") ∧
  (err_cause e ≠ None → rootCause e' = rootCause e).
Proof.
  cbv zeta. revert e. induction ctxs as [|ctx ctxs IH]; intros e; simpl.
  { by rewrite app_nil_r. }
  destruct (IH (withContext ctx e)) as (Hc & Hn & Hco & Hca & Hm & Hr).
  rewrite Hc, Hn, Hco, Hca, Hm. simpl. rewrite <- app_assoc.
  split; [done|]. split; [done|]. split; [done|]. split; [done|].
  split; [by destruct (decide (ctxs = []))|].
  intros Hcause. rewrite Hr by done.
  destruct e as [n c m ctx0 [[msg|c0]|]]; done.
Qed.

End ErrorModel.

(** * Listing the eligible archives ([index.ts], [tryListZipFiles])

    The directory is the host's: [readdir fs d] is the outcome of
    [readdir(d)], [fileAgeMs fs p] that of [stat(p)] followed by
    [Date.now() - stats.mtimeMs], taken in whole milliseconds (the code
    only compares ages and takes their maximum). *)

Record FileSystem := {
  readdir : FilePath → JsError + list string;
  fileAgeMs : FilePath → JsError + Z
}.

(** [tryGetFileAgeMs] ([routing/file_router.ts]) *)
Definition tryGetFileAgeMs (fs : FileSystem) (filePath : FilePath)
    : Result Z FileSystemError :=
  match fileAgeMs fs filePath with
  | inr age => Ok age
  | inl _ => Err (MkFsError filePath "stat")
  end.

Definition isValidZipFile (filename : string) : bool :=
  Js.endsWith filename ".zip" && negb (Js.startsWith filename ".").

(** The loop [for (const zipFile of zipFiles)] over its three variables. *)
Fixpoint ageFilter (fs : FileSystem) (directory : FilePath) (minFileAgeMs : Z)
    (zipFiles readyFiles : list string) (skippedTooNew : nat) (oldest : Z)
    : list string * nat * Z :=
  match zipFiles with
  | [] => (readyFiles, skippedTooNew, oldest)
  | zipFile :: rest =>
      let zipPath := pathJoin directory zipFile in
      match tryGetFileAgeMs fs zipPath with
      | Ok age =>
          let oldest' := Z.max oldest age in
          if (minFileAgeMs <=? 0)%Z || (minFileAgeMs <=? age)%Z then
            ageFilter fs directory minFileAgeMs rest (readyFiles ++ [zipFile])
              skippedTooNew oldest'
          else
            ageFilter fs directory minFileAgeMs rest readyFiles
              (S skippedTooNew) oldest'
      | Err _ =>
          ageFilter fs directory minFileAgeMs rest (readyFiles ++ [zipFile])
            skippedTooNew oldest
      end
  end.

Definition tryListZipFiles (fs : FileSystem) (directory : FilePath)
    (minFileAgeMs : Z) : Result ZipListResult FileSystemError :=
  match readdir fs directory with
  | inl _ => Err (MkFsError directory "list")
  | inr entries =>
      let zipFiles := List.filter isValidZipFile entries in
      if (length zipFiles =? 0)%nat then Ok {| zl_files := []; oldestAgeMs := 0 |}
      else
        let '(readyFiles, _, oldest) :=
          ageFilter fs directory minFileAgeMs zipFiles [] 0 0%Z in
        Ok {| zl_files := readyFiles; oldestAgeMs := oldest |}
  end.

Module ListingFacts.

Section Listing.

Variable fs : FileSystem.
Variable directory : FilePath.
Variable minFileAgeMs : Z.

(** The age of a listed name, when [stat] gives one. *)
Definition ageOf (file : string) : option Z :=
  match fileAgeMs fs (pathJoin directory file) with
  | inr age => Some age
  | inl _ => None
  end.

(** A name is old enough when no minimum is set, when its age is not known
    or when its age reaches the minimum. *)
Definition oldEnough (file : string) : bool :=
  match ageOf file with
  | Some age => (minFileAgeMs <=? 0)%Z || (minFileAgeMs <=? age)%Z
  | None => true
  end.

Lemma ageFilter_spec (zipFiles readyFiles : list string) (skipped : nat) (oldest : Z) :
  ageFilter fs directory minFileAgeMs zipFiles readyFiles skipped oldest =
  (readyFiles ++ List.filter oldEnough zipFiles,
   skipped + length (List.filter (λ f, negb (oldEnough f)) zipFiles),
   foldl Z.max oldest (omap ageOf zipFiles)).
Proof.
  revert readyFiles skipped oldest.
  induction zipFiles as [|f rest IH]; intros readyFiles skipped oldest.
  { simpl. by rewrite app_nil_r, Nat.add_0_r. }
  cbn [ageFilter List.filter omap list_omap]. unfold tryGetFileAgeMs.
  destruct (fileAgeMs fs (pathJoin directory f)) as [e|age] eqn:Hstat.
  - assert (Ha : ageOf f = None) by (unfold ageOf; by rewrite Hstat).
    assert (Ho : oldEnough f = true) by (unfold oldEnough; by rewrite Ha).
    rewrite Ha, Ho, IH. cbn [negb]. by rewrite <- app_assoc.
  - assert (Ha : ageOf f = Some age) by (unfold ageOf; by rewrite Hstat).
    assert (Ho : oldEnough f = (minFileAgeMs <=? 0)%Z || (minFileAgeMs <=? age)%Z)
      by (unfold oldEnough; by rewrite Ha).
    rewrite Ha, Ho, IH.
    destruct ((minFileAgeMs <=? 0)%Z || (minFileAgeMs <=? age)%Z); cbn [negb length foldl].
    + by rewrite <- app_assoc.
    + by rewrite Nat.add_succ_r.
Qed.

Lemma foldl_max_spec (ages : list Z) (start : Z) :
  (start ≤ foldl Z.max start ages)%Z ∧
  (∀ age, age ∈ ages → (age ≤ foldl Z.max start ages)%Z) ∧
  (foldl Z.max start ages = start ∨ foldl Z.max start ages ∈ ages).
Proof.
  revert start. induction ages as [|a ages IH]; intros start; simpl.
  { split; [lia|]. split; [|by left]. intros age Hin. by apply elem_of_nil in Hin. }
  destruct (IH (Z.max start a)) as (Hle & Hall & Hwhich).
  split; [lia|]. split.
  - intros age [->|Hin]%elem_of_cons; [lia|by apply Hall].
  - destruct Hwhich as [Heq|Hin].
    + rewrite Heq. destruct (Z.max_spec start a) as [[_ ->]|[_ ->]];
        [right; apply elem_of_cons; by left|by left].
    + right. apply elem_of_cons. by right.
Qed.

Lemma listing_shape (entries : list string) :
  readdir fs directory = inr entries →
  tryListZipFiles fs directory minFileAgeMs =
  Ok {| zl_files := List.filter oldEnough (List.filter isValidZipFile entries);
        oldestAgeMs := foldl Z.max 0%Z (omap ageOf (List.filter isValidZipFile entries)) |}.
Proof.
  intros Hdir. unfold tryListZipFiles. rewrite Hdir. cbv zeta.
  destruct (List.filter isValidZipFile entries) as [|f rest] eqn:Hzips; [done|].
  cbn [length Nat.eqb]. by rewrite ageFilter_spec.
Qed.

Lemma elem_of_filter_bool {A} (p : A → bool) (l : list A) (x : A) :
  x ∈ List.filter p l ↔ x ∈ l ∧ p x = true.
Proof. rewrite !list_elem_of_In. apply filter_In. Qed.

Lemma sublist_filter_bool {A} (p : A → bool) (l : list A) :
  List.filter p l `sublist_of` l.
Proof.
  induction l as [|x l IH]; simpl; [done|].
  destruct (p x); [by apply sublist_skip|by apply sublist_cons].
Qed.

End Listing.

(** X13. The listing fails exactly when the directory cannot be read.
    Otherwise it returns, in the order of the directory, the names that
    end in [.zip], do not start with a dot and are old enough: no minimum
    age is set, or the age of the file is not known, or it reaches the
    minimum. *)
Theorem listing_selects_ready_archives (fs : FileSystem) (directory : FilePath)
    (minFileAgeMs : Z) :
  match readdir fs directory with
  | inl _ =>
      tryListZipFiles fs directory minFileAgeMs = Err (MkFsError directory "list")
  | inr entries =>
      ∃ listing,
        tryListZipFiles fs directory minFileAgeMs = Ok listing ∧
        zl_files listing `sublist_of` entries ∧
        ∀ file,
          file ∈ zl_files listing ↔
          file ∈ entries ∧ isValidZipFile file = true ∧
          ((minFileAgeMs ≤ 0)%Z ∨
           ∀ age, fileAgeMs fs (pathJoin directory file) = inr age →
                  (minFileAgeMs ≤ age)%Z)
  end.
Proof.
  destruct (readdir fs directory) as [e|entries] eqn:Hdir.
  { unfold tryListZipFiles. by rewrite Hdir. }
  eexists. split; [by apply listing_shape|]. cbn [zl_files]. split.
  { etrans; apply sublist_filter_bool. }
  intros file. rewrite !elem_of_filter_bool. unfold oldEnough, ageOf.
  destruct (fileAgeMs fs (pathJoin directory file)) as [e|age].
  - split; [intros [[? ?] _]|intros (? & ? & _)]; [|done].
    split; [done|]. split; [done|]. by right.
  - rewrite orb_true_iff, !Z.leb_le. split.
    + intros [[? ?] [?|?]]; (split; [done|]); (split; [done|]);
        [by left|right; by intros ? [= <-]].
    + intros (? & ? & [?|Hage]); (split; [done|]); [by left|right; by apply Hage].
Qed.

(** X14. The oldest age that a listing reports is never negative and
    bounds the age of every name of the directory that ends in [.zip] and
    does not start with a dot, also of those left out as too new; unless
    it is 0 it is the age of one of them. *)
Theorem oldest_age_covers_every_archive (fs : FileSystem) (directory : FilePath)
    (minFileAgeMs : Z) (entries : list string) (listing : ZipListResult) :
  readdir fs directory = inr entries →
  tryListZipFiles fs directory minFileAgeMs = Ok listing →
  (0 ≤ oldestAgeMs listing)%Z ∧
  (∀ file age,
     file ∈ entries → isValidZipFile file = true →
     fileAgeMs fs (pathJoin directory file) = inr age →
     (age ≤ oldestAgeMs listing)%Z) ∧
  (oldestAgeMs listing = 0%Z ∨
   ∃ file, file ∈ entries ∧ isValidZipFile file = true ∧
           fileAgeMs fs (pathJoin directory file) = inr (oldestAgeMs listing)).
Proof.
  intros Hdir Hlist. rewrite (listing_shape _ _ _ _ Hdir) in Hlist.
  injection Hlist as <-. cbn [oldestAgeMs].
  set (zips := List.filter isValidZipFile entries).
  destruct (foldl_max_spec (omap (ageOf fs directory) zips) 0) as (Hle & Hall & Hwhich).
  split; [done|]. split.
  - intros file age Hin Hvalid Hage. apply Hall.
    apply list_elem_of_omap. exists file. split.
    + by apply elem_of_filter_bool.
    + unfold ageOf. by rewrite Hage.
  - destruct Hwhich as [?|Hin]; [by left|right].
    apply list_elem_of_omap in Hin as (file & [Hin Hvalid]%elem_of_filter_bool & Hage).
    exists file. split; [done|]. split; [done|].
    unfold ageOf in Hage.
    destruct (fileAgeMs fs (pathJoin directory file)); [done|].
    by injection Hage as ->.
Qed.

End ListingFacts.

(** * What the store holds after an upload *)

Module StoreFacts.
Import UploaderFacts.

Section Stored.

Variable host : Host.

(** The objects that the store accepts among the requests for [fs], the
    first of which is the n-th request. *)
Fixpoint acceptedOf (n : nat) (bucket : S3Bucket) (fs : list FileToUpload)
    : list (S3Key * Buffer) :=
  match fs with
  | [] => []
  | f :: rest =>
      (if isOk (outcomeOf host n bucket f) then [(key f, content f)] else []) ++
      acceptedOf (S n) bucket rest
  end.

Lemma acceptedOf_app n bucket fs gs :
  acceptedOf n bucket (fs ++ gs) =
  acceptedOf n bucket fs ++ acceptedOf (n + length fs) bucket gs.
Proof.
  revert n. induction fs as [|f fs IH]; intros n; simpl.
  - by rewrite Nat.add_0_r.
  - rewrite IH, <- app_assoc. do 3 f_equal. lia.
Qed.

Lemma acceptedOf_successes n bucket fs :
  map fst (acceptedOf n bucket fs) =
  map up_key (fst (partitionResults (outcomes host n bucket fs))).
Proof.
  revert n. induction fs as [|f fs IH]; intros n; simpl; [done|].
  rewrite map_app, IH. unfold outcomeOf.
  destruct (s3_send host n bucket (key f) (content f)); simpl;
    by destruct (partitionResults (outcomes host (S n) bucket fs)).
Qed.



Lemma tryUploadFile_objects bucket k c w :
  objects (snd (tryUploadFile host bucket k c w)) =
  acceptedOf (sendsIssued w) bucket [{| key := k; content := c |}] ++ objects w.
Proof.
  unfold tryUploadFile. simpl. unfold outcomeOf. simpl.
  by destruct (s3_send host (sendsIssued w) bucket k c).
Qed.

Lemma uploadChunk_objects bucket chunk w :
  objects (snd (uploadChunk host bucket chunk w)) =
  rev (acceptedOf (sendsIssued w) bucket chunk) ++ objects w.
Proof.
  revert w. induction chunk as [|f chunk IH]; intros w; [done|].
  destruct (tryUploadFile_run host bucket (key f) (content f) w) as (w1 & H1 & Hn1 & _).
  destruct (uploadChunk_run host bucket chunk w1) as (w2 & H2 & _ & _).
  pose proof (tryUploadFile_objects bucket (key f) (content f) w) as Ho1.
  rewrite H1 in Ho1. simpl in Ho1. rewrite app_nil_r in Ho1.
  pose proof (IH w1) as Ho2. rewrite H2 in Ho2. simpl in Ho2.
  unfold uploadChunk in *. cbn [mapM]. unfold bind at 1. rewrite H1.
  unfold bind at 1. rewrite H2. unfold ret. cbn [snd acceptedOf].
  rewrite Ho2, Ho1, Hn1, rev_app_distr, <- app_assoc. f_equal.
  destruct f as [k c]. simpl. by destruct (isOk _).
Qed.

Lemma uploadChunksFrom_objects bucket fs concurrency fuel i results w :
  0 < concurrency → length fs - i < fuel →
  objects (snd (uploadChunksFrom host fuel bucket fs concurrency i results w)) =
  rev (acceptedOf (sendsIssued w) bucket (drop i fs)) ++ objects w.
Proof.
  intros Hc. revert i results w.
  induction fuel as [|fuel IH]; intros i results w Hfuel; simpl; [lia|].
  destruct (Nat.ltb_spec i (length fs)) as [Hlt|Hge].
  - unfold sliceList. replace (i + concurrency - i) with concurrency by lia.
    destruct (uploadChunk_run host bucket (take concurrency (drop i fs)) w)
      as (w1 & H1 & Hn1 & _).
    pose proof (uploadChunk_objects bucket (take concurrency (drop i fs)) w) as Ho1.
    rewrite H1 in Ho1. simpl in Ho1.
    unfold bind. rewrite H1. rewrite IH by lia. rewrite Ho1, Hn1.
    rewrite <- (take_drop concurrency (drop i fs)) at 3.
    rewrite acceptedOf_app, rev_app_distr, <- app_assoc, drop_drop. done.
  - rewrite drop_ge by lia. done.
Qed.

Lemma uploadFilesInChunks_objects bucket fs w :
  objects (snd (uploadFilesInChunks host bucket fs UPLOAD_CONCURRENCY w)) =
  rev (acceptedOf (sendsIssued w) bucket fs) ++ objects w.
Proof.
  unfold uploadFilesInChunks.
  rewrite uploadChunksFrom_objects; [by rewrite drop_0|unfold UPLOAD_CONCURRENCY; lia|lia].
Qed.

(** The call of the uploader for a batch with well-formed destinations:
    its result, the requests it issued and the objects it stored. *)
Lemma tryUploadBatch_stored bucket batch w :
  Forall (validDestination batch) (files batch) →
  ∃ r w',
    tryUploadBatch host bucket batch w = (Val r, w') ∧
    objects w' = rev (acceptedOf (sendsIssued w) bucket (addressed batch)) ++ objects w ∧
    map up_key (successful r) =
      map fst (acceptedOf (sendsIssued w) bucket (addressed batch)) ∧
    length (successful r) + length (failed r) = length (files batch) ∧
    sendsOnly (noted batch w) w'.
Proof.
  intros Hvalid.
  destruct (tryUploadBatch_run host bucket batch w Hvalid) as (w' & Hrun & _ & Hf).
  eexists _, w'. split; [exact Hrun|]. split; [|split; [|split; [|done]]].
  - pose proof (uploadFilesInChunks_objects bucket (addressed batch) (noted batch w))
      as Hobj.
    revert Hrun. unfold tryUploadBatch.
    unfold bind at 1. simpl. unfold bind at 1.
    rewrite (address_run batch (files batch) _ Hvalid).
    unfold bind at 1. fold (addressed batch).
    unfold noted in Hobj. simpl in Hobj. revert Hobj.
    destruct (uploadFilesInChunks host bucket (addressed batch) UPLOAD_CONCURRENCY _)
      as [[results| |] w1]; [|done..].
    simpl. intros Hobj Hrun.
    assert (w1 = w') as ->.
    { destruct (partitionResults results) as [oks errs].
      destruct (0 <? length errs)%nat; by injection Hrun. }
    exact Hobj.
  - rewrite acceptedOf_successes. cbv zeta.
    destruct (partitionResults _) as [oks errs]. simpl.
    by destruct errs.
  - cbv zeta.
    pose proof (partitionResults_length
                  (outcomes host (sendsIssued w) bucket (addressed batch))) as Hlen.
    rewrite outcomes_length in Hlen. unfold addressed in Hlen at 3.
    rewrite length_map in Hlen.
    destruct (partitionResults _) as [oks errs].
    destruct errs; simpl in *; lia.
Qed.

End Stored.


(** X16. When the destination of some file of the batch is refused by
    the [S3Key] constructor, [tryUploadBatch] throws before it issues any
    request: the store is as before, and only the hand-over of the batch
    is on record. *)
Theorem refused_key_stops_the_batch (host : Host) (bucket : S3Bucket) (batch : Batch)
    (w : World) :
  ¬ Forall (validDestination batch) (files batch) →
  ∃ e w',
    tryUploadBatch host bucket batch w = (Exc e, w') ∧
    sendsIssued w' = sendsIssued w ∧
    objects w' = objects w ∧
    batches w' = batches w ++ [batch].
Proof.
  intros Hinvalid. unfold tryUploadBatch. unfold bind at 1. simpl. unfold bind at 1.
  destruct (address_throws batch (files batch) (noted batch w) Hinvalid) as [e He].
  unfold noted in He. simpl in He. rewrite He. by eexists e, _.
Qed.

End StoreFacts.

(** * The accounts of an attempt

    What [tryProcessZipFile] reports, where it sends the archive and what
    the store holds afterwards. *)

Module AccountingFacts.
Import UploaderFacts StoreFacts ProcessorFacts.

Lemma destinations_cases (batch : Batch) :
  Forall (validDestination batch) (files batch) ∨
  ¬ Forall (validDestination batch) (files batch).
Proof.
  induction (files batch) as [|f fs IH]; [left; constructor|].
  destruct IH as [IH|IH].
  - destruct (mkS3Key (destinationOf batch f)) as [e|k] eqn:Hk.
    + right. intros Hall. inversion Hall as [|? ? Hf _]; subst.
      unfold validDestination in Hf. congruence.
    + left. constructor; [|done]. unfold validDestination.
      by rewrite Hk, (mkS3Key_value _ _ Hk).
  - right. intros Hall. by inversion Hall.
Qed.

Definition uploadedOf (r : Result ZipSuccess ZipFailure) : nat :=
  match r with
  | Ok v => ok_filesUploaded v
  | Err f => ko_filesUploaded f
  end.

(** Where an attempt with the result [r] sends its archive. *)
Definition routeOf (cfg : Config) (r : Result ZipSuccess ZipFailure) : Route :=
  if isOk r && (0 <? uploadedOf r)%nat then
    if deleteOnSuccess cfg then Deleted else MovedTo (archiveDir cfg)
  else MovedTo (failedDir cfg).

Section Attempts.

Variables (host : Host) (cfg : Config) (parser : Parser.ContentParser).

Lemma tryUploadBatch_effects bucket batch w :
  (∃ r w', tryUploadBatch host bucket batch w = (Val r, w') ∧
           length (successful r) + length (failed r) = length (files batch) ∧
           routed w' = routed w ∧
           length (objects w') = length (objects w) + length (successful r)) ∨
  (∃ e w', tryUploadBatch host bucket batch w = (Exc e, w') ∧
           routed w' = routed w ∧ objects w' = objects w).
Proof.
  destruct (destinations_cases batch) as [Hvalid|Hinvalid].
  - left.
    destruct (tryUploadBatch_stored host bucket batch w Hvalid)
      as (r & w' & Hrun & Hobj & Hkeys & Hlen & (_ & _ & _ & Hrouted)).
    exists r, w'. split; [done|]. split; [done|]. split; [done|].
    rewrite Hobj, length_app, length_rev.
    apply (f_equal length) in Hkeys. rewrite !length_map in Hkeys. lia.
  - right. unfold tryUploadBatch. unfold bind at 1. simpl. unfold bind at 1.
    destruct (address_throws batch (files batch) (noted batch w) Hinvalid) as [e He].
    unfold noted in He. simpl in He. rewrite He. by eexists e, _.
Qed.

Lemma flushBatch_effects l w :
  currentBatch l ≠ [] →
  (∃ r p w1,
      flushBatch host cfg (l, w) = (Val tt, (resetBatch p (countUploads r l), w1)) ∧
      routed w1 = routed w ∧
      length (objects w1) = length (objects w) + length (successful r) ∧
      length (successful r) + length (failed r) = length (currentBatch l)) ∨
  (∃ e w1,
      flushBatch host cfg (l, w) = (Exc e, (l, w1)) ∧
      routed w1 = routed w ∧ objects w1 = objects w).
Proof.
  intros Hl.
  remember (flushBatch host cfg (l, w)) as res eqn:Hres.
  unfold flushBatch, bind, locals, inWorld, update, freshPrefix, drawUuid, ret in Hres.
  simpl in Hres. fold (pending l) in Hres.
  destruct (currentBatch l) as [|f fs] eqn:Hcur; [done|]. simpl in Hres.
  destruct (tryUploadBatch_effects (destinationBucket cfg) (pending l) w)
    as [(r & w' & Hrun & Hlen & Hrouted & Hobj) | (e & w' & Hrun & Hrouted & Hobj)];
    rewrite Hrun in Hres; subst res.
  - left. eexists r, _, _. split; [reflexivity|].
    simpl in *. rewrite Hcur in Hlen. split; [done|]. split; [done|]. exact Hlen.
  - right. by exists e, w'.
Qed.

(** The accounts between two items of an attempt that started in [w0]
    and has consumed [seen]. *)
Definition Acct (w0 : World) (seen : list Extractor.ExtractedFile) (s : Attempt)
    : Prop :=
  routed (snd s) = routed w0 ∧
  length (objects (snd s)) = length (objects w0) + filesUploaded (fst s) ∧
  filesExtracted (fst s) = length seen ∧
  filteredCount (fst s) + length (keptOf parser seen) = length seen ∧
  filesUploaded (fst s) + filesFailed (fst s) + length (currentBatch (fst s)) =
    length (keptOf parser seen).

(** The accounts when the [try] block is left by an exception, at most
    [n] items having been consumed. *)
Definition Partial (w0 : World) (n : nat) (s : Attempt) : Prop :=
  routed (snd s) = routed w0 ∧
  length (objects (snd s)) = length (objects w0) + filesUploaded (fst s) ∧
  (filesUploaded (fst s) + filteredCount (fst s) ≤ filesExtracted (fst s))%nat ∧
  (filesExtracted (fst s) ≤ n)%nat.

Lemma Acct_flush w0 seen l w w1 p r :
  Acct w0 seen (l, w) →
  routed w1 = routed w →
  length (objects w1) = length (objects w) + length (successful r) →
  length (successful r) + length (failed r) = length (currentBatch l) →
  Acct w0 seen (resetBatch p (countUploads r l), w1).
Proof.
  intros (Hr & Ho & He & Hf & Hu) Hr1 Ho1 Hlen. unfold Acct in *. simpl in *.
  rewrite Hr1, Ho1, Ho. repeat (split; [done || lia|]).
  destruct r; simpl in *; lia.
Qed.

Lemma processFile_acct w0 seen file s :
  Acct w0 seen s →
  match processFile host cfg parser file s with
  | (Val _, s') => Acct w0 (seen ++ [file]) s'
  | (Exc _, s') => Partial w0 (S (length seen)) s'
  | (Diverges, _) => False
  end.
Proof.
  destruct s as [l w]. intros Hacct.
  pose proof Hacct as (Hr & Ho & He & Hf & Hu). simpl in Hr, Ho, He, Hf, Hu.
  unfold processFile. unfold bind at 1. unfold update at 1. simpl.
  destruct (Parser.shouldFilter parser (string_of_list_byte (Extractor.content file)))
    eqn:Hfilter.
  { unfold update, Acct. simpl. rewrite keptOf_snoc. unfold isKept. rewrite Hfilter.
    simpl. rewrite app_nil_r, length_app. simpl. repeat split; (done || lia). }
  assert (Hkept : isKept parser file = true) by (unfold isKept; by rewrite Hfilter).
  unfold bind at 1. unfold resolveFilename.
  set (filename := Parser.extractFilename parser _ _).
  unfold bind at 1. unfold locals at 1. simpl.
  unfold bind at 1.
  assert (Hres : ∃ k w1,
    (if bool_decide (filename ∈ usedFilenames l)
     then u <- inWorld (drawUuid host);; ret (disambiguate filename u)
     else ret filename) (countExtracted l, w) = (Val k, (countExtracted l, w1)) ∧
    routed w1 = routed w ∧ objects w1 = objects w).
  { case_bool_decide as Hin.
    - eexists _, _. split; [reflexivity|]. done.
    - by exists filename, w. }
  destruct Hres as (k & w1 & -> & Hr1 & Ho1).
  unfold bind at 1. unfold update at 1. simpl.
  unfold bind at 1. unfold ret at 1.
  unfold bind at 1. unfold orThrow.
  destruct (mkS3Key k) as [err|k'] eqn:Hkey.
  { unfold throw, Partial. simpl. rewrite Hr1, Ho1.
    repeat split; (done || lia). }
  apply mkS3Key_value in Hkey as ->.
  unfold ret at 1. unfold bind at 1. unfold update at 1. simpl.
  set (l2 := pushFile _ _) in *.
  assert (Hl2 : length (currentBatch l2) = S (length (currentBatch l))).
  { subst l2. simpl. rewrite length_app. simpl. lia. }
  change (currentBatch l ++ [_]) with (currentBatch l2).
  assert (Hpushed : Acct w0 (seen ++ [file]) (l2, w1)).
  { unfold Acct. simpl fst. simpl snd. rewrite Hl2, Hr1, Ho1, keptOf_snoc, Hkept.
    rewrite !length_app. subst l2. simpl. repeat split; (done || lia). }
  destruct (Nat.leb_spec (batchSize cfg) (length (currentBatch l2))) as [Hfull|Hroom].
  - destruct (flushBatch_effects l2 w1) as
      [(r & p & w2 & -> & Hr2 & Ho2 & Hlen) | (e & w2 & -> & Hr2 & Ho2)].
    { intros Hnil. rewrite Hnil in Hl2. done. }
    + by apply (Acct_flush _ _ _ w1).
    + destruct Hpushed as (Hpr & Hpo & Hpe & Hpf & Hpu). unfold Partial.
      simpl in *. rewrite Hr2, Ho2, length_app in *. simpl in *.
      repeat split; (done || lia).
  - unfold ret. exact Hpushed.
Qed.

Lemma Partial_mono w0 n m s : Partial w0 n s → (n ≤ m)%nat → Partial w0 m s.
Proof. intros (? & ? & ? & ?) ?. repeat split; (done || lia). Qed.

Lemma Acct_partial w0 seen s : Acct w0 seen s → Partial w0 (length seen) s.
Proof. intros (? & ? & ? & ? & ?). repeat split; (done || lia). Qed.

Lemma forAwait_acct w0 completion yielded seen s :
  Acct w0 seen s →
  match forAwait yielded completion (processFile host cfg parser) s with
  | (Val _, s') => Acct w0 (seen ++ yielded) s' ∧ completion = Extractor.Done
  | (Exc _, s') => Partial w0 (length (seen ++ yielded)) s'
  | (Diverges, _) => False
  end.
Proof.
  revert seen s. induction yielded as [|file rest IH]; intros seen s Hacct.
  { simpl. rewrite app_nil_r. destruct completion; simpl; [done|].
    by apply Acct_partial. }
  simpl. unfold bind.
  pose proof (processFile_acct w0 seen file s Hacct) as Hstep.
  destruct (processFile host cfg parser file s) as [[[]|e|] s1]; [| |done].
  - replace (seen ++ file :: rest) with ((seen ++ [file]) ++ rest)
      by (by rewrite <- app_assoc).
    by apply IH.
  - eapply Partial_mono; [done|]. rewrite length_app. simpl. lia.
Qed.

Lemma final_flush_acct w0 yielded s :
  Acct w0 yielded s →
  match flushBatch host cfg s with
  | (Val _, s') => Acct w0 yielded s' ∧ currentBatch (fst s') = []
  | (Exc _, s') => Partial w0 (length yielded) s'
  | (Diverges, _) => False
  end.
Proof.
  destruct s as [l w]. intros Hacct.
  destruct (currentBatch l) as [|f fs] eqn:Hcur.
  - by rewrite flushBatch_empty.
  - destruct (flushBatch_effects l w) as
      [(r & p & w1 & -> & Hr1 & Ho1 & Hlen) | (e & w1 & -> & Hr1 & Ho1)].
    { by rewrite Hcur. }
    + split; [by apply (Acct_flush _ _ _ w)|done].
    + apply Acct_partial in Hacct. destruct Hacct as (? & ? & ? & ?).
      unfold Partial. simpl in *. rewrite Hr1, Ho1. done.
Qed.

(** What an attempt on [zipPath] that started in [w0] leaves behind. *)
Definition Settled (zipPath : FilePath) (w0 : World)
    (r : Result ZipSuccess ZipFailure) (w' : World) : Prop :=
  let extraction :=
    Extractor.extractZipStreaming (yauzl_open host zipPath) zipPath
      Extractor.noOptions in
  length (objects w') = length (objects w0) + uploadedOf r ∧
  routed w' = routed w0 ++ [(zipPath, routeOf cfg r)] ∧
  match r with
  | Ok v =>
      snd extraction = Extractor.Done ∧
      ok_zipPath v = zipPath ∧
      ok_filesExtracted v = length (fst extraction) ∧
      ok_filesFiltered v + length (keptOf parser (fst extraction)) =
        length (fst extraction) ∧
      ok_filesUploaded v = length (keptOf parser (fst extraction))
  | Err f =>
      ko_zipPath f = zipPath ∧
      (ko_filesUploaded f + ko_filesFiltered f ≤ ko_filesExtracted f)%nat ∧
      (ko_filesExtracted f ≤ length (fst extraction))%nat
  end.

Lemma processAttempt_settled zipPath w0 s :
  Acct w0 [] s →
  match processAttempt host zipPath cfg parser s with
  | (Val r, s') => Settled zipPath w0 r (snd s')
  | (Exc _, s') => Partial w0 (length (yieldedFrom host zipPath)) s'
  | (Diverges, _) => False
  end.
Proof.
  intros Hacct. unfold processAttempt, forAwaitOf. unfold bind at 1.
  pose proof (forAwait_acct w0
                (snd (Extractor.extractZipStreaming (yauzl_open host zipPath) zipPath
                        Extractor.noOptions))
                (yieldedFrom host zipPath) [] s Hacct) as Hloop.
  unfold yieldedFrom in Hloop at 1.
  destruct (forAwait _ _ _ s) as [[[]|e|] s1]; [|done..].
  destruct Hloop as [Hacct1 Hdone]. simpl in Hacct1.
  unfold bind at 1.
  pose proof (final_flush_acct w0 _ s1 Hacct1) as Hflush.
  destruct (flushBatch host cfg s1) as [[[]|e|] [l2 w2]]; [|done..].
  destruct Hflush as [(Hr & Ho & He & Hf & Hu) Hcur]. simpl in Hr, Ho, He, Hf, Hu, Hcur.
  rewrite Hcur in Hu. simpl in Hu.
  unfold bind at 1. unfold locals at 1. simpl.
  unfold bind at 1. unfold inWorld, tryRouteFile, noteRoute.
  unfold Settled, routeOf, yieldedFrom in *. cbv zeta.
  destruct (filesFailed l2) as [|n] eqn:Hff.
  - destruct (filesUploaded l2) as [|m] eqn:Hup; simpl.
    + rewrite Hup, Hr, Ho. simpl. repeat split; (done || lia).
    + destruct (deleteOnSuccess cfg); simpl; rewrite Hup, Hr, Ho; simpl;
        repeat split; (done || lia).
  - simpl. rewrite Hr, Ho. repeat split; (done || lia).
Qed.

Lemma Acct_start w : Acct w [] (attemptStart host cfg w).
Proof. unfold Acct. simpl. repeat split; (done || lia). Qed.

(** An attempt returns, and leaves its accounts settled. *)
Lemma tryProcessZipFile_settled zipPath w :
  ∃ r w',
    tryProcessZipFile host zipPath cfg parser w = (Val r, w') ∧
    Settled zipPath w r w'.
Proof.
  pose proof (processAttempt_settled zipPath w (attemptStart host cfg w) (Acct_start w))
    as Hrun.
  unfold tryProcessZipFile. unfold bind at 1. unfold freshPrefix at 1.
  unfold bind at 1. unfold ret at 1.
  change (drawUuid host w) with
    (Val (uuid host (uuidsDrawn w)), snd (drawUuid host w)).
  cbv beta iota. unfold withLocals, tryCatch.
  fold (attemptStart host cfg w).
  destruct (processAttempt host zipPath cfg parser (attemptStart host cfg w))
    as [[r|e|] [l1 w1]]; [| |done].
  - by exists r, w1.
  - unfold recoverAttempt, bind, inWorld, tryRouteFile, noteRoute, locals, ret. simpl.
    eexists _, _. split; [reflexivity|].
    destruct Hrun as (Hr & Ho & Hle & Hn). unfold Settled, routeOf, yieldedFrom in *.
    simpl in *. rewrite Hr. done.
Qed.

End Attempts.

(** X17. An attempt that is returned as a success has run the
    extraction to its end and has counted every item that the archive
    yielded: each one was either filtered or uploaded, none failed and
    none is pending. *)
Theorem success_counts_every_item (host : Host) (cfg : Config)
    (parser : Parser.ContentParser) (zipPath : FilePath) (w : World) :
  let extraction :=
    Extractor.extractZipStreaming (yauzl_open host zipPath) zipPath
      Extractor.noOptions in
  ∃ r w',
    tryProcessZipFile host zipPath cfg parser w = (Val r, w') ∧
    ∀ v, r = Ok v →
      snd extraction = Extractor.Done ∧
      ok_zipPath v = zipPath ∧
      ok_filesExtracted v = length (fst extraction) ∧
      ok_filesUploaded v = length (keptOf parser (fst extraction)) ∧
      ok_filesFiltered v =
        length (fst extraction) - length (keptOf parser (fst extraction)).
Proof.
  intros extraction.
  destruct (tryProcessZipFile_settled host cfg parser zipPath w)
    as (r & w' & Hrun & _ & _ & Hcounts).
  exists r, w'. split; [done|]. intros v ->.
  destruct Hcounts as (Hdone & Hpath & Hex & Hfi & Hup). fold extraction in Hex, Hfi, Hup.
  repeat split; (done || lia).
Qed.

(** X18. An attempt that is returned as a failure reports the path of
    its archive and counts that are consistent with one another: the items
    uploaded and the items filtered are among the items extracted, and no
    more items are extracted than the archive yielded. *)
Theorem failure_counts_are_consistent (host : Host) (cfg : Config)
    (parser : Parser.ContentParser) (zipPath : FilePath) (w : World) :
  ∃ r w',
    tryProcessZipFile host zipPath cfg parser w = (Val r, w') ∧
    ∀ f, r = Err f →
      ko_zipPath f = zipPath ∧
      (ko_filesUploaded f + ko_filesFiltered f ≤ ko_filesExtracted f)%nat ∧
      (ko_filesExtracted f ≤
       length (fst (Extractor.extractZipStreaming (yauzl_open host zipPath) zipPath
                      Extractor.noOptions)))%nat.
Proof.
  destruct (tryProcessZipFile_settled host cfg parser zipPath w)
    as (r & w' & Hrun & _ & _ & Hcounts).
  exists r, w'. split; [done|]. by intros f ->.
Qed.

(** X19. Every attempt issues exactly one routing request, and it is
    for its own archive: to the archive directory (or a deletion, when so
    configured) if the attempt is returned as a success that uploaded
    something, to the directory of failed archives otherwise. *)
Theorem one_routing_request_per_attempt (host : Host) (cfg : Config)
    (parser : Parser.ContentParser) (zipPath : FilePath) (w : World) :
  ∃ r w',
    tryProcessZipFile host zipPath cfg parser w = (Val r, w') ∧
    routed w' = routed w ++ [(zipPath, routeOf cfg r)].
Proof.
  destruct (tryProcessZipFile_settled host cfg parser zipPath w)
    as (r & w' & Hrun & _ & Hrouted & _).
  by exists r, w'.
Qed.

(** X20. The number of uploaded files that an attempt reports, as a
    success or as a failure, is the number of objects that the store has
    accepted during the attempt. *)
Theorem reported_uploads_are_stored (host : Host) (cfg : Config)
    (parser : Parser.ContentParser) (zipPath : FilePath) (w : World) :
  ∃ r w',
    tryProcessZipFile host zipPath cfg parser w = (Val r, w') ∧
    length (objects w') = length (objects w) + uploadedOf r.
Proof.
  destruct (tryProcessZipFile_settled host cfg parser zipPath w)
    as (r & w' & Hrun & Hobj & _).
  by exists r, w'.
Qed.

(** ** The accounts of an invocation *)

Section Invocation.

Variables (host : Host) (cfg : Config) (parser : Parser.ContentParser).

(** The routing requests of the attempts on [zipFiles] with results [rs]. *)
Definition routesOf (zipFiles : list string)
    (rs : list (Result ZipSuccess ZipFailure)) : list (FilePath * Route) :=
  zip_with (λ zipFile r, (pathJoin (sourceDir cfg) zipFile, routeOf cfg r)) zipFiles rs.

Lemma Attempted_effects zipFiles w rs w' :
  Attempted host cfg parser zipFiles w rs w' →
  length (objects w') = length (objects w) + sum_list_with uploadedOf rs ∧
  routed w' = routed w ++ routesOf zipFiles rs.
Proof.
  induction 1 as [w|zipFile rest w r w1 rs w2 Hrun _ [IHo IHr]].
  { simpl. unfold routesOf. simpl. by rewrite app_nil_r, Nat.add_0_r. }
  destruct (tryProcessZipFile_settled host cfg parser
              (pathJoin (sourceDir cfg) zipFile) (tick host w))
    as (r' & w1' & Hrun' & Hobj & Hrouted & _).
  rewrite Hrun in Hrun'. injection Hrun' as <- <-.
  unfold tick in Hobj, Hrouted. simpl in Hobj, Hrouted.
  split.
  - rewrite IHo, Hobj. simpl. lia.
  - rewrite IHr, Hrouted, <- app_assoc. done.
Qed.

(** The loop over the archives, whatever the clock reads: it attempts a
    prefix of the list and stops early only before an archive. *)
Lemma processEach_any zipFiles ss fs w :
  ∃ k rs wk (stop : bool),
    (k ≤ length zipFiles)%nat ∧
    Attempted host cfg parser (take k zipFiles) w rs wk ∧
    processEach host cfg parser zipFiles ss fs w =
      (Val (ss ++ oks rs, fs ++ errs rs, stop), if stop then tick host wk else wk) ∧
    (stop = false → k = length zipFiles).
Proof.
  revert ss fs w. induction zipFiles as [|zipFile rest IH]; intros ss fs w.
  { exists 0, [], w, false. simpl. rewrite !app_nil_r.
    split; [done|]. split; [constructor|]. done. }
  simpl. unfold bind at 1. simpl.
  destruct (Z.ltb_spec (remainingTime host (clockReads w)) (timeoutBufferMs cfg))
    as [Hlt|Hge].
  { exists 0, [], w, true. simpl. rewrite !app_nil_r.
    split; [lia|]. split; [constructor|]. done. }
  unfold bind at 1. fold (tick host w).
  destruct (attempt_completes host cfg parser (pathJoin (sourceDir cfg) zipFile)
              (tick host w)) as (r & w1 & Hrun & _).
  pose proof Hrun as Hrun'. unfold tick in Hrun'. simpl in Hrun'.
  rewrite Hrun'. clear Hrun'.
  destruct r as [v|e].
  - destruct (IH (ss ++ [v]) fs w1) as (k & rs & wk & stop & Hk & Hatt & -> & Hstop).
    exists (S k), (Ok v :: rs), wk, stop. simpl.
    split; [lia|]. split; [by econstructor|]. rewrite <- app_assoc.
    split; [done|]. intros Hs. by rewrite Hstop.
  - destruct (IH ss (fs ++ [e]) w1) as (k & rs & wk & stop & Hk & Hatt & -> & Hstop).
    exists (S k), (Err e :: rs), wk, stop. simpl.
    split; [lia|]. split; [by econstructor|]. rewrite <- app_assoc.
    split; [done|]. intros Hs. by rewrite Hstop.
Qed.

Lemma foldl_sum {A} (f : A → nat) (xs : list A) (start : nat) :
  foldl (λ sum x, sum + f x) start xs = start + sum_list_with f xs.
Proof.
  revert start. induction xs as [|x xs IH]; intros start; simpl; [lia|].
  rewrite IH. lia.
Qed.

Lemma sumOf_uploaded (rs : list (Result ZipSuccess ZipFailure)) :
  sumOf ok_filesUploaded (oks rs) + sumOf ko_filesUploaded (errs rs) =
  sum_list_with uploadedOf rs.
Proof.
  unfold sumOf. rewrite !foldl_sum. simpl.
  induction rs as [|[v|e] rs IH]; simpl in *; lia.
Qed.

End Invocation.

(** The run of [processZips] on a listing: the archives it attempted, in
    the order of the listing, with their results. *)
Lemma processZips_settled (host : Host) (cfg : Config) (listing : ZipListResult)
    (w : World) :
  let parser :=
    Parser.createContentParser (regex_exec host)
      (filenamePattern cfg) (filterPattern cfg) in
  let zipFiles := take (maxFilesPerInvocation cfg) (zl_files listing) in
  ∃ k rs wk r w',
    (k ≤ length zipFiles)%nat ∧
    Attempted host cfg parser (take k zipFiles) w rs wk ∧
    processZips host cfg (Ok listing) w = (Val r, w') ∧
    routed w' = routed wk ∧ objects w' = objects wk ∧
    successes r = oks rs ∧ failures r = errs rs ∧
    zipsProcessed r + zipsFailed r = k ∧
    totalFilesUploaded r = sum_list_with uploadedOf rs ∧
    (stoppedEarly r = false → k = length zipFiles).
Proof.
  intros parser zipFiles.
  unfold processZips. fold parser.
  assert (Hslice : sliceList (zl_files listing) 0 (maxFilesPerInvocation cfg) = zipFiles).
  { unfold sliceList. by rewrite drop_0, Nat.sub_0_r. }
  rewrite Hslice.
  destruct (Nat.eqb_spec (length zipFiles) 0) as [Hz|_].
  { exists 0, [], w. eexists _, w. split; [lia|]. split; [constructor|].
    split; [reflexivity|]. simpl. repeat split; (done || lia). }
  destruct (processEach_any host cfg parser zipFiles [] [] w)
    as (k & rs & wk & stop & Hk & Hatt & Hrun & Hstop).
  pose proof (Attempted_length _ _ _ _ _ _ _ Hatt) as Hlen.
  rewrite length_take in Hlen.
  exists k, rs, wk. eexists _, _. split; [done|]. split; [done|].
  unfold bind. rewrite Hrun. unfold ret. split; [reflexivity|]. simpl.
  split; [by destruct stop|]. split; [by destruct stop|].
  split; [done|]. split; [done|]. split; [rewrite oks_errs_length; lia|].
  split; [apply sumOf_uploaded|done].
Qed.

(** X21. An invocation attempts the first archives of the listing, in
    its order and never more than [maxFilesPerInvocation]; each of them
    gets exactly one routing request, by the disposition of its result,
    and no other file is routed.  Unless the invocation reports that it
    stopped early, these are all the archives of the listing up to the
    cap. *)
Theorem attempted_archives_are_routed_in_order (host : Host) (cfg : Config)
    (listing : ZipListResult) (w : World) :
  ∃ r w' rs,
    processZips host cfg (Ok listing) w = (Val r, w') ∧
    successes r = oks rs ∧ failures r = errs rs ∧
    length rs = zipsProcessed r + zipsFailed r ∧
    (length rs ≤ maxFilesPerInvocation cfg)%nat ∧
    (length rs ≤ length (zl_files listing))%nat ∧
    routed w' = routed w ++ routesOf cfg (zl_files listing) rs ∧
    (stoppedEarly r = false →
     length rs = Nat.min (maxFilesPerInvocation cfg) (length (zl_files listing))).
Proof.
  destruct (processZips_settled host cfg listing w)
    as (k & rs & wk & r & w' & Hk & Hatt & Hrun & Hrouted & _ & Hs & Hf & Hn & _ & Hstop).
  pose proof (Attempted_length _ _ _ _ _ _ _ Hatt) as Hlen.
  rewrite length_take in Hk. repeat rewrite length_take in Hlen.
  destruct (Attempted_effects _ _ _ _ _ _ _ Hatt) as [_ Hroutes].
  exists r, w', rs. split; [done|]. split; [done|]. split; [done|].
  split; [lia|]. split; [lia|]. split; [lia|]. split.
  - rewrite Hrouted, Hroutes. f_equal. unfold routesOf.
    rewrite take_take. apply zip_with_take_l'. lia.
  - intros Hne. specialize (Hstop Hne). rewrite length_take in Hstop. lia.
Qed.

(** X22. The total of uploaded files that an invocation reports is the
    number of objects that the store has accepted during the invocation,
    whatever the listing and the answers of the store. *)
Theorem total_uploaded_is_what_the_store_accepted (host : Host) (cfg : Config)
    (listResult : Result ZipListResult FileSystemError) (w : World) :
  ∃ r w',
    processZips host cfg listResult w = (Val r, w') ∧
    length (objects w') = length (objects w) + totalFilesUploaded r.
Proof.
  destruct listResult as [listing|error].
  - destruct (processZips_settled host cfg listing w)
      as (k & rs & wk & r & w' & _ & Hatt & Hrun & _ & Hobj & _ & _ & _ & Htotal & _).
    destruct (Attempted_effects _ _ _ _ _ _ _ Hatt) as [Hstored _].
    exists r, w'. split; [done|]. by rewrite Hobj, Htotal.
  - eexists _, w. split; [reflexivity|]. simpl. lia.
Qed.

(** X23. When every reading of the clock before an archive leaves at
    least the buffer, the invocation attempts every archive of the listing
    up to the cap and does not report an early stop. *)
Theorem enough_time_processes_every_archive (host : Host) (cfg : Config)
    (listing : ZipListResult) (w : World) :
  let zipFiles := take (maxFilesPerInvocation cfg) (zl_files listing) in
  (∀ j, j < length zipFiles →
        (timeoutBufferMs cfg ≤ remainingTime host (clockReads w + j))%Z) →
  ∃ r w',
    processZips host cfg (Ok listing) w = (Val r, w') ∧
    stoppedEarly r = false ∧
    zipsProcessed r + zipsFailed r = length zipFiles ∧
    clockReads w' = clockReads w + length zipFiles.
Proof.
  intros zipFiles Hpass.
  set (parser := Parser.createContentParser (regex_exec host)
                   (filenamePattern cfg) (filterPattern cfg)).
  unfold processZips. fold parser.
  assert (Hslice : sliceList (zl_files listing) 0 (maxFilesPerInvocation cfg) = zipFiles).
  { unfold sliceList. by rewrite drop_0, Nat.sub_0_r. }
  rewrite Hslice.
  destruct (Nat.eqb_spec (length zipFiles) 0) as [Hz|_].
  { eexists _, w. split; [reflexivity|]. simpl. rewrite Hz. repeat split; lia. }
  destruct (processEach_run host cfg parser zipFiles (length zipFiles) [] [] w
              ltac:(lia) Hpass ltac:(lia)) as (rs & wk & Hatt & Hclock & Hrun).
  rewrite bool_decide_eq_false_2 in Hrun by lia.
  pose proof (Attempted_length _ _ _ _ _ _ _ Hatt) as Hlen.
  rewrite firstn_all in Hlen.
  eexists _, wk. unfold bind. rewrite Hrun. unfold ret.
  split; [reflexivity|]. simpl. split; [done|]. split; [|done].
  rewrite oks_errs_length. lia.
Qed.

End AccountingFacts.

(** * Further properties of [createBatches] *)

Module BatcherMore.

Section Batches.

Variable host : Host.

Lemma createBatchesFrom_prefixes fs prefixBase B fuel i acc w :
  0 < B → length fs - i < fuel →
  ∃ bs w',
    createBatchesFrom host fuel fs prefixBase B i acc w = (Val (acc ++ bs), w') ∧
    uuidsDrawn w' = uuidsDrawn w + length bs ∧
    (∀ j b, bs !! j = Some b →
            prefix b =
              mkS3Prefix (joinS3Path [prefixBase; uuid host (uuidsDrawn w + j)])) ∧
    sendsIssued w' = sendsIssued w ∧ objects w' = objects w ∧
    batches w' = batches w ∧ routed w' = routed w.
Proof.
  intros HB. revert i acc w.
  induction fuel as [|fuel IH]; intros i acc w Hfuel; simpl; [lia|].
  destruct (Nat.ltb_spec i (length fs)) as [Hlt|Hge].
  - unfold bind, drawUuid. simpl.
    match goal with |- context [createBatchesFrom _ _ _ _ _ _ (acc ++ [?b0]) ?w1] =>
      destruct (IH (i + B) (acc ++ [b0]) w1)
        as (bs & w' & Hrun & Hn & Hp & Hs & Ho & Hb & Hr); [lia|];
      exists (b0 :: bs), w'
    end.
    split; [rewrite Hrun; by rewrite <- app_assoc|]. simpl in *.
    split; [lia|]. split; [|done].
    intros [|j] b Hj; simpl in Hj.
    + injection Hj as <-. simpl. by rewrite Nat.add_0_r.
    + rewrite (Hp j b Hj). by rewrite Nat.add_succ_r.
  - exists [], w. rewrite app_nil_r. simpl. split; [done|]. split; [lia|].
    split; [|done]. by intros j b Hj.
Qed.

Lemma createBatchesFrom_stuck fs prefixBase fuel i acc w :
  i < length fs →
  fst (createBatchesFrom host fuel fs prefixBase 0 i acc w) = Diverges ∧
  uuidsDrawn (snd (createBatchesFrom host fuel fs prefixBase 0 i acc w)) =
    uuidsDrawn w + fuel.
Proof.
  intros Hi. revert acc w. induction fuel as [|fuel IH]; intros acc w; simpl.
  { split; [done|lia]. }
  destruct (Nat.ltb_spec i (length fs)) as [_|Hge]; [|lia].
  unfold bind, drawUuid. simpl. rewrite Nat.add_0_r.
  match goal with |- context [createBatchesFrom _ _ _ _ _ _ ?acc1 ?w1] =>
    destruct (IH acc1 w1) as [Hd Hn]
  end.
  split; [exact Hd|]. rewrite Hn. simpl. lia.
Qed.

End Batches.

(** X24. For a positive batch size [createBatches] draws exactly one
    identifier per batch, in the order of the batches, and the prefix of
    each batch is the normalised path of the base and its identifier.  It
    issues no request and leaves the store and the records alone. *)
Theorem batch_prefixes_use_consecutive_identifiers (host : Host)
    (fs : list FileToUpload) (prefixBase : S3Prefix) (B : nat) (w : World) :
  0 < B →
  ∃ bs w',
    createBatches host fs prefixBase B w = (Val bs, w') ∧
    uuidsDrawn w' = uuidsDrawn w + length bs ∧
    (∀ j b, bs !! j = Some b →
            prefix b =
              mkS3Prefix (joinS3Path [prefixBase; uuid host (uuidsDrawn w + j)])) ∧
    sendsIssued w' = sendsIssued w ∧ objects w' = objects w ∧
    batches w' = batches w ∧ routed w' = routed w.
Proof.
  intros HB. unfold createBatches.
  destruct (createBatchesFrom_prefixes host fs prefixBase B (S (length fs)) 0 [] w HB)
    as (bs & w' & Hrun & Hrest); [lia|].
  by exists bs, w'.
Qed.

(** X25. With a batch size of 0 the loop of [createBatches] makes no
    progress on a list that is not empty: however many rounds it is given
    it has not returned, and it has drawn one identifier in each. *)
Theorem zero_batch_size_never_returns (host : Host) (fs : list FileToUpload)
    (prefixBase : S3Prefix) (w : World) (rounds : nat) :
  fs ≠ [] →
  fst (createBatchesFrom host rounds fs prefixBase 0 0 [] w) = Diverges ∧
  uuidsDrawn (snd (createBatchesFrom host rounds fs prefixBase 0 0 [] w)) =
    uuidsDrawn w + rounds.
Proof.
  intros Hfs. apply createBatchesFrom_stuck.
  destruct fs; [done|]. simpl. lia.
Qed.

End BatcherMore.

(** * An invocation on a directory *)

Module DirectoryFacts.
Import ListingFacts AccountingFacts ProcessorFacts.

(** X26. An invocation on the listing of its source directory routes
    nothing but archives of that directory: every routing request concerns
    a name that the directory holds, that ends in [.zip], does not start
    with a dot and is old enough.  When the directory cannot be read,
    nothing happens and one failure is reported. *)
Theorem only_listed_archives_are_routed (host : Host) (fs : FileSystem)
    (cfg : Config) (minFileAgeMs : Z) (w : World) :
  match readdir fs (sourceDir cfg) with
  | inl _ =>
      ∃ r,
        processZips host cfg (tryListZipFiles fs (sourceDir cfg) minFileAgeMs) w =
          (Val r, w) ∧
        zipsProcessed r = 0 ∧ zipsFailed r = 1 ∧
        map ko_error (failures r) = [AppFs (MkFsError (sourceDir cfg) "list")]
  | inr entries =>
      ∃ r w' routes,
        processZips host cfg (tryListZipFiles fs (sourceDir cfg) minFileAgeMs) w =
          (Val r, w') ∧
        routed w' = routed w ++ routes ∧
        ∀ path route,
          (path, route) ∈ routes →
          ∃ file,
            path = pathJoin (sourceDir cfg) file ∧
            file ∈ entries ∧ isValidZipFile file = true ∧
            oldEnough fs (sourceDir cfg) minFileAgeMs file = true
  end.
Proof.
  destruct (readdir fs (sourceDir cfg)) as [e|entries] eqn:Hdir.
  { unfold tryListZipFiles. rewrite Hdir. eexists. split; [reflexivity|]. done. }
  rewrite (listing_shape fs (sourceDir cfg) minFileAgeMs entries Hdir).
  match goal with |- context [Ok ?l] => set (listing := l) end.
  destruct (processZips_settled host cfg listing w)
    as (k & rs & wk & r & w' & _ & Hatt & Hrun & Hrouted & _).
  destruct (Attempted_effects _ _ _ _ _ _ _ Hatt) as [_ Hroutes].
  eexists r, w', _. split; [exact Hrun|]. split; [by rewrite Hrouted, Hroutes|].
  intros path route Hin. unfold routesOf in Hin.
  apply elem_of_zip_with in Hin as (file & res & Heq & Hfile & _).
  injection Heq as -> ->. exists file. split; [done|].
  apply subseteq_take, subseteq_take in Hfile. subst listing. simpl in Hfile.
  apply elem_of_filter_bool in Hfile as [Hfile Hold].
  apply elem_of_filter_bool in Hfile as [Hfile Hvalid]. done.
Qed.

End DirectoryFacts.

(** * Bucket names ([types/branded.ts], [validateS3Bucket])

    The regular expressions of the validator are literals over single
    characters and are written out as tests on the characters of the
    name. *)

Definition S3_BUCKET_MIN_LENGTH : nat := 3.
Definition S3_BUCKET_MAX_LENGTH : nat := 63.

Definition RESERVED_PREFIXES : list string :=
  ["xn--"; "sthree-"; "sthree-configurator"; "amzn-s3-demo-"].
Definition RESERVED_SUFFIXES : list string :=
  ["-s3alias"; "--ol-s3"; ".mrap"; "--x-s3"].

Inductive S3BucketValidationError :=
| InvalidLength (length : nat)
| InvalidCharacters
| InvalidStartEnd
| ConsecutivePeriods
| IpAddressFormat
| ReservedPrefix (prefix : string)
| ReservedSuffix (suffix : string).

(** [[a-z0-9]] *)
Definition isLowerAlnum (c : ascii) : bool :=
  let n := nat_of_ascii c in
  ((97 <=? n)%nat && (n <=? 122)%nat) || ((48 <=? n)%nat && (n <=? 57)%nat).

(** [[a-z0-9.-]] *)
Definition isBucketChar (c : ascii) : bool :=
  isLowerAlnum c || Ascii.eqb c "." || Ascii.eqb c "-".

(** [\d] *)
Definition isDigit (c : ascii) : bool :=
  let n := nat_of_ascii c in (48 <=? n)%nat && (n <=? 57)%nat.

(** [/^[a-z0-9.-]+$/.test(value)] *)
Definition onlyBucketChars (value : string) : bool :=
  match Js.chars value with
  | [] => false
  | cs => forallb isBucketChar cs
  end.

(** [S3_BUCKET_PATTERN.test(value)], for
    [/^[a-z0-9][a-z0-9.-]*[a-z0-9]$|^[a-z0-9]$/] *)
Definition matchesBucketPattern (value : string) : bool :=
  match Js.chars value with
  | [] => false
  | [c] => isLowerAlnum c
  | c :: rest =>
      isLowerAlnum c && forallb isBucketChar (removelast rest) &&
      isLowerAlnum (List.last rest c)
  end.

(** [CONSECUTIVE_PERIODS.test(value)], for [/\.\./] *)
Fixpoint hasConsecutivePeriods (cs : list ascii) : bool :=
  match cs with
  | [] => false
  | c :: rest =>
      match rest with
      | d :: _ =>
          (Ascii.eqb c "." && Ascii.eqb d ".") || hasConsecutivePeriods rest
      | [] => false
      end
  end.

(** The groups between the periods of a name. *)
Fixpoint splitPeriods (cs current : list ascii) : list (list ascii) :=
  match cs with
  | [] => [current]
  | c :: rest =>
      if Ascii.eqb c "." then current :: splitPeriods rest []
      else splitPeriods rest (current ++ [c])
  end.

(** [IP_ADDRESS_PATTERN.test(value)], for [/^(\d{1,3}\.){3}\d{1,3}$/] *)
Definition looksLikeIpAddress (value : string) : bool :=
  let groups := splitPeriods (Js.chars value) [] in
  (length groups =? 4)%nat &&
  forallb (λ g, (1 <=? length g)%nat && (length g <=? 3)%nat && forallb isDigit g)
    groups.

Definition validateS3Bucket (value : string) : option S3BucketValidationError :=
  if negb (Js.truthy value) || (Js.len value <? S3_BUCKET_MIN_LENGTH)%nat ||
     (S3_BUCKET_MAX_LENGTH <? Js.len value)%nat
  then Some (InvalidLength (Js.len value))
  else if negb (onlyBucketChars value) then Some InvalidCharacters
  else if negb (matchesBucketPattern value) then Some InvalidStartEnd
  else if hasConsecutivePeriods (Js.chars value) then Some ConsecutivePeriods
  else if looksLikeIpAddress value then Some IpAddressFormat
  else
    match List.find (λ p, Js.startsWith value p) RESERVED_PREFIXES with
    | Some p => Some (ReservedPrefix p)
    | None =>
        match List.find (λ s, Js.endsWith value s) RESERVED_SUFFIXES with
        | Some s => Some (ReservedSuffix s)
        | None => None
        end
    end.

Definition formatS3BucketError (error : S3BucketValidationError) : string :=
  match error with
  | InvalidLength n =>
      "Invalid S3 bucket name: must be " +:+ Js.ofNat S3_BUCKET_MIN_LENGTH +:+ "-" +:+
      Js.ofNat S3_BUCKET_MAX_LENGTH +:+ " characters (got " +:+ Js.ofNat n +:+ ")"
  | InvalidCharacters =>
      "Invalid S3 bucket name: must contain only lowercase letters, numbers, hyphens, and periods"
  | InvalidStartEnd =>
      "Invalid S3 bucket name: must start and end with a letter or number"
  | ConsecutivePeriods =>
      "Invalid S3 bucket name: cannot contain consecutive periods"
  | IpAddressFormat =>
      "Invalid S3 bucket name: cannot be formatted as an IP address"
  | ReservedPrefix p =>
      "Invalid S3 bucket name: cannot start with reserved prefix '" +:+ p +:+ "'"
  | ReservedSuffix s =>
      "Invalid S3 bucket name: cannot end with reserved suffix '" +:+ s +:+ "'"
  end.

(** The [S3Bucket] constructor. *)
Definition mkS3Bucket (value : string) : JsError + S3Bucket :=
  match validateS3Bucket value with
  | Some error => inl (MkError (formatS3BucketError error))
  | None => inr value
  end.

Definition isS3Bucket (value : string) : bool :=
  match validateS3Bucket value with
  | None => true
  | Some _ => false
  end.

Module BucketFacts.
Import JsFacts.

Lemma prefix_shorter (s : string) :
  Js.startsWith s "sthree-configurator" = true → Js.startsWith s "sthree-" = true.
Proof.
  unfold Js.startsWith.
  do 7 (destruct s as [|? s]; cbn [String.prefix]; [done|];
        destruct (ascii_dec _ _); [|done]).
  intros _. by destruct s.
Qed.

(** X27. The validator never reports the reserved prefix
    [sthree-configurator]: a name that starts with it starts with
    [sthree-], which comes first in the list and is the prefix reported. *)
Theorem configurator_prefix_is_never_reported (value : string) :
  validateS3Bucket value ≠ Some (ReservedPrefix "sthree-configurator") ∧
  (Js.startsWith value "sthree-configurator" = true →
   ∃ error, validateS3Bucket value = Some error ∧
            error ≠ ReservedPrefix "sthree-configurator").
Proof.
  assert (Hfind : List.find (λ p, Js.startsWith value p) RESERVED_PREFIXES
                  ≠ Some "sthree-configurator").
  { unfold RESERVED_PREFIXES. simpl.
    destruct (Js.startsWith value "xn--"); [done|].
    destruct (Js.startsWith value "sthree-") eqn:Hs; [done|].
    destruct (Js.startsWith value "sthree-configurator") eqn:Hc.
    - apply prefix_shorter in Hc. congruence.
    - by destruct (Js.startsWith value "amzn-s3-demo-"). }
  assert (Hnever : validateS3Bucket value ≠ Some (ReservedPrefix "sthree-configurator")).
  { unfold validateS3Bucket.
    destruct (_ || _); [done|]. destruct (negb (onlyBucketChars value)); [done|].
    destruct (negb (matchesBucketPattern value)); [done|].
    destruct (hasConsecutivePeriods _); [done|].
    destruct (looksLikeIpAddress value); [done|].
    destruct (List.find _ RESERVED_PREFIXES) as [p|]; [congruence|].
    by destruct (List.find _ RESERVED_SUFFIXES). }
  split; [done|]. intros Hstarts.
  destruct (validateS3Bucket value) as [error|] eqn:Hv.
  { exists error. split; [done|]. congruence. }
  exfalso. revert Hv. unfold validateS3Bucket.
  destruct (_ || _); [done|]. destruct (negb (onlyBucketChars value)); [done|].
  destruct (negb (matchesBucketPattern value)); [done|].
  destruct (hasConsecutivePeriods _); [done|].
  destruct (looksLikeIpAddress value); [done|].
  unfold RESERVED_PREFIXES. simpl.
  destruct (Js.startsWith value "xn--"); [done|].
  by rewrite (prefix_shorter _ Hstarts).
Qed.

Lemma forallb_Forall {A} (f : A → bool) (l : list A) :
  forallb f l = true ↔ Forall (λ x, f x = true) l.
Proof.
  induction l as [|x l IH]; simpl.
  - split; [constructor|done].
  - rewrite andb_true_iff, IH. split; [intros [? ?]; by constructor|by inversion 1].
Qed.

Lemma bucket_char_cases (c : ascii) :
  isBucketChar c = true → isLowerAlnum c = false → c = "."%char ∨ c = "-"%char.
Proof.
  unfold isBucketChar. intros Hc Hn. rewrite Hn in Hc. simpl in Hc.
  apply orb_true_iff in Hc as [Hc|Hc]; apply Ascii.eqb_eq in Hc; [by left|by right].
Qed.

Lemma not_alnum_period_hyphen (c : ascii) :
  c = "."%char ∨ c = "-"%char → isLowerAlnum c = false ∧ isBucketChar c = true.
Proof. by intros [-> | ->]. Qed.

(** X28. The validator reports [INVALID_START_END] exactly for the
    names of 3 to 63 characters, all of them lowercase letters, digits,
    periods or hyphens, whose first or last character is a period or a
    hyphen. *)
Theorem start_end_error_means_period_or_hyphen (value : string) :
  validateS3Bucket value = Some InvalidStartEnd ↔
  (S3_BUCKET_MIN_LENGTH ≤ Js.len value ≤ S3_BUCKET_MAX_LENGTH)%nat ∧
  Forall (λ c, isBucketChar c = true) (Js.chars value) ∧
  ∃ first middle final,
    Js.chars value = first :: middle ++ [final] ∧
    ((first = "."%char ∨ first = "-"%char) ∨ (final = "."%char ∨ final = "-"%char)).
Proof.
  unfold validateS3Bucket, S3_BUCKET_MIN_LENGTH, S3_BUCKET_MAX_LENGTH.
  destruct (Js.truthy value) eqn:Ht; simpl negb; simpl orb; cbv iota.
  2:{ apply ParserFacts.truthy_false in Ht as ->. simpl.
      split; [done|]. intros [[? _] _]. lia. }
  destruct (Nat.ltb_spec (Js.len value) 3) as [Hshort|Hmin]; simpl orb; cbv iota.
  { split; [done|]. intros [[? _] _]. lia. }
  destruct (Nat.ltb_spec 63 (Js.len value)) as [Hlong|Hmax]; cbv iota.
  { split; [done|]. intros [[_ ?] _]. lia. }
  rewrite len_chars in *. unfold onlyBucketChars, matchesBucketPattern.
  destruct (Js.chars value) as [|first rest] eqn:Hcs; [simpl in *; lia|].
  destruct rest as [|second rest]; [simpl in *; lia|].
  set (tail := second :: rest) in *.
  assert (Htail : tail ≠ []) by done.
  pose proof (app_removelast_last first Htail) as Hsplit.
  set (middle := removelast tail) in *. set (final := List.last tail first) in *.
  clearbody middle final. clearbody tail. subst tail.
  rewrite <- forallb_Forall.
  destruct (forallb isBucketChar (first :: middle ++ [final])) eqn:Hall; simpl negb;
    cbv iota.
  2:{ split; [done|]. by intros (_ & ? & _). }
  pose proof Hall as Hall'. simpl in Hall'.
  apply andb_true_iff in Hall' as [Hfirst Hrest].
  rewrite forallb_app in Hrest. apply andb_true_iff in Hrest as [Hmiddle Hfinal].
  simpl in Hfinal. rewrite andb_true_r in Hfinal. rewrite Hmiddle, andb_true_r.
  destruct (isLowerAlnum first) eqn:Hf; destruct (isLowerAlnum final) eqn:Hl;
    simpl andb; simpl negb; cbv iota.
  - split.
    + destruct (hasConsecutivePeriods _); [done|].
      destruct (looksLikeIpAddress value); [done|].
      destruct (List.find _ RESERVED_PREFIXES); [done|].
      by destruct (List.find _ RESERVED_SUFFIXES).
    + intros (_ & _ & first' & middle' & final' & Heq & Hcase).
      injection Heq as <- Heq. apply app_inj_tail in Heq as [_ <-].
      destruct Hcase as [Hc|Hc]; apply not_alnum_period_hyphen in Hc as [Hc _];
        congruence.
  - split; [intros _|done]. split; [lia|]. split; [done|].
    exists first, middle, final. split; [done|]. right. by apply bucket_char_cases.
  - split; [intros _|done]. split; [lia|]. split; [done|].
    exists first, middle, final. split; [done|]. left. by apply bucket_char_cases.
  - split; [intros _|done]. split; [lia|]. split; [done|].
    exists first, middle, final. split; [done|]. left. by apply bucket_char_cases.
Qed.

End BucketFacts.

(** * Further sample inputs *)

Module MoreSamples.
Import Samples Extractor.

(** a directory with an old archive, a hidden one, a file that is no
    archive, a fresh archive and an archive that cannot be examined *)
Definition sampleFs : FileSystem :=
  {| readdir := λ d,
       if String.eqb d "/input"
       then inr ["two.zip"; ".hidden.zip"; "notes.txt"; "fresh.zip"; "lost.zip"]
       else inl (MkError "ENOENT");
     fileAgeMs := λ p,
       if String.eqb p "/input/two.zip" then inr 90000%Z
       else if String.eqb p "/input/fresh.zip" then inr 1000%Z
       else inl (MkError "ENOENT") |}.

Definition sampleListing : ZipListResult :=
  {| zl_files := ["two.zip"; "lost.zip"]; oldestAgeMs := 90000 |}.

(** a total-size limit below the size of [/input/two.zip] *)
Definition tightOptions : ExtractOptions :=
  {| maxEntries := None; maxEntrySize := None; maxTotalSize := Some 5%N |}.

(** a batch whose second file has no name left once the slashes are
    stripped *)
Definition namelessBatch : Batch :=
  {| prefix := "";
     files := [toUpload "a.xml" (bytes "<a/>"); toUpload "/" (bytes "<b/>")] |}.

Definition wrapped : ErrorModel.AppErr :=
  ErrorModel.newAppError "ZipError" "ZIP_ERROR" "Failed to extract zip file"
    (Some (inr "disk full")).

End MoreSamples.

Module MoreExamples.
Import Samples MoreSamples Extractor.
Import ExtractorFacts ExtractorMore BrandedFacts ErrorModel ListingFacts UploaderFacts
  StoreFacts ProcessorFacts AccountingFacts BatcherMore.

Lemma extractZip_fails_witness :
  extractZip (disk "/input/two.zip") "/input/two.zip" tightOptions =
  inl (ZipTooLarge "/input/two.zip" 5).
Proof.
  destruct (extractZip_fails (disk "/input/two.zip") "/input/two.zip" tightOptions)
    as [Hover _].
  apply Hover. vm_compute. reflexivity.
Defined.

Lemma destination_is_prefix_then_name_witness :
  joinS3Path [mkS3Prefix "/uploads/batch-1/"; "/a.xml"] = "uploads/batch-1/a.xml".
Proof.
  apply (destination_is_prefix_then_name "/uploads/batch-1/" "/a.xml").
  vm_compute. discriminate.
Defined.

Lemma key_constructor_agrees_with_guard_witness :
  ∃ e, mkS3Key "" = inl e.
Proof.
  destruct (key_constructor_agrees_with_guard "") as (_ & _ & Hthrows).
  apply Hthrows. reflexivity.
Defined.

Lemma contexts_accumulate_witness :
  rootCause (foldl (λ acc ctx, withContext ctx acc) wrapped ["reading"; "attempt 2"]) =
  PlainError "disk full".
Proof.
  destruct (contexts_accumulate wrapped ["reading"; "attempt 2"])
    as (_ & _ & _ & _ & _ & Hroot).
  apply Hroot. discriminate.
Defined.

Lemma oldest_age_covers_every_archive_witness :
  (0 ≤ oldestAgeMs sampleListing)%Z ∧
  (∀ file age,
     file ∈ ["two.zip"; ".hidden.zip"; "notes.txt"; "fresh.zip"; "lost.zip"] →
     isValidZipFile file = true →
     fileAgeMs sampleFs (pathJoin "/input" file) = inr age →
     (age ≤ oldestAgeMs sampleListing)%Z) ∧
  (oldestAgeMs sampleListing = 0%Z ∨
   ∃ file,
     file ∈ ["two.zip"; ".hidden.zip"; "notes.txt"; "fresh.zip"; "lost.zip"] ∧
     isValidZipFile file = true ∧
     fileAgeMs sampleFs (pathJoin "/input" file) = inr (oldestAgeMs sampleListing)).
Proof.
  apply (oldest_age_covers_every_archive sampleFs "/input" 5000
           ["two.zip"; ".hidden.zip"; "notes.txt"; "fresh.zip"; "lost.zip"]
           sampleListing).
  - vm_compute. reflexivity.
  - vm_compute. reflexivity.
Defined.


Lemma refused_key_stops_the_batch_witness :
  ∃ e w',
    tryUploadBatch sampleHost "test-bucket" namelessBatch initialWorld = (Exc e, w') ∧
    sendsIssued w' = sendsIssued initialWorld ∧
    objects w' = objects initialWorld ∧
    batches w' = batches initialWorld ++ [namelessBatch].
Proof.
  apply (refused_key_stops_the_batch sampleHost "test-bucket" namelessBatch initialWorld).
  intros Hall. apply Forall_cons in Hall as [_ Hall].
  apply Forall_cons in Hall as [Hbad _]. vm_compute in Hbad. discriminate.
Defined.

Lemma success_counts_every_item_witness :
  ∃ v w',
    tryProcessZipFile sampleHost "/input/five.zip" patternConfig
      (parserOf sampleHost patternConfig) initialWorld = (Val (Ok v), w') ∧
    ok_filesExtracted v = 5 ∧ ok_filesUploaded v = 5 ∧ ok_filesFiltered v = 0.
Proof.
  destruct (success_counts_every_item sampleHost patternConfig
              (parserOf sampleHost patternConfig) "/input/five.zip" initialWorld)
    as (r & w' & Hrun & Hok).
  assert (Hr : ∃ v, r = Ok v).
  { pose proof Hrun as Hrun'. vm_compute in Hrun'. injection Hrun' as Hr _.
    eexists. symmetry. exact Hr. }
  destruct Hr as [v Hv]. destruct (Hok v Hv) as (_ & _ & He & Hu & Hf).
  exists v, w'. split; [rewrite <- Hv; exact Hrun|].
  rewrite He, Hu, Hf. vm_compute. repeat split.
Defined.

Lemma failure_counts_are_consistent_witness :
  ∃ f w',
    tryProcessZipFile flakyHost "/input/two.zip" sampleConfig
      (parserOf flakyHost sampleConfig) initialWorld = (Val (Err f), w') ∧
    ko_zipPath f = "/input/two.zip" ∧
    (ko_filesUploaded f + ko_filesFiltered f ≤ ko_filesExtracted f)%nat.
Proof.
  destruct (failure_counts_are_consistent flakyHost sampleConfig
              (parserOf flakyHost sampleConfig) "/input/two.zip" initialWorld)
    as (r & w' & Hrun & Herr).
  assert (Hr : ∃ f, r = Err f).
  { pose proof Hrun as Hrun'. vm_compute in Hrun'. injection Hrun' as Hr _.
    eexists. symmetry. exact Hr. }
  destruct Hr as [f Hf]. destruct (Herr f Hf) as (Hpath & Hle & _).
  exists f, w'. split; [rewrite <- Hf; exact Hrun|]. split; [exact Hpath|exact Hle].
Defined.

Lemma attempted_archives_are_routed_in_order_witness :
  ∃ r w' rs,
    processZips sampleHost sampleConfig (Ok fourArchives) initialWorld = (Val r, w') ∧
    length rs = 4 ∧
    routed w' = routesOf sampleConfig (zl_files fourArchives) rs.
Proof.
  destruct (attempted_archives_are_routed_in_order sampleHost sampleConfig fourArchives
              initialWorld)
    as (r & w' & rs & Hrun & _ & _ & _ & _ & _ & Hrouted & Hall).
  exists r, w', rs. split; [exact Hrun|]. split; [|exact Hrouted].
  apply Hall. pose proof Hrun as Hrun'. vm_compute in Hrun'.
  injection Hrun' as Hr _. rewrite <- Hr. reflexivity.
Defined.

Lemma enough_time_processes_every_archive_witness :
  ∃ r w',
    processZips sampleHost sampleConfig (Ok fourArchives) initialWorld = (Val r, w') ∧
    stoppedEarly r = false ∧
    zipsProcessed r + zipsFailed r = 4 ∧
    clockReads w' = 4.
Proof.
  apply (enough_time_processes_every_archive sampleHost sampleConfig fourArchives
           initialWorld).
  intros j _. vm_compute. discriminate.
Defined.

Lemma batch_prefixes_use_consecutive_identifiers_witness :
  ∃ bs w',
    createBatches sampleHost fiveFiles "uploads/" 2 initialWorld = (Val bs, w') ∧
    uuidsDrawn w' = uuidsDrawn initialWorld + length bs ∧
    (∀ j b, bs !! j = Some b →
            prefix b =
              mkS3Prefix (joinS3Path ["uploads/";
                                      uuid sampleHost (uuidsDrawn initialWorld + j)])) ∧
    sendsIssued w' = sendsIssued initialWorld ∧ objects w' = objects initialWorld ∧
    batches w' = batches initialWorld ∧ routed w' = routed initialWorld.
Proof.
  apply (batch_prefixes_use_consecutive_identifiers sampleHost fiveFiles "uploads/" 2
           initialWorld).
  lia.
Defined.

Lemma zero_batch_size_never_returns_witness :
  fst (createBatchesFrom sampleHost 40 fiveFiles "uploads/" 0 0 [] initialWorld) =
    Diverges ∧
  uuidsDrawn (snd (createBatchesFrom sampleHost 40 fiveFiles "uploads/" 0 0 []
                     initialWorld)) = uuidsDrawn initialWorld + 40.
Proof.
  apply (zero_batch_size_never_returns sampleHost fiveFiles "uploads/" initialWorld 40).
  discriminate.
Defined.

End MoreExamples.

(** * The names handed to the uploader *)

Module NamingFacts.
Import UploaderFacts ProcessorFacts.

(** The name that the classifier proposes for an item. *)
Definition candidateOf (parser : Parser.ContentParser)
    (file : Extractor.ExtractedFile) : string :=
  Parser.extractFilename parser (string_of_list_byte (Extractor.content file))
    (Extractor.name file).

(** [Resolved host candidates names]: the names are what the candidates
    become, one after the other: a candidate that equals none of the
    names before it stays as it is, a candidate that equals one of them
    is renamed with an identifier of the host. *)
Inductive Resolved (host : Host) : list string → list string → Prop :=
| Resolved_nil : Resolved host [] []
| Resolved_new candidates names c :
    Resolved host candidates names → c ∉ names →
    Resolved host (candidates ++ [c]) (names ++ [c])
| Resolved_renamed candidates names c n :
    Resolved host candidates names → c ∈ names →
    Resolved host (candidates ++ [c]) (names ++ [disambiguate c (uuid host n)]).

Lemma Resolved_lookup host candidates names :
  Resolved host candidates names →
  length names = length candidates ∧
  ∀ i c, candidates !! i = Some c →
    ∃ name, names !! i = Some name ∧
            (c ∉ take i names → name = c) ∧
            (c ∈ take i names → ∃ n, name = disambiguate c (uuid host n)).
Proof.
  induction 1 as [|cands names c _ [IHlen IH] Hnew|cands names c n _ [IHlen IH] Hold].
  - split; [done|]. by intros i c Hi.
  - split; [rewrite !length_app; simpl; lia|]. intros i d Hi.
    destruct (decide (i < length cands)) as [Hlt|Hge].
    + rewrite lookup_app_l in Hi by done.
      destruct (IH i d Hi) as (name & Hname & Hrest).
      exists name. rewrite lookup_app_l by lia. split; [done|].
      by rewrite take_app_le by lia.
    + rewrite lookup_app_r in Hi by lia.
      destruct (i - length cands) as [|k] eqn:Hk; [|done]. injection Hi as <-.
      assert (i = length names) as -> by lia.
      exists c. rewrite lookup_app_r by lia. rewrite Nat.sub_diag.
      split; [done|]. rewrite take_app_length. split; [done|]. by intros ?.
  - split; [rewrite !length_app; simpl; lia|]. intros i d Hi.
    destruct (decide (i < length cands)) as [Hlt|Hge].
    + rewrite lookup_app_l in Hi by done.
      destruct (IH i d Hi) as (name & Hname & Hrest).
      exists name. rewrite lookup_app_l by lia. split; [done|].
      by rewrite take_app_le by lia.
    + rewrite lookup_app_r in Hi by lia.
      destruct (i - length cands) as [|k] eqn:Hk; [|done]. injection Hi as <-.
      assert (i = length names) as -> by lia.
      eexists. rewrite lookup_app_r by lia. rewrite Nat.sub_diag.
      split; [done|]. rewrite take_app_length. split; [by intros ?|].
      intros _. by exists n.
Qed.

Section Attempts.

Variables (host : Host) (cfg : Config) (parser : Parser.ContentParser).

(** The names of the files handed over in [flushed] and of those that
    wait in the current batch. *)
Definition namesOf (flushed : list Batch) (l : Locals) : list string :=
  map key (filesOf flushed ++ currentBatch l).

(** What holds between two items of an attempt that started in [w0] and
    has consumed [seen]. *)
Definition Named (w0 : World) (seen : list Extractor.ExtractedFile) (s : Attempt)
    : Prop :=
  ∃ flushed,
    batches (snd s) = batches w0 ++ flushed ∧
    Resolved host (map (candidateOf parser) (keptOf parser seen))
      (namesOf flushed (fst s)) ∧
    ∀ x, x ∈ usedFilenames (fst s) ↔ x ∈ namesOf flushed (fst s).

(** What holds of the world however the attempt goes on: the names
    handed over so far are the first of the names of the items consumed,
    [all] being the items that the archive yields. *)
Definition Handed (w0 : World) (all : list Extractor.ExtractedFile) (w : World)
    : Prop :=
  ∃ seen names flushed,
    seen `prefix_of` all ∧
    batches w = batches w0 ++ flushed ∧
    Resolved host (map (candidateOf parser) (keptOf parser seen)) names ∧
    map key (filesOf flushed) `prefix_of` names.

(** What holds of the world when the [try] block has run to its end. *)
Definition Complete (w0 : World) (all : list Extractor.ExtractedFile) (w : World)
    : Prop :=
  ∃ flushed,
    batches w = batches w0 ++ flushed ∧
    Resolved host (map (candidateOf parser) (keptOf parser all))
      (map key (filesOf flushed)).

Lemma Handed_mono w0 all all' w :
  Handed w0 all w → all `prefix_of` all' → Handed w0 all' w.
Proof.
  intros (seen & names & flushed & Hp & Hrest) Hall.
  exists seen, names, flushed. split; [by etrans|done].
Qed.

Lemma Named_handed w0 seen l w : Named w0 seen (l, w) → Handed w0 seen w.
Proof.
  intros (flushed & Hb & Hres & _). exists seen, (namesOf flushed l), flushed.
  split; [done|]. split; [done|]. split; [done|].
  unfold namesOf. rewrite map_app. by apply prefix_app_r.
Qed.

Lemma Complete_handed w0 all w : Complete w0 all w → Handed w0 all w.
Proof.
  intros (flushed & Hb & Hres). by exists all, (map key (filesOf flushed)), flushed.
Qed.

Lemma namesOf_flushed flushed l p r :
  namesOf (flushed ++ [pending l]) (resetBatch p (countUploads r l)) =
  namesOf flushed l.
Proof. unfold namesOf. simpl. by rewrite filesOf_snoc, app_nil_r. Qed.

Lemma processFile_named w0 seen file s :
  Named w0 seen s →
  match processFile host cfg parser file s with
  | (Val _, s') => Named w0 (seen ++ [file]) s'
  | (Exc _, s') => Handed w0 (seen ++ [file]) (snd s')
  | (Diverges, _) => False
  end.
Proof.
  destruct s as [l w]. intros Hnamed.
  pose proof Hnamed as (flushed & Hb & Hres & Hused). cbn [fst snd] in Hb, Hres, Hused.
  unfold processFile. unfold bind at 1. unfold update at 1. simpl.
  destruct (Parser.shouldFilter parser (string_of_list_byte (Extractor.content file)))
    eqn:Hfilter.
  { unfold update. exists flushed. cbn [fst snd]. split; [done|].
    rewrite keptOf_snoc. unfold isKept. rewrite Hfilter. simpl.
    rewrite app_nil_r. done. }
  assert (Hkept : isKept parser file = true) by (unfold isKept; by rewrite Hfilter).
  unfold bind at 1. unfold resolveFilename.
  fold (candidateOf parser file). set (filename := candidateOf parser file).
  unfold bind at 1. unfold locals at 1. simpl.
  unfold bind at 1.
  assert (Hresolve : ∃ k w1,
    (if bool_decide (filename ∈ usedFilenames l)
     then u <- inWorld (drawUuid host);; ret (disambiguate filename u)
     else ret filename) (countExtracted l, w) = (Val k, (countExtracted l, w1)) ∧
    batches w1 = batches w ∧
    (((filename ∉ usedFilenames l) ∧ k = filename) ∨
     ((filename ∈ usedFilenames l) ∧ ∃ n, k = disambiguate filename (uuid host n)))).
  { case_bool_decide as Hin.
    - eexists _, _. split; [reflexivity|]. split; [done|]. right.
      split; [done|]. by eexists.
    - exists filename, w. split; [done|]. split; [done|]. by left. }
  destruct Hresolve as (k & w1 & -> & Hb1 & Hk).
  unfold bind at 1. unfold update at 1. simpl.
  unfold bind at 1. unfold ret at 1.
  unfold bind at 1. unfold orThrow.
  destruct (mkS3Key k) as [err|k'] eqn:Hkey.
  { unfold throw. cbn [snd].
    apply (Handed_mono w0 seen); [|by apply prefix_app_r].
    exists seen, (namesOf flushed l), flushed. split; [done|].
    split; [by rewrite Hb1|]. split; [done|].
    unfold namesOf. rewrite map_app. by apply prefix_app_r. }
  apply mkS3Key_value in Hkey as ->.
  unfold ret at 1. unfold bind at 1. unfold update at 1. simpl.
  set (l2 := pushFile _ _) in *.
  assert (Hl2 : currentBatch l2 =
                currentBatch l ++ [{| key := k; content := Extractor.content file |}])
    by done.
  assert (Hnames : namesOf flushed l2 = namesOf flushed l ++ [k]).
  { unfold namesOf. rewrite Hl2, app_assoc, map_app. done. }
  assert (Hpushed : Named w0 (seen ++ [file]) (l2, w1)).
  { exists flushed. cbn [fst snd]. split; [by rewrite Hb1|].
    rewrite keptOf_snoc, Hkept, map_app, Hnames. simpl. split.
    - destruct Hk as [[Hnew ->] | [Hold (n & ->)]].
      + apply Resolved_new; [done|]. by rewrite <- Hused.
      + apply Resolved_renamed; [done|]. by rewrite <- Hused.
    - intros x. subst l2. simpl. rewrite elem_of_union, elem_of_app, Hused.
      rewrite elem_of_singleton, list_elem_of_singleton. done. }
  change (currentBatch l ++ [_]) with (currentBatch l2).
  destruct (Nat.leb_spec (batchSize cfg) (length (currentBatch l2))) as [Hfull|Hroom].
  - destruct (flushBatch_outcome host cfg l2 w1) as
      [(r & p & w2 & -> & Hb2 & _ & _) | (e & w2 & -> & Hb2 & _)].
    { rewrite Hl2. by destruct (currentBatch l). }
    + destruct Hpushed as (fl & Hbp & Hresp & Husedp). cbn [fst snd] in *.
      assert (fl = flushed) as ->.
      { rewrite Hb1, Hb in Hbp. by apply app_inv_head in Hbp. }
      exists (flushed ++ [pending l2]). cbn [fst snd].
      rewrite namesOf_flushed. split; [by rewrite Hb2, Hbp, app_assoc|].
      split; [done|]. exact Husedp.
    + destruct Hpushed as (fl & Hbp & Hresp & Husedp). cbn [fst snd] in *.
      exists (seen ++ [file]), (namesOf fl l2), (fl ++ [pending l2]).
      split; [done|]. split; [by rewrite Hb2, Hbp, app_assoc|]. split; [done|].
      unfold namesOf. by rewrite filesOf_snoc.
  - unfold ret. exact Hpushed.
Qed.

Lemma forAwait_named w0 completion yielded seen s :
  Named w0 seen s →
  match forAwait yielded completion (processFile host cfg parser) s with
  | (Val _, s') => Named w0 (seen ++ yielded) s'
  | (Exc _, s') => Handed w0 (seen ++ yielded) (snd s')
  | (Diverges, _) => False
  end.
Proof.
  revert seen s. induction yielded as [|file rest IH]; intros seen s Hnamed.
  { simpl. rewrite app_nil_r. destruct completion; simpl; [done|].
    destruct s as [l w]. by eapply Named_handed. }
  simpl. unfold bind.
  pose proof (processFile_named w0 seen file s Hnamed) as Hstep.
  destruct (processFile host cfg parser file s) as [[[]|e|] s1]; [| |done].
  - replace (seen ++ file :: rest) with ((seen ++ [file]) ++ rest)
      by (by rewrite <- app_assoc).
    by apply IH.
  - eapply Handed_mono; [done|].
    replace (seen ++ file :: rest) with ((seen ++ [file]) ++ rest)
      by (by rewrite <- app_assoc).
    by apply prefix_app_r.
Qed.

Lemma final_flush_named w0 yielded s :
  Named w0 yielded s →
  match flushBatch host cfg s with
  | (Val _, s') => Complete w0 yielded (snd s')
  | (Exc _, s') => Handed w0 yielded (snd s')
  | (Diverges, _) => False
  end.
Proof.
  destruct s as [l w]. intros (flushed & Hb & Hres & Hused). cbn [fst snd] in *.
  destruct (currentBatch l) as [|f fs] eqn:Hcur.
  - rewrite flushBatch_empty by done. exists flushed. split; [done|].
    unfold namesOf in Hres. by rewrite Hcur, app_nil_r in Hres.
  - destruct (flushBatch_outcome host cfg l w) as
      [(r & p & w1 & -> & Hb1 & _ & _) | (e & w1 & -> & Hb1 & _)].
    { by rewrite Hcur. }
    + exists (flushed ++ [pending l]). cbn [snd].
      split; [by rewrite Hb1, Hb, app_assoc|]. by rewrite filesOf_snoc.
    + exists yielded, (namesOf flushed l), (flushed ++ [pending l]). cbn [snd].
      split; [done|]. split; [by rewrite Hb1, Hb, app_assoc|]. split; [done|].
      unfold namesOf. by rewrite filesOf_snoc.
Qed.

Lemma processAttempt_named zipPath w0 s :
  Named w0 [] s →
  match processAttempt host zipPath cfg parser s with
  | (Val _, s') => Complete w0 (yieldedFrom host zipPath) (snd s')
  | (Exc _, s') => Handed w0 (yieldedFrom host zipPath) (snd s')
  | (Diverges, _) => False
  end.
Proof.
  intros Hnamed. unfold processAttempt, forAwaitOf. unfold bind at 1.
  pose proof (forAwait_named w0
                (snd (Extractor.extractZipStreaming (yauzl_open host zipPath) zipPath
                        Extractor.noOptions))
                (yieldedFrom host zipPath) [] s Hnamed) as Hloop.
  unfold yieldedFrom in Hloop at 1.
  destruct (forAwait _ _ _ s) as [[[]|e|] s1]; [|done..].
  simpl in Hloop. unfold bind at 1.
  pose proof (final_flush_named w0 _ s1 Hloop) as Hflush.
  destruct (flushBatch host cfg s1) as [[[]|e|] [l2 w2]]; [|done..].
  unfold bind at 1. unfold locals at 1. simpl.
  unfold bind at 1. unfold inWorld, tryRouteFile, noteRoute. simpl.
  destruct Hflush as (flushed & Hfl). simpl in Hfl.
  destruct ((filesFailed l2 =? 0)%nat && (0 <? filesUploaded l2)%nat);
    [destruct (deleteOnSuccess cfg)|]; simpl;
    (destruct (0 <? filesFailed l2)%nat; simpl; by exists flushed).
Qed.

Lemma Named_start w : Named w [] (attemptStart host cfg w).
Proof.
  exists []. simpl. rewrite app_nil_r. split; [done|].
  split; [constructor|]. intros x. unfold namesOf. simpl. split.
  - by intros ?%elem_of_empty.
  - by intros ?%elem_of_nil.
Qed.

(** An attempt returns; the names it has handed over are the first of
    the names that its items resolve to, and all of them when it is
    returned as a success. *)
Lemma tryProcessZipFile_named zipPath w :
  ∃ r w',
    tryProcessZipFile host zipPath cfg parser w = (Val r, w') ∧
    Handed w (yieldedFrom host zipPath) w' ∧
    (isOk r = true → Complete w (yieldedFrom host zipPath) w').
Proof.
  pose proof (processAttempt_named zipPath w (attemptStart host cfg w) (Named_start w))
    as Hrun.
  unfold tryProcessZipFile. unfold bind at 1. unfold freshPrefix at 1.
  unfold bind at 1. unfold ret at 1.
  change (drawUuid host w) with
    (Val (uuid host (uuidsDrawn w)), snd (drawUuid host w)).
  cbv beta iota. unfold withLocals, tryCatch.
  fold (attemptStart host cfg w).
  destruct (processAttempt host zipPath cfg parser (attemptStart host cfg w))
    as [[r|e|] [l1 w1]]; [| |done].
  - exists r, w1. split; [done|]. split; [by apply Complete_handed|done].
  - unfold recoverAttempt, bind, inWorld, tryRouteFile, noteRoute, locals, ret. simpl.
    eexists _, _. split; [reflexivity|]. simpl. split; [|done].
    destruct Hrun as (seen & names & flushed & ? & ? & ? & ?).
    by exists seen, names, flushed.
Qed.

End Attempts.

(** *** The shape of a renamed name *)

Lemma append_empty (s : string) : s +:+ "" = s.
Proof. induction s as [|c s IH]; [done|]. change (String c (s +:+ "") = String c s). by f_equal. Qed.

Lemma disambiguate_plain c u :
  Js.includes c "." = false → disambiguate c u = c +:+ "-" +:+ Js.slice u 0 8.
Proof.
  intros Hno. unfold disambiguate, baseOf, extOf. rewrite Hno.
  by rewrite append_empty.
Qed.

Lemma last_dot_split stem ext :
  Js.includes ext "." = false →
  baseOf (stem +:+ "." +:+ ext) = stem ∧
  extOf (stem +:+ "." +:+ ext) = "." +:+ ext.
Proof.
  intros Hext. set (c := stem +:+ "." +:+ ext).
  assert (Hchars : Js.chars c = Js.chars stem ++ "."%char :: Js.chars ext).
  { unfold c. by rewrite !BrandedFacts.chars_app. }
  assert (Hin : Js.includes c "." = true).
  { rewrite includes_chars, Hchars, existsb_app. simpl. by rewrite orb_true_r. }
  destruct (last_separator c Hin) as (j & Hj & Hno & Hlast).
  assert (j = length (Js.chars stem)) as ->.
  { destruct (lt_eq_lt_dec j (length (Js.chars stem))) as [[Hlt|Heq]|Hgt];
      [exfalso|done|exfalso].
    - rewrite Hchars, drop_app_le, existsb_app in Hno by lia. simpl in Hno.
      by rewrite orb_true_r in Hno.
    - rewrite Hchars, lookup_app_r in Hj by lia.
      destruct (j - length (Js.chars stem)) as [|k] eqn:Hk; [lia|]. simpl in Hj.
      rewrite includes_chars in Hext.
      assert (existsb (Ascii.eqb ".") (Js.chars ext) = true); [|congruence].
      apply existsb_exists. exists "."%char. split; [|done].
      apply list_elem_of_In. by eapply list_elem_of_lookup_2. }
  assert (Hlen : (length (Js.chars stem) ≤ Js.len c)%nat).
  { rewrite JsFacts.len_chars, Hchars, length_app. lia. }
  unfold baseOf, extOf. rewrite Hin, Hlast.
  rewrite JsFacts.slice_prefix, JsFacts.sliceFrom_suffix by done.
  rewrite Hchars, take_app_length, drop_app_length. rewrite JsFacts.str_chars.
  split; [done|]. simpl. by rewrite JsFacts.str_chars.
Qed.

Lemma disambiguate_extension stem ext u :
  Js.includes ext "." = false →
  disambiguate (stem +:+ "." +:+ ext) u =
  stem +:+ "-" +:+ Js.slice u 0 8 +:+ "." +:+ ext.
Proof.
  intros Hext. unfold disambiguate.
  destruct (last_dot_split stem ext Hext) as [-> ->]. done.
Qed.

(** C7. Within one attempt the names of the files handed to the
    uploader are, in order, the names that the items not filtered resolve
    to: the first of them in any case, all of them when the attempt is
    returned as a success.  The candidate name of an item that equals
    none of the names before it passes unchanged; a candidate that equals
    one of them is renamed with an identifier of the host.  Renaming
    appends a dash and the first eight characters of the identifier to a
    name without ["."]; in a name whose last ["."] starts the extension of
    its last path segment it puts them immediately before that ["."].
    The eight characters are hexadecimal digits for the identifiers that
    [uuid()] returns.  When every renaming along the attempt produced a
    name that was not in use, the names handed over are pairwise
    distinct. *)
Theorem names_are_deduplicated (host : Host) (cfg : Config)
    (parser : Parser.ContentParser) (zipPath : FilePath) (w : World) :
  (∃ r w' flushed seen,
     tryProcessZipFile host zipPath cfg parser w = (Val r, w') ∧
     batches w' = batches w ++ flushed ∧
     seen `prefix_of` yieldedFrom host zipPath ∧
     (isOk r = true → seen = yieldedFrom host zipPath) ∧
     let candidates := map (candidateOf parser) (keptOf parser seen) in
     let names := map key (filesOf flushed) in
     (length names ≤ length candidates)%nat ∧
     (isOk r = true → length names = length candidates) ∧
     (∀ i name,
        names !! i = Some name →
        ∃ c, candidates !! i = Some c ∧
             (c ∉ take i names → name = c) ∧
             (c ∈ take i names → ∃ n, name = disambiguate c (uuid host n))) ∧
     (renamedFresh host cfg parser (yieldedFrom host zipPath) (attemptStart host cfg w)
        = true → NoDup names)) ∧
  (∀ c u,
     (Js.includes c "." = false →
      disambiguate c u = c +:+ "-" +:+ Js.slice u 0 8) ∧
     (∀ stem ext,
        c = stem +:+ "." +:+ ext →
        Js.includes ext "." = false → Js.includes ext "/" = false →
        disambiguate c u = stem +:+ "-" +:+ Js.slice u 0 8 +:+ "." +:+ ext) ∧
     (hexPrefixed u →
      Js.len (Js.slice u 0 8) = 8 ∧
      Forall (λ d, Js.isHexDigit d = true) (Js.chars (Js.slice u 0 8)))).
Proof.
  split.
  2:{ intros c u. split; [apply disambiguate_plain|]. split.
      - intros stem ext -> Hdot _. by apply disambiguate_extension.
      - apply disambiguator_hex. }
  destruct (tryProcessZipFile_named host cfg parser zipPath w)
    as (r & w' & Hrun & Hhanded & Hcomplete).
  assert (Hshape : ∃ flushed seen names,
    batches w' = batches w ++ flushed ∧
    seen `prefix_of` yieldedFrom host zipPath ∧
    (isOk r = true →
     seen = yieldedFrom host zipPath ∧ names = map key (filesOf flushed)) ∧
    Resolved host (map (candidateOf parser) (keptOf parser seen)) names ∧
    map key (filesOf flushed) `prefix_of` names).
  { destruct (isOk r) eqn:Hok.
    - destruct (Hcomplete eq_refl) as (flushed & Hb & Hres).
      by exists flushed, (yieldedFrom host zipPath), (map key (filesOf flushed)).
    - destruct Hhanded as (seen & names & flushed & Hp & Hb & Hres & Hpre).
      by exists flushed, seen, names. }
  destruct Hshape as (flushed & seen & names & Hb & Hp & Hok & Hres & [rest Hnames]).
  destruct (Resolved_lookup _ _ _ Hres) as [Hlen Hlookup].
  exists r, w', flushed, seen. split; [done|]. split; [done|]. split; [done|].
  split; [intros Hr; by destruct (Hok Hr)|]. cbv zeta.
  split; [rewrite <- Hlen, Hnames, length_app; lia|].
  split; [intros Hr; destruct (Hok Hr) as [_ Heq]; by rewrite <- Hlen, Heq|].
  split.
  - intros i name Hi.
    pose proof (lookup_lt_Some _ _ _ Hi) as Hlt.
    assert (Hc : is_Some (map (candidateOf parser) (keptOf parser seen) !! i)).
    { apply lookup_lt_is_Some. rewrite <- Hlen, Hnames, length_app.
      eapply Nat.lt_le_trans; [exact Hlt|apply Nat.le_add_r]. }
    destruct Hc as [c Hc]. exists c. split; [done|].
    destruct (Hlookup i c Hc) as (name' & Hname' & Hnew & Hold).
    rewrite Hnames, lookup_app_l in Hname' by done.
    rewrite Hnames, take_app_le in Hnew, Hold by lia.
    unfold S3Key in *. rewrite Hi in Hname'. injection Hname' as <-. done.
  - intros Hfresh.
    destruct (tryProcessZipFile_run host cfg parser True zipPath w (λ _, Hfresh))
      as (r2 & w2 & Hrun2 & (flushed2 & Hb2 & _ & Hnd) & _).
    rewrite Hrun in Hrun2. injection Hrun2 as _ <-.
    rewrite Hb in Hb2. apply app_inv_head in Hb2 as <-. by apply Hnd.
Qed.

End NamingFacts.

Module NamingExamples.
Import Samples Extractor UploaderFacts ProcessorFacts NamingFacts.

(** an archive whose two entries share a name without extension in a
    directory whose name holds a ["."], and an archive whose third entry
    has the name that renaming the second one produces *)
Definition namedDisk (path : FilePath) : option ZipFile :=
  if String.eqb path "/input/dotted.zip" then
    Some (archiveOf [fileEntry "dir.v1/notes" "1"; fileEntry "dir.v1/notes" "2"])
  else if String.eqb path "/input/collide.zip" then
    Some (archiveOf [fileEntry "a.xml" "1"; fileEntry "a.xml" "2";
                     fileEntry "a-00000001.xml" "3"])
  else None.

Definition namedHost : Host :=
  {| uuid := uuidOf; s3_send := accept; remainingTime := λ _, 300000%Z;
     yauzl_open := namedDisk; regex_exec := sampleRegex |}.

(** The names that the attempt on the archive at [path] hands to the
    uploader. *)
Definition handedNames (path : FilePath) : list string :=
  map key (filesOf (batches (snd (tryProcessZipFile namedHost path sampleConfig
                                    (parserOf namedHost sampleConfig) initialWorld)))).

Lemma names_are_deduplicated_witness :
  ∃ r w' flushed,
    tryProcessZipFile sampleHost "/input/same.zip" patternConfig
      (parserOf sampleHost patternConfig) initialWorld = (Val r, w') ∧
    batches w' = batches initialWorld ++ flushed ∧
    length (map key (filesOf flushed)) = 4 ∧
    NoDup (map key (filesOf flushed)).
Proof.
  destruct (names_are_deduplicated sampleHost patternConfig
              (parserOf sampleHost patternConfig) "/input/same.zip" initialWorld)
    as [(r & w' & flushed & seen & Hrun & Hb & _ & Hseen & _ & Hall & _ & Hdistinct) _].
  assert (Hok : isOk r = true).
  { pose proof Hrun as Hrun'. vm_compute in Hrun'. injection Hrun' as Hr _.
    rewrite <- Hr. reflexivity. }
  exists r, w', flushed. split; [exact Hrun|]. split; [exact Hb|]. split.
  - rewrite (Hall Hok), (Hseen Hok). vm_compute. reflexivity.
  - apply Hdistinct. vm_compute. reflexivity.
Defined.

(** Two attempts on which the sentence of the specification on renaming
    fails as worded.  The second entry
    of [dotted.zip] has a name without extension, [notes] in the directory
    [dir.v1]; its disambiguator is not appended at the end but put before
    the ["."] of the directory.  The third entry of [collide.zip] is the
    first occurrence of its name among the candidates, and is renamed all
    the same, because renaming the second entry has produced that name.
    Every name generated was unused when it was generated. *)
Lemma names_claim_fails_as_worded :
  (map (candidateOf (parserOf namedHost sampleConfig))
     (yieldedFrom namedHost "/input/dotted.zip") = ["dir.v1/notes"; "dir.v1/notes"] ∧
   handedNames "/input/dotted.zip" = ["dir.v1/notes"; "dir-00000001.v1/notes"] ∧
   Js.startsWith "dir-00000001.v1/notes" "dir.v1/notes" = false) ∧
  (map (candidateOf (parserOf namedHost sampleConfig))
     (yieldedFrom namedHost "/input/collide.zip") =
     ["a.xml"; "a.xml"; "a-00000001.xml"] ∧
   handedNames "/input/collide.zip" =
     ["a.xml"; "a-00000001.xml"; "a-00000001-00000002.xml"]) ∧
  renamedFresh namedHost sampleConfig (parserOf namedHost sampleConfig)
    (yieldedFrom namedHost "/input/dotted.zip")
    (attemptStart namedHost sampleConfig initialWorld) = true ∧
  renamedFresh namedHost sampleConfig (parserOf namedHost sampleConfig)
    (yieldedFrom namedHost "/input/collide.zip")
    (attemptStart namedHost sampleConfig initialWorld) = true.
Proof.
  split; [|split; [|split]].
  - split; [vm_compute; reflexivity|]. split; vm_compute; reflexivity.
  - split; vm_compute; reflexivity.
  - vm_compute. reflexivity.
  - vm_compute. reflexivity.
Qed.

End NamingExamples.
